(** * TKD annotation dashboard: annotation repository, match registry,
      inference rules and progress statistics

    A shallow embedding of [data_manager.py] and of the pure inference helpers
    of [app.py].  Python dictionaries that are used as maps become [gmap]s or
    association lists (where the insertion order is observable), dictionaries
    used as structs become records, and the JSON files become explicit state
    that every operation takes and returns. *)

From Stdlib Require Import ZArith QArith Ascii String List Lia.
From stdpp Require Import gmap strings pretty list sorting.

Local Open Scope Z_scope.

(** ** Python values *)

(** The scalar values that the JSON documents of the dashboard carry in the
    fields the code reads.  A float is represented by the rational number it
    denotes (JSON has neither NaN nor infinities). *)
Inductive value : Type :=
  | VNone
  | VBool (b : bool)
  | VInt (z : Z)
  | VFloat (q : Q)
  | VStr (s : string).

(** What the model takes from the Python runtime without defining it: the
    [repr] of a float (used when a float ends up in an f-string) and
    [str.lower]. *)
Class PyRuntime := {
  float_repr : Q → string;
  str_lower : string → string
}.

(** The numeric tower of [==]: [True == 1 == 1.0]. *)
Definition num_of (v : value) : option Q :=
  match v with
  | VBool b => Some (inject_Z (if b then 1 else 0))
  | VInt z => Some (inject_Z z)
  | VFloat q => Some q
  | VNone | VStr _ => None
  end.

(** [a == b] on scalars. *)
Definition py_eq (a b : value) : bool :=
  match a, b with
  | VNone, VNone => true
  | VStr s, VStr t => bool_decide (s = t)
  | _, _ =>
      match num_of a, num_of b with
      | Some p, Some q => Qeq_bool p q
      | _, _ => false
      end
  end.

(** Truthiness: [bool(v)]. *)
Definition py_truthy (v : value) : bool :=
  match v with
  | VNone => false
  | VBool b => b
  | VInt z => negb (z =? 0)
  | VFloat q => negb (Qeq_bool q 0)
  | VStr s => negb (bool_decide (s = ""))
  end.

(** [str(v)], which is also what an f-string field [{v}] produces. *)
Definition py_str `{PyRuntime} (v : value) : string :=
  match v with
  | VNone => "None"
  | VBool b => if b then "True" else "False"
  | VInt z => pretty z
  | VFloat q => float_repr q
  | VStr s => s
  end.

(** A JSON object with scalar fields. *)
Abbreviation pydict := (gmap string value).

(** [d.get(k)] and [d.get(k, dflt)]. *)
Definition dget (d : pydict) (k : string) : value := default VNone (d !! k).
Definition dget_or (d : pydict) (k : string) (dflt : value) : value :=
  default dflt (d !! k).

(** ** Strings *)

(** [needle in hay] for two strings. *)
Fixpoint str_prefix (p s : string) : bool :=
  match p, s with
  | EmptyString, _ => true
  | String a p', String b s' => bool_decide (a = b) && str_prefix p' s'
  | String _ _, EmptyString => false
  end.

Fixpoint str_contains (needle hay : string) : bool :=
  str_prefix needle hay ||
  match hay with
  | EmptyString => false
  | String _ rest => str_contains needle rest
  end.

(** [s.replace(a, b)] for single characters. *)
Fixpoint str_replace_char (a b : ascii) (s : string) : string :=
  match s with
  | EmptyString => EmptyString
  | String c rest =>
      String (if bool_decide (c = a) then b else c) (str_replace_char a b rest)
  end.

(** [s.replace(old, new)] for a non-empty [old]: the occurrences are taken
    from the left and do not overlap.  [skip] counts the characters of an
    occurrence that are still to be passed over. *)
Fixpoint str_replace_from (old new : string) (skip : nat) (s : string) : string :=
  match s with
  | EmptyString => EmptyString
  | String c rest =>
      match skip with
      | S k => str_replace_from old new k rest
      | O =>
          if str_prefix old s
          then new +:+ str_replace_from old new (String.length old - 1) rest
          else String c (str_replace_from old new 0 rest)
      end
  end.

Definition str_replace (old new s : string) : string :=
  str_replace_from old new 0 s.

(** ** Inference rules ([app.py], the helpers of [page_annotate]) *)

Module Inference.

(** [DIMENSION_OPTIONS] of [constants.py], the entries the defaults use. *)
Definition role_options : list string := ["Attack"; "Contre Attack"; "Defence"].
Definition attitude_options : list string := ["Forward"; "Stationary"; "Backward"].
Definition scoring_value_options : list string :=
  ["No score"; "1"; "2"; "3"; "4"; "6"; "-1"; "-2"; "-3"; "-4"; "-6"].

(** [_ROLE_MIRROR.get(role)]. *)
Definition _ROLE_MIRROR (role : string) : option string :=
  if bool_decide (role = "Attack") then Some "Contre Attack"
  else if bool_decide (role = "Contre Attack") then Some "Attack"
  else if bool_decide (role = "Defence") then Some "Attack"
  else None.

(** [_ATTITUDE_MIRROR.get(attitude)]. *)
Definition _ATTITUDE_MIRROR (attitude : string) : option string :=
  if bool_decide (attitude = "Forward") then Some "Backward"
  else if bool_decide (attitude = "Backward") then Some "Forward"
  else if bool_decide (attitude = "Stationary") then Some "Stationary"
  else None.

(** [_penalty_pts(penalty_str)]; the argument is a string or [None]. *)
Definition _penalty_pts (penalty_str : option string) : Z :=
  match penalty_str with
  | None => 0
  | Some s =>
      if bool_decide (s = "") || bool_decide (s = "None") then 0
      else if str_contains "(-2)" s || str_contains "(+2)" s then 2
      else if str_contains "(-1)" s || str_contains "(+1)" s then 1
      else 0
  end.

(** [_match_option(value, options)]: the stored value matched against the
    options, first exactly (case-insensitively), then by containment. *)
Definition _match_option `{PyRuntime} (v : value) (options : list string)
    : option string :=
  if negb (py_truthy v) then None
  else
    let value_lower := str_replace_char "_" " " (str_lower (py_str v)) in
    match List.find (λ opt, bool_decide (str_lower opt = value_lower)) options with
    | Some opt => Some opt
    | None =>
        List.find (λ opt, str_contains value_lower (str_lower opt)
                          || str_contains (str_lower opt) value_lower) options
    end.

(** Truthiness of an optional string ([None] and [""] are falsy). *)
Definition truthy_opt (o : option string) : bool :=
  match o with
  | Some s => negb (bool_decide (s = ""))
  | None => false
  end.

(** [src] of [_render_fighter_layers]: the stored annotation when there is a
    non-empty one, else the event for the active fighter, else nothing. *)
Definition layer_src (existing_ann : option pydict) (event : pydict)
    (is_active : bool) : pydict :=
  match existing_ann with
  | Some ann =>
      if bool_decide (ann = ∅) then (if is_active then event else ∅) else ann
  | None => if is_active then event else ∅
  end.

(** Layer 3 of [_render_fighter_layers]: the default shown for the role.
    [src] is the record the defaults are read from, [other_role] what the
    session state holds for the other fighter. *)
Definition role_default `{PyRuntime} (src : pydict) (is_active : bool)
    (other_role : option string) : option string :=
  let role_default := _match_option (dget src "role") role_options in
  if negb (truthy_opt role_default) && negb is_active then
    match other_role with
    | Some r => if negb (bool_decide (r = "")) then _ROLE_MIRROR r else role_default
    | None => role_default
    end
  else role_default.

(** Layer 1: the default shown for the attitude. *)
Definition attitude_default `{PyRuntime} (src : pydict) (is_active : bool)
    (other_att : option string) : option string :=
  let attitude_default := _match_option (dget src "attitude") attitude_options in
  if negb (truthy_opt attitude_default) && negb is_active then
    match other_att with
    | Some a =>
        if negb (bool_decide (a = "")) then _ATTITUDE_MIRROR a else attitude_default
    | None => attitude_default
    end
  else attitude_default.

(** Layer 8: the default shown for the scoring value. *)
Definition value_default `{PyRuntime} (src : pydict) (other_pen : option string)
    : option string :=
  let value_default := _match_option (dget src "scoring_value") scoring_value_options in
  let other_pen_pts := _penalty_pts other_pen in
  if (0 <? other_pen_pts) && negb (truthy_opt value_default)
  then Some (pretty other_pen_pts)
  else value_default.

End Inference.

(** ** Annotation repository ([data_manager.py]) *)

Module Repo.

(** [TECHNIQUE_CLASSES] and its inverse, built the way the dict comprehension
    of [constants.py] builds it. *)
Definition TECHNIQUE_CLASSES : list (Z * string) :=
  [ (0, "dollyo_chagi"); (1, "ap_chagi"); (2, "yeop_chagi"); (3, "dwit_chagi");
    (4, "naeryo_chagi"); (5, "dwi_huryeo_chagi"); (6, "momtong_jireugi");
    (7, "cut_kick"); (8, "block_defense"); (9, "neutral_stance") ].

Definition TECHNIQUE_NAMES_REVERSE : gmap string Z :=
  foldl (λ m kv, <[kv.2 := kv.1]> m) ∅ TECHNIQUE_CLASSES.

(** [TECHNIQUE_NAMES_REVERSE.get(technique, 9)]: only a string can be one of
    the keys. *)
Definition technique_id_of (technique : value) : Z :=
  match technique with
  | VStr s => default 9 (TECHNIQUE_NAMES_REVERSE !! s)
  | _ => 9
  end.

(** The document of one [<video>_annotations.json]: its scalar entries
    (version, created_at, num_annotations) and the [annotations] array, which
    may be missing from a file that was not written by this code. *)
Record ann_doc : Type := AnnDoc {
  doc_meta : pydict;
  doc_annotations : option (list pydict)
}.

(** [data.get("annotations", [])]. *)
Definition annotations_of (d : ann_doc) : list pydict :=
  default [] (doc_annotations d).

(** The three places an annotation document can live in, each keyed by the
    video stem: the annotations directory, its [.json.bak] sidecars, and the
    read-only [data/annotations] directory of the repository.  Where the
    annotations directory is that directory itself (the standard layout), a
    file that is missing from the first is missing from the third too, which
    is a store whose third map is empty; the third map stands for the
    fallback only where the two directories differ. *)
Record store : Type := Store {
  ann_files : gmap string ann_doc;
  bak_files : gmap string ann_doc;
  repo_files : gmap string ann_doc
}.

Definition empty_store : store := Store ∅ ∅ ∅.

(** What a call takes from the outside world: the two readings of
    [datetime.now().isoformat()] and the first eight hex digits of a fresh
    [uuid4]. *)
Record world : Type := World {
  clock_load : string;
  clock_create : string;
  uuid_hex8 : string
}.

(** [load_annotations(video_stem)]. *)
Definition load_annotations (st : store) (now : string) (video_stem : string)
    : ann_doc :=
  match ann_files st !! video_stem with
  | Some d => d
  | None =>
      match repo_files st !! video_stem with
      | Some d => d
      | None =>
          AnnDoc (list_to_map [ ("version", VStr "1.1"); ("created_at", VStr now);
                                ("num_annotations", VInt 0) ])
                 (Some [])
      end
  end.

(** [save_annotations(video_stem, annotations_data)]: rolling backup of the
    file being replaced, recomputed [num_annotations], then the write (temp
    file and move, one step here). *)
Definition save_annotations (st : store) (video_stem : string) (d : ann_doc)
    : store :=
  let bak :=
    match ann_files st !! video_stem with
    | Some old => <[video_stem := old]> (bak_files st)
    | None => bak_files st
    end in
  let d' :=
    AnnDoc (<["num_annotations" := VInt (Z.of_nat (length (annotations_of d)))]>
              (doc_meta d))
           (doc_annotations d) in
  Store (<[video_stem := d']> (ann_files st)) bak (repo_files st).

(** The test of the three scans: does [ann] carry this identity key? *)
Definition same_event (start_frame end_frame fighter_color : value)
    (ann : pydict) : bool :=
  py_eq (dget ann "start_frame") start_frame
  && py_eq (dget ann "end_frame") end_frame
  && py_eq (dget ann "fighter_color") fighter_color.

(** The identity key [add_annotation] derives from its arguments. *)
Definition key_start (event : pydict) : value := dget_or event "start_frame" (VInt 0).
Definition key_end (event : pydict) : value := dget_or event "end_frame" (VInt 0).
Definition key_color (event corrections : pydict) : value :=
  dget_or corrections "fighter_color" (dget_or event "fighter_color" (VStr "unknown")).

(** The loop setting [existing_idx]: the first index whose record matches. *)
Definition existing_idx (annotations : list pydict)
    (start_frame end_frame fighter_color : value) : option nat :=
  fst <$> list_find (λ ann, Is_true (same_event start_frame end_frame fighter_color ann))
                    annotations.

(** The record [add_annotation] builds, before its identifier is set. *)
Definition new_annotation `{PyRuntime} (video_stem : string)
    (event corrections : pydict) (annotated_by : string) (exists_already : bool)
    (now : string) : pydict :=
  let technique :=
    dget_or corrections "technique" (dget_or event "technique" (VStr "neutral_stance")) in
  list_to_map
    [ ("video_path", VStr (video_stem +:+ ".mp4"));
      ("start_frame", key_start event);
      ("end_frame", key_end event);
      ("fighter_color", key_color event corrections);
      ("technique", technique);
      ("technique_id", VInt (technique_id_of technique));
      ("target_zone",
         dget_or corrections "target_zone" (dget_or event "target_zone" (VStr "trunk")));
      ("annotator", VStr (if exists_already then "verified" else "manual"));
      ("source",
         VStr ("confirmed_" +:+
               py_str (dget_or event "classifier_tier" (VStr "rule_based"))));
      ("confidence", VFloat 1);
      ("annotated_by", VStr annotated_by);
      ("notes", dget_or corrections "notes" (VStr ""));
      ("created_at", VStr now);
      ("annotation_id", VStr "");
      ("attitude", dget corrections "attitude");
      ("guard_stance", dget corrections "guard_stance");
      ("role", dget corrections "role");
      ("action_type", dget corrections "action_type");
      ("leg_used", dget corrections "leg_used");
      ("scoring_value", dget corrections "scoring_value");
      ("penalty", dget corrections "penalty");
      ("scoreboard_red", dget corrections "scoreboard_red");
      ("scoreboard_blue", dget corrections "scoreboard_blue");
      ("scoreboard_round", dget corrections "scoreboard_round");
      ("match_name", dget corrections "match_name");
      ("video_part", dget corrections "video_part") ].

(** The identifier given to a record that is appended. *)
Definition fresh_id `{PyRuntime} (video_stem : string)
    (start_frame end_frame fighter_color : value) (hex8 : string) : value :=
  VStr (video_stem +:+ "_" +:+ py_str fighter_color +:+ "_" +:+ py_str start_frame
        +:+ "_" +:+ py_str end_frame +:+ "_" +:+ hex8).

(** [add_annotation(video_stem, event, corrections, annotated_by)]: the
    returned identifier and the store after the save. *)
Definition add_annotation `{PyRuntime} (w : world) (st : store)
    (video_stem : string) (event corrections : pydict) (annotated_by : string)
    : value * store :=
  let data := load_annotations st (clock_load w) video_stem in
  let annotations := annotations_of data in
  let start_frame := key_start event in
  let end_frame := key_end event in
  let fighter_color := key_color event corrections in
  let idx := existing_idx annotations start_frame end_frame fighter_color in
  let annotation :=
    new_annotation video_stem event corrections annotated_by
                   (bool_decide (is_Some idx)) (clock_create w) in
  let '(annotation, annotations) :=
    match idx with
    | Some i =>
        let annotation :=
          <["annotation_id" :=
              dget_or (default ∅ (annotations !! i)) "annotation_id" (VStr "")]>
            annotation in
        (annotation, <[i := annotation]> annotations)
    | None =>
        let annotation :=
          <["annotation_id" :=
              fresh_id video_stem start_frame end_frame fighter_color (uuid_hex8 w)]>
            annotation in
        (annotation, annotations ++ [annotation])
    end in
  let data := AnnDoc (doc_meta data) (Some annotations) in
  (dget annotation "annotation_id", save_annotations st video_stem data).

(** [delete_annotation(video_stem, start_frame, end_frame, fighter_color)]. *)
Definition delete_annotation (w : world) (st : store) (video_stem : string)
    (start_frame end_frame fighter_color : value) : bool * store :=
  let data := load_annotations st (clock_load w) video_stem in
  let annotations := annotations_of data in
  let original_len := length annotations in
  let annotations :=
    List.filter (λ a, negb (same_event start_frame end_frame fighter_color a))
                annotations in
  if (length annotations <? original_len)%nat then
    (true, save_annotations st video_stem (AnnDoc (doc_meta data) (Some annotations)))
  else (false, st).

(** [get_annotation_for_event(video_stem, start_frame, end_frame,
    fighter_color)]. *)
Definition get_annotation_for_event (w : world) (st : store) (video_stem : string)
    (start_frame end_frame fighter_color : value) : option pydict :=
  List.find (same_event start_frame end_frame fighter_color)
            (annotations_of (load_annotations st (clock_load w) video_stem)).

(** A counting dictionary keyed by values: [d[k] = d.get(k, 0) + 1].  The key
    that was inserted first is the one the dictionary keeps. *)
Fixpoint count_key (k : value) (d : list (value * Z)) : list (value * Z) :=
  match d with
  | [] => [(k, 1)]
  | (k', n) :: rest =>
      if py_eq k' k then (k', n + 1) :: rest else (k', n) :: count_key k rest
  end.

(** [round(x, 1)] of the quotient [n / d], in tenths: to the nearest tenth,
    a tie going to the even one.  The float arithmetic of the source is
    modelled by exact rational arithmetic. *)
Definition round_half_even (n d : Z) : Z :=
  let q := n / d in
  let r := n mod d in
  if 2 * r <? d then q
  else if d <? 2 * r then q + 1
  else if Z.even q then q else q + 1.

Record stats : Type := Stats {
  total_events : Z;
  annotated : nat;
  remaining : Z;
  progress_tenths : Z;
  by_annotator : list (value * Z);
  by_technique : list (value * Z)
}.

(** [progress_pct] as a rational: the tenths over ten. *)
Definition progress_pct (s : stats) : Q := Qmake (progress_tenths s) 10.

(** [get_annotation_stats(video_stem, total_events)]. *)
Definition get_annotation_stats (w : world) (st : store) (video_stem : string)
    (total : Z) : stats :=
  let annotations := annotations_of (load_annotations st (clock_load w) video_stem) in
  let who ann :=
    let a := dget_or ann "annotated_by" (VStr "Unknown") in
    if py_truthy a then a else VStr "Unknown" in
  let len := Z.of_nat (length annotations) in
  Stats total
        (length annotations)
        (Z.max 0 (total - len))
        (round_half_even (len * 100 * 10) (Z.max 1 total))
        (foldl (λ d ann, count_key (who ann) d) [] annotations)
        (foldl (λ d ann, count_key (dget_or ann "technique" (VStr "unknown")) d)
               [] annotations).

(** The annotations a video has in the store (whatever the clock says). *)
Definition stored_annotations (st : store) (video_stem : string) : list pydict :=
  annotations_of (load_annotations st "" video_stem).

(** How many of the records carry the identity key. *)
Definition count_event (start_frame end_frame fighter_color : value)
    (l : list pydict) : nat :=
  length (List.filter (same_event start_frame end_frame fighter_color) l).

(** The invariant of the data model: at most one record per identity key. *)
Definition one_per_key (l : list pydict) : Prop :=
  ∀ start_frame end_frame fighter_color,
    (count_event start_frame end_frame fighter_color l ≤ 1)%nat.

(** One call that writes, and a sequence of them. *)
Inductive op : Type :=
  | OpAdd (w : world) (video_stem : string) (event corrections : pydict)
          (annotated_by : string)
  | OpDelete (w : world) (video_stem : string)
             (start_frame end_frame fighter_color : value).

Definition apply_op `{PyRuntime} (st : store) (o : op) : store :=
  match o with
  | OpAdd w video_stem event corrections annotated_by =>
      (add_annotation w st video_stem event corrections annotated_by).2
  | OpDelete w video_stem start_frame end_frame fighter_color =>
      (delete_annotation w st video_stem start_frame end_frame fighter_color).2
  end.

Definition apply_ops `{PyRuntime} (os : list op) (st : store) : store :=
  foldl apply_op st os.

Definition op_video (o : op) : string :=
  match o with
  | OpAdd _ video_stem _ _ _ => video_stem
  | OpDelete _ video_stem _ _ _ => video_stem
  end.

(** [d.get(k, 0)] on a counting dictionary, and the sum of its counts. *)
Fixpoint count_get (k : value) (d : list (value * Z)) : Z :=
  match d with
  | [] => 0
  | (k', n) :: rest => if py_eq k' k then n else count_get k rest
  end.

Definition count_sum (d : list (value * Z)) : Z :=
  foldr (λ kn acc, kn.2 + acc) 0 d.

(** The two keys [get_annotation_stats] counts the records under. *)
Definition who_of (ann : pydict) : value :=
  let a := dget_or ann "annotated_by" (VStr "Unknown") in
  if py_truthy a then a else VStr "Unknown".

Definition technique_of (ann : pydict) : value :=
  dget_or ann "technique" (VStr "unknown").

(** Does the document say how many records it holds? *)
Definition count_recorded (d : ann_doc) : Prop :=
  doc_meta d !! "num_annotations"
  = Some (VInt (Z.of_nat (length (annotations_of d)))).

(** What a record written by [add_annotation] for [video_stem] says of
    itself. *)
Definition consistent_record (video_stem : string) (a : pydict) : Prop :=
  dget a "video_path" = VStr (video_stem +:+ ".mp4")
  ∧ dget a "technique_id" = VInt (technique_id_of (dget a "technique"))
  ∧ (dget a "annotator" = VStr "manual" ∨ dget a "annotator" = VStr "verified")
  ∧ dget a "confidence" = VFloat 1
  ∧ is_Some (a !! "annotation_id").

(** What the writes keep true of a store: no video has two records under
    one identity key, and every file says how many records it holds. *)
Definition well_kept (st : store) : Prop :=
  ∀ video,
    one_per_key (stored_annotations st video)
    ∧ ∀ d, ann_files st !! video = Some d →
           count_recorded d ∧ is_Some (doc_annotations d).

End Repo.

(** ** The JSON text of the match file *)

(** What [json.dump(obj, f, indent=2, ensure_ascii=False)] writes and what
    [json.load] reads back, for documents made of objects, arrays, strings,
    integers, booleans and null.  Strings stand for their UTF-8 bytes.  A
    number with a fraction or an exponent, and the literals NaN and Infinity,
    are outside the model: reading one yields [None], as a malformed text
    does. *)
Module Json.

#[local] Unset Elimination Schemes.
Inductive json : Type :=
  | JNull
  | JBool (b : bool)
  | JInt (z : Z)
  | JStr (s : string)
  | JArr (items : list json)
  | JObj (members : list (string * json)).
#[local] Set Elimination Schemes.

Abbreviation text := (list ascii).

Definition chars (s : string) : text := list_ascii_of_string s.

Definition quote_char : ascii := "034".
Definition backslash_char : ascii := "092".
Definition newline_char : ascii := "010".

(** *** Writing *)

Definition hex_char (n : N) : ascii :=
  match n with
  | 0 => "0" | 1 => "1" | 2 => "2" | 3 => "3" | 4 => "4" | 5 => "5"
  | 6 => "6" | 7 => "7" | 8 => "8" | 9 => "9" | 10 => "a" | 11 => "b"
  | 12 => "c" | 13 => "d" | 14 => "e" | _ => "f"
  end%char%N.

(** The replacement of one character inside a string literal: the quote, the
    backslash and the control characters are escaped, everything else is
    written as it is. *)
Definition escape_char (c : ascii) : text :=
  if Ascii.eqb c quote_char then [backslash_char; quote_char]
  else if Ascii.eqb c backslash_char then [backslash_char; backslash_char]
  else if Ascii.eqb c "010" then [backslash_char; "n"%char]
  else if Ascii.eqb c "013" then [backslash_char; "r"%char]
  else if Ascii.eqb c "009" then [backslash_char; "t"%char]
  else if Ascii.eqb c "008" then [backslash_char; "b"%char]
  else if Ascii.eqb c "012" then [backslash_char; "f"%char]
  else if (N_of_ascii c <? 32)%N then
    [backslash_char; "u"; "0"; "0";
     hex_char (N_of_ascii c / 16); hex_char (N_of_ascii c mod 16)]%char
  else [c].

Definition dump_string (s : string) : text :=
  quote_char :: flat_map escape_char (chars s) ++ [quote_char].

Definition newline_indent (lvl : nat) : text :=
  newline_char :: repeat " "%char (2 * lvl).

(** One member of an object, [d] writing its value. *)
Definition dump_member (d : json → text) (kv : string * json) : text :=
  dump_string kv.1 ++ chars ": " ++ d kv.2.

Fixpoint dump (lvl : nat) (j : json) : text :=
  match j with
  | JNull => chars "null"
  | JBool true => chars "true"
  | JBool false => chars "false"
  | JInt z => chars (pretty z)
  | JStr s => dump_string s
  | JArr [] => chars "[]"
  | JArr (x :: xs) =>
      "["%char :: newline_indent (S lvl) ++ dump (S lvl) x
      ++ flat_map (λ y, ","%char :: newline_indent (S lvl) ++ dump (S lvl) y) xs
      ++ newline_indent lvl ++ ["]"%char]
  | JObj [] => chars "{}"
  | JObj (kv :: kvs) =>
      "{"%char :: newline_indent (S lvl) ++ dump_member (dump (S lvl)) kv
      ++ flat_map (λ kv', ","%char :: newline_indent (S lvl)
                          ++ dump_member (dump (S lvl)) kv') kvs
      ++ newline_indent lvl ++ ["}"%char]
  end.

(** The number of nodes of a document; the reader never needs to nest
    deeper. *)
Definition nodes {A : Type} (f : A → nat) (l : list A) : nat :=
  list_sum ((λ x, S (f x)) <$> l).

Fixpoint size (j : json) : nat :=
  match j with
  | JArr items => S (nodes size items)
  | JObj members => S (nodes (λ kv, size kv.2) members)
  | _ => 1
  end.

Definition dumps (j : json) : text := dump 0 j.

(** What the reader's [dict] keeps of the members of an object: a key stays
    where it came first and holds the value that came last. *)
Fixpoint set_member (k : string) (v : json) (kvs : list (string * json))
    : list (string * json) :=
  match kvs with
  | [] => [(k, v)]
  | (k', v') :: rest =>
      if bool_decide (k' = k) then (k', v) :: rest
      else (k', v') :: set_member k v rest
  end.

Fixpoint as_dict (j : json) : json :=
  match j with
  | JArr items => JArr (map as_dict items)
  | JObj members =>
      JObj ((fix build (acc members : list (string * json)) :=
               match members with
               | [] => acc
               | (k, v) :: rest => build (set_member k (as_dict v) acc) rest
               end) [] members)
  | _ => j
  end.

(** [bool(j)] of a document that was read. *)
Definition json_truthy (j : json) : bool :=
  match j with
  | JNull => false
  | JBool b => b
  | JInt z => negb (z =? 0)
  | JStr s => negb (bool_decide (s = ""))
  | JArr items => negb (bool_decide (items = []))
  | JObj members => negb (bool_decide (members = []))
  end.

(** *** Reading *)

Definition is_ws (c : ascii) : bool :=
  Ascii.eqb c " " || Ascii.eqb c "009" || Ascii.eqb c "010" || Ascii.eqb c "013".

Fixpoint skip_ws (s : text) : text :=
  match s with
  | c :: r => if is_ws c then skip_ws r else s
  | [] => []
  end.

Definition is_digit (c : ascii) : bool :=
  (48 <=? N_of_ascii c)%N && (N_of_ascii c <=? 57)%N.

Fixpoint parse_digits (acc : N) (s : text) : N * text :=
  match s with
  | c :: r =>
      if is_digit c then parse_digits (10 * acc + (N_of_ascii c - 48))%N r
      else (acc, s)
  | [] => (acc, [])
  end.

(** The integer part of a number: a lone [0], or a digit other than [0]
    followed by digits. *)
Definition parse_nat (s : text) : option (N * text) :=
  match s with
  | c :: r =>
      if Ascii.eqb c "0" then Some (0%N, r)
      else if is_digit c then Some (parse_digits 0 s)
      else None
  | [] => None
  end.

(** Does a fraction or an exponent follow? *)
Definition float_follows (s : text) : bool :=
  match s with
  | c :: _ => Ascii.eqb c "." || Ascii.eqb c "e" || Ascii.eqb c "E"
  | [] => false
  end.

(** What ends a number: the end of the text, or a character that is neither
    a digit nor the start of a fraction or an exponent. *)
Definition number_end (s : text) : bool :=
  match s with
  | c :: _ => negb (is_digit c) && negb (float_follows s)
  | [] => true
  end.

Definition parse_number (s : text) : option (Z * text) :=
  '(z, r) ← match s with
            | c :: r =>
                if Ascii.eqb c "-"
                then '(n, r') ← parse_nat r; Some (- Z.of_N n, r')
                else '(n, r') ← parse_nat s; Some (Z.of_N n, r')
            | [] => None
            end;
  if float_follows r then None else Some (z, r).

Definition hex_value (c : ascii) : option N :=
  let n := N_of_ascii c in
  if is_digit c then Some (n - 48)%N
  else if (97 <=? n)%N && (n <=? 102)%N then Some (n - 87)%N
  else if (65 <=? n)%N && (n <=? 70)%N then Some (n - 55)%N
  else None.

(** The UTF-8 bytes of a code point of the basic plane; a surrogate has
    none. *)
Definition utf8_bytes (cp : N) : option text :=
  if (cp <? 128)%N then Some [ascii_of_N cp]
  else if (cp <? 2048)%N then
    Some [ascii_of_N (192 + cp / 64); ascii_of_N (128 + cp mod 64)]
  else if (55296 <=? cp)%N && (cp <=? 57343)%N then None
  else
    Some [ascii_of_N (224 + cp / 4096); ascii_of_N (128 + (cp / 64) mod 64);
          ascii_of_N (128 + cp mod 64)].

(** The character a one-letter escape stands for. *)
Definition simple_escape (e : ascii) : option ascii :=
  if Ascii.eqb e quote_char then Some quote_char
  else if Ascii.eqb e backslash_char then Some backslash_char
  else if Ascii.eqb e "/" then Some "/"%char
  else if Ascii.eqb e "b" then Some "008"%char
  else if Ascii.eqb e "f" then Some "012"%char
  else if Ascii.eqb e "n" then Some "010"%char
  else if Ascii.eqb e "r" then Some "013"%char
  else if Ascii.eqb e "t" then Some "009"%char
  else None.

Definition prepend (bs : text) (r : option (text * text)) : option (text * text) :=
  '(s, rest) ← r; Some (bs ++ s, rest).

(** The body of a string literal, after its opening quote: the bytes of the
    string and the text after the closing quote. *)
Fixpoint parse_string (s : text) : option (text * text) :=
  match s with
  | [] => None
  | c :: r =>
      if Ascii.eqb c quote_char then Some ([], r)
      else if Ascii.eqb c backslash_char then
        match r with
        | [] => None
        | e :: r1 =>
            match simple_escape e with
            | Some b => prepend [b] (parse_string r1)
            | None =>
                if Ascii.eqb e "u" then
                  match r1 with
                  | h1 :: h2 :: h3 :: h4 :: r2 =>
                      match hex_value h1, hex_value h2, hex_value h3, hex_value h4 with
                      | Some a, Some b, Some c', Some d =>
                          match utf8_bytes (((a * 16 + b) * 16 + c') * 16 + d)%N with
                          | Some bs => prepend bs (parse_string r2)
                          | None => None
                          end
                      | _, _, _, _ => None
                      end
                  | _ => None
                  end
                else None
            end
        end
      else if (N_of_ascii c <? 32)%N then None
      else prepend [c] (parse_string r)
  end.

(** Removes a literal from the front of the text. *)
Fixpoint strip (lit s : text) : option text :=
  match lit, s with
  | [], _ => Some s
  | a :: lit', b :: s' => if Ascii.eqb a b then strip lit' s' else None
  | _ :: _, [] => None
  end.

Fixpoint parse_value (fuel : nat) (s : text) {struct fuel} : option (json * text) :=
  match fuel with
  | O => None
  | S fuel =>
      match s with
      | [] => None
      | c :: r =>
          if Ascii.eqb c quote_char then
            '(bs, r') ← parse_string r; Some (JStr (string_of_list_ascii bs), r')
          else if Ascii.eqb c "{" then
            match skip_ws r with
            | c' :: r' =>
                if Ascii.eqb c' "}" then Some (JObj [], r')
                else '(kvs, r'') ← parse_members fuel (c' :: r'); Some (JObj kvs, r'')
            | [] => None
            end
          else if Ascii.eqb c "[" then
            match skip_ws r with
            | c' :: r' =>
                if Ascii.eqb c' "]" then Some (JArr [], r')
                else '(vs, r'') ← parse_items fuel (c' :: r'); Some (JArr vs, r'')
            | [] => None
            end
          else if Ascii.eqb c "n" then r' ← strip (chars "ull") r; Some (JNull, r')
          else if Ascii.eqb c "t" then r' ← strip (chars "rue") r; Some (JBool true, r')
          else if Ascii.eqb c "f" then r' ← strip (chars "alse") r; Some (JBool false, r')
          else '(z, r') ← parse_number s; Some (JInt z, r')
      end
  end
with parse_items (fuel : nat) (s : text) {struct fuel} : option (list json * text) :=
  match fuel with
  | O => None
  | S fuel =>
      '(v, r) ← parse_value fuel s;
      match skip_ws r with
      | c :: r' =>
          if Ascii.eqb c "," then
            '(vs, r'') ← parse_items fuel (skip_ws r'); Some (v :: vs, r'')
          else if Ascii.eqb c "]" then Some ([v], r')
          else None
      | [] => None
      end
  end
with parse_members (fuel : nat) (s : text) {struct fuel}
    : option (list (string * json) * text) :=
  match fuel with
  | O => None
  | S fuel =>
      match s with
      | c :: r =>
          if Ascii.eqb c quote_char then
            '(kb, r1) ← parse_string r;
            match skip_ws r1 with
            | c1 :: r2 =>
                if Ascii.eqb c1 ":" then
                  '(v, r3) ← parse_value fuel (skip_ws r2);
                  match skip_ws r3 with
                  | c3 :: r4 =>
                      if Ascii.eqb c3 "," then
                        '(kvs, r5) ← parse_members fuel (skip_ws r4);
                        Some ((string_of_list_ascii kb, v) :: kvs, r5)
                      else if Ascii.eqb c3 "}" then
                        Some ([(string_of_list_ascii kb, v)], r4)
                      else None
                  | [] => None
                  end
                else None
            | [] => None
            end
          else None
      | [] => None
      end
  end.

(** [json.loads]: one value, with nothing but white space around it.  The
    members of an object are returned in the order of the text, repeated keys
    included; which of them a dictionary keeps is decided where the dictionary
    is built. *)
Definition loads (s : text) : option json :=
  '(j, r) ← parse_value (S (length s)) (skip_ws s);
  match skip_ws r with
  | [] => Some j
  | _ :: _ => None
  end.

End Json.

(** ** Match grouping registry ([data_manager.py]) *)

Module Registry.
Import Json.

(** One entry of a group's [videos] array and one group.  A key may be
    missing from a document that this code did not write, which is what the
    [.get] defaults and the [KeyError]s of the source are about. *)
Record video : Type := Video {
  video_stem : option string;
  part : option Z
}.

Record group : Type := Group {
  red_name : option string;
  blue_name : option string;
  videos : option (list video)
}.

(** The dictionary of the groups, in insertion order. *)
Abbreviation matches := (list (string * group)).

(** [m.get(name)] and [m[name] = g] on a dictionary in insertion order. *)
Fixpoint lookup (name : string) (m : matches) : option group :=
  match m with
  | [] => None
  | (k, g) :: rest => if bool_decide (k = name) then Some g else lookup name rest
  end.

Fixpoint assign (name : string) (g : group) (m : matches) : matches :=
  match m with
  | [] => [(name, g)]
  | (k, g') :: rest =>
      if bool_decide (k = name) then (k, g) :: rest else (k, g') :: assign name g rest
  end.

(** What a call can raise. *)
Inductive exn : Type :=
  | KeyError (key : string)
  | BadDocument.

Inductive result (A : Type) : Type :=
  | Ok (a : A)
  | Raise (e : exn).
Arguments Ok {A} a.
Arguments Raise {A} e.

Definition bind {A B : Type} (r : result A) (f : A → result B) : result B :=
  match r with
  | Ok a => f a
  | Raise e => Raise e
  end.

Notation "x ←! r ; k" := (bind r (λ x, k))
  (at level 20, r at level 100, k at level 200, right associativity,
   format "x  ←!  r ; '/' k").

(** *** The document as JSON *)

Definition field {A : Type} (k : string) (f : A → json) (o : option A)
    : list (string * json) :=
  match o with
  | Some a => [(k, f a)]
  | None => []
  end.

Definition encode_video (v : video) : json :=
  JObj (field "video_stem" JStr (video_stem v) ++ field "part" JInt (part v)).

Definition encode_group (g : group) : json :=
  JObj (field "red_name" JStr (red_name g)
        ++ field "blue_name" JStr (blue_name g)
        ++ field "videos" (λ vs, JArr (encode_video <$> vs)) (videos g)).

Definition encode_matches (m : matches) : json :=
  JObj ((λ kg, (kg.1, encode_group kg.2)) <$> m).

(** The value a dictionary built from these members holds under [k]: the
    last one. *)
Fixpoint lookup_last (k : string) (kvs : list (string * json)) : option json :=
  match kvs with
  | [] => None
  | (k', v) :: rest =>
      match lookup_last k rest with
      | Some v' => Some v'
      | None => if bool_decide (k' = k) then Some v else None
      end
  end.

Definition known_keys (ks : list string) (kvs : list (string * json)) : bool :=
  forallb (λ kv, bool_decide (kv.1 ∈ ks)) kvs.

Definition opt_str (k : string) (kvs : list (string * json)) : option (option string) :=
  match lookup_last k kvs with
  | None => Some None
  | Some (JStr s) => Some (Some s)
  | Some _ => None
  end.

Definition opt_int (k : string) (kvs : list (string * json)) : option (option Z) :=
  match lookup_last k kvs with
  | None => Some None
  | Some (JInt z) => Some (Some z)
  | Some _ => None
  end.

(** A document is read as a group collection when it has that shape; any
    other document is outside the model. *)
Definition decode_video (j : json) : option video :=
  match j with
  | JObj kvs =>
      if known_keys ["video_stem"; "part"] kvs then
        s ← opt_str "video_stem" kvs; p ← opt_int "part" kvs; Some (Video s p)
      else None
  | _ => None
  end.

Definition decode_group (j : json) : option group :=
  match j with
  | JObj kvs =>
      if known_keys ["red_name"; "blue_name"; "videos"] kvs then
        r ← opt_str "red_name" kvs;
        b ← opt_str "blue_name" kvs;
        vs ← match lookup_last "videos" kvs with
             | None => Some None
             | Some (JArr items) => Some <$> mapM decode_video items
             | Some _ => None
             end;
        Some (Group r b vs)
      else None
  | _ => None
  end.

Definition decode_matches (j : json) : option matches :=
  match j with
  | JObj kvs =>
      foldl (λ acc kv, m ← acc; g ← decode_group kv.2; Some (assign kv.1 g m))
            (Some []) kvs
  | _ => None
  end.

(** *** The file and the operations *)

(** The content of [_matches.json]; [None] when the file does not exist. *)
Abbreviation store := (option text).

Definition empty_store : store := None.

(** [load_matches()]. *)
Definition load_matches (st : store) : result matches :=
  match st with
  | None => Ok []
  | Some t =>
      match Json.loads t ≫= decode_matches with
      | Some m => Ok m
      | None => Raise BadDocument
      end
  end.

(** [save_matches(matches)]. *)
Definition save_matches (m : matches) (st : store) : store :=
  Some (Json.dumps (encode_matches m)).

(** The sort key [v.get("part", 1)]. *)
Definition part_key (v : video) : Z := default 1 (part v).

(** [videos.sort(key=...)]: the sort is stable, entries with equal keys keep
    their order; inserting from the right, each entry in front of the first
    one that is not smaller, computes that arrangement. *)
Fixpoint insert_by_part (v : video) (l : list video) : list video :=
  match l with
  | [] => [v]
  | w :: l' =>
      if part_key v <=? part_key w then v :: l else w :: insert_by_part v l'
  end.

Definition sort_by_part (l : list video) : list video :=
  foldr insert_by_part [] l.

(** The loop over [videos]: the first entry whose stem is [stem] gets the
    part, and [found] tells whether there was one.  An entry without a stem
    met on the way raises. *)
Fixpoint set_part (stem : string) (p : Z) (vs : list video)
    : result (bool * list video) :=
  match vs with
  | [] => Ok (false, [])
  | v :: rest =>
      match video_stem v with
      | None => Raise (KeyError "video_stem")
      | Some s =>
          if bool_decide (s = stem) then Ok (true, Video (Some s) (Some p) :: rest)
          else fr ←! set_part stem p rest; Ok (fr.1, v :: fr.2)
      end
  end.

(** The body of [save_match_group] between the load and the save. *)
Definition upsert_group (m : matches) (name stem : string) (p : Z)
    (red blue : string) : result matches :=
  let m :=
    match lookup name m with
    | None => assign name (Group (Some red) (Some blue) (Some [])) m
    | Some _ => m
    end in
  let g := default (Group None None None) (lookup name m) in
  let g := if bool_decide (red = "") then g
           else Group (Some red) (blue_name g) (videos g) in
  let g := if bool_decide (blue = "") then g
           else Group (red_name g) (Some blue) (videos g) in
  vs ←! match videos g with
        | Some vs => Ok vs
        | None => Raise (KeyError "videos")
        end;
  fr ←! set_part stem p vs;
  let vs := if fr.1 then fr.2 else fr.2 ++ [Video (Some stem) (Some p)] in
  Ok (assign name (Group (red_name g) (blue_name g) (Some (sort_by_part vs))) m).

(** [save_match_group(match_name, video_stem, part, red_name, blue_name)]:
    the store after the call, or what was raised, in which case nothing was
    written. *)
Definition save_match_group (st : store) (name stem : string) (p : Z)
    (red blue : string) : result store :=
  m ←! load_matches st;
  m' ←! upsert_group m name stem p red blue;
  Ok (save_matches m' st).

(** The store a call leaves behind. *)
Definition store_after (st : store) (r : result store) : store :=
  match r with
  | Ok st' => st'
  | Raise _ => st
  end.

(** What [get_match_for_video] returns for the group it finds. *)
Record match_info : Type := MatchInfo {
  info_match_name : string;
  info_video_part : Z;
  info_red_name : string;
  info_blue_name : string;
  info_videos : list video
}.

Fixpoint find_group (stem : string) (m : matches) : option match_info :=
  match m with
  | [] => None
  | (name, mdata) :: rest =>
      match List.find (λ v, bool_decide (video_stem v = Some stem))
                      (default [] (videos mdata)) with
      | Some vinfo =>
          Some (MatchInfo name (default 1 (part vinfo))
                          (default "" (red_name mdata))
                          (default "" (blue_name mdata))
                          (default [] (videos mdata)))
      | None => find_group stem rest
      end
  end.

(** [get_match_for_video(video_stem)]. *)
Definition get_match_for_video (st : store) (stem : string)
    : result (option match_info) :=
  m ←! load_matches st; Ok (find_group stem m).

(** One call of [save_match_group] and a sequence of them. *)
Record call : Type := Call {
  call_match : string;
  call_video : string;
  call_part : Z;
  call_red : string;
  call_blue : string
}.

Definition do_call (st : store) (c : call) : result store :=
  save_match_group st (call_match c) (call_video c) (call_part c)
                   (call_red c) (call_blue c).

Fixpoint run (cs : list call) (st : store) : result store :=
  match cs with
  | [] => Ok st
  | c :: cs' => st' ←! do_call st c; run cs' st'
  end.

(** Is [stem] an entry of the group [name]? *)
Definition in_group (m : matches) (name stem : string) : Prop :=
  ∃ g vs v, lookup name m = Some g ∧ videos g = Some vs
            ∧ v ∈ vs ∧ video_stem v = Some stem.

(** Was [stem] saved under the group [name] by one of the calls? *)
Definition saved_under (cs : list call) (name stem : string) : Prop :=
  ∃ c, c ∈ cs ∧ call_match c = name ∧ call_video c = stem.

(** No video is an entry of two groups. *)
Definition one_group_per_video (m : matches) : Prop :=
  ∀ stem name1 name2,
    in_group m name1 stem → in_group m name2 stem → name1 = name2.

(** The order of the sort. *)
Definition part_le (v w : video) : Prop := part_key v ≤ part_key w.

(** The groups this code writes: every key present, the videos in the order
    of their parts, no stem twice. *)
Definition written_video (v : video) : Prop :=
  is_Some (video_stem v) ∧ is_Some (part v).

Definition written_group (g : group) : Prop :=
  is_Some (red_name g) ∧ is_Some (blue_name g)
  ∧ ∃ vs, videos g = Some vs
          ∧ Forall written_video vs
          ∧ Sorted part_le vs
          ∧ NoDup (video_stem <$> vs).

Definition written (m : matches) : Prop :=
  NoDup m.*1 ∧ Forall (λ kg, written_group kg.2) m.

(** The match-group download of [page_progress]: the text offered, when the
    collection that was read is not empty. *)
Definition download_matches (st : store) : result (option text) :=
  match st with
  | None => Ok None
  | Some t =>
      match Json.loads t with
      | Some j =>
          Ok (if json_truthy j then Some (Json.dumps (as_dict j)) else None)
      | None => Raise BadDocument
      end
  end.

(** The match-group upload of [page_select]: what was read is saved; when the
    reading fails the error is shown and nothing is written. *)
Definition upload_matches (t : text) (st : store) : store :=
  match Json.loads t with
  | Some j => Some (Json.dumps (as_dict j))
  | None => st
  end.

(** Is [v] an entry of the group [name]? *)
Definition entry (m : matches) (name : string) (v : video) : Prop :=
  ∃ g vs, lookup name m = Some g ∧ videos g = Some vs ∧ v ∈ vs.

(** The part given by the last of the calls that saved [stem] under
    [name]. *)
Fixpoint last_part (cs : list call) (name stem : string) : option Z :=
  match cs with
  | [] => None
  | c :: cs' =>
      match last_part cs' name stem with
      | Some p => Some p
      | None =>
          if bool_decide (call_match c = name ∧ call_video c = stem)
          then Some (call_part c) else None
      end
  end.

(** The order of [sorted] on names. *)
Definition name_le (a b : string) : Prop := String.leb a b = true.

(** [sorted(names)]: strings in the order of their code points, which the
    bytes of their UTF-8 forms keep. *)
Fixpoint insert_name (s : string) (l : list string) : list string :=
  match l with
  | [] => [s]
  | t :: l' => if String.leb s t then s :: l else t :: insert_name s l'
  end.

Definition sorted_names (l : list string) : list string :=
  foldr insert_name [] l.

(** [list_match_names()]. *)
Definition list_match_names (st : store) : result (list string) :=
  m ←! load_matches st; Ok (sorted_names m.*1).

End Registry.

(** ** The annotation page ([app.py]) *)

Module App.
Import Repo.

(** [bool(existing)] for what [get_annotation_for_event] returns. *)
Definition truthy_dict (o : option pydict) : bool :=
  match o with
  | Some d => negb (bool_decide (d = ∅))
  | None => false
  end.

(** The loop of [_find_next_unannotated]: the index of the first event
    without a stored annotation, counting from [i]. *)
Fixpoint first_unannotated (w : world) (st : store) (video_stem : string)
    (events : list pydict) (i : nat) : Registry.result (option nat) :=
  match events with
  | [] => Registry.Ok None
  | evt :: rest =>
      match evt !! "start_frame" with
      | None => Registry.Raise (Registry.KeyError "start_frame")
      | Some start_frame =>
          match evt !! "end_frame" with
          | None => Registry.Raise (Registry.KeyError "end_frame")
          | Some end_frame =>
              let existing :=
                get_annotation_for_event w st video_stem start_frame end_frame
                  (dget_or evt "fighter_color" (VStr "unknown")) in
              if negb (truthy_dict existing) then Registry.Ok (Some i)
              else first_unannotated w st video_stem rest (S i)
          end
      end
  end.

(** [_find_next_unannotated(video_stem, events)]. *)
Definition _find_next_unannotated (w : world) (st : store) (video_stem : string)
    (events : list pydict) : Registry.result nat :=
  Registry.bind (first_unannotated w st video_stem events 0)
                (λ r, Registry.Ok (default 0%nat r)).

(** What the loop tests for one event. *)
Definition event_done (w : world) (st : store) (video_stem : string)
    (evt : pydict) : bool :=
  truthy_dict
    (get_annotation_for_event w st video_stem (dget evt "start_frame")
       (dget evt "end_frame") (dget_or evt "fighter_color" (VStr "unknown"))).

(** The events whose two subscripts do not raise. *)
Definition has_frames (evt : pydict) : Prop :=
  is_Some (evt !! "start_frame") ∧ is_Some (evt !! "end_frame").

(** *** [page_annotate]: which events are done *)

Abbreviation key := (value * value * value)%type.

(** [a == b] on two key tuples. *)
Definition key_eq (a b : key) : bool :=
  py_eq a.1.1 b.1.1 && py_eq a.1.2 b.1.2 && py_eq a.2 b.2.

(** [key in keys] and [keys.add(key)] on a set of tuples, kept in the order
    of insertion. *)
Definition key_in (k : key) (keys : list key) : bool :=
  existsb (λ k', key_eq k' k) keys.

Definition key_add (k : key) (keys : list key) : list key :=
  if key_in k keys then keys else keys ++ [k].

(** [_ann_keys], built from the annotations of the video. *)
Definition _ann_keys (annotations : list pydict) : list key :=
  foldl (λ keys ann,
           key_add (dget ann "start_frame", dget ann "end_frame",
                    dget ann "fighter_color") keys)
        [] annotations.

(** [_is_annotated(evt)]. *)
Definition _is_annotated (keys : list key) (evt : pydict) : bool :=
  key_in (dget evt "start_frame", dget evt "end_frame",
          dget_or evt "fighter_color" (VStr "unknown")) keys.

(** [n_done], and [pct] in tenths. *)
Definition n_done (keys : list key) (events : list pydict) : nat :=
  length (List.filter (_is_annotated keys) events).

Definition pct_tenths (keys : list key) (events : list pydict) : Z :=
  round_half_even (Z.of_nat (n_done keys events) * 100 * 10)
                  (Z.max 1 (Z.of_nat (length events))).

(** [[i for i, e in enumerate(events) if p(e)]], counting from [i]. *)
Fixpoint indices_where (p : pydict → bool) (events : list pydict) (i : Z)
    : list Z :=
  match events with
  | [] => []
  | e :: rest =>
      if p e then i :: indices_where p rest (i + 1)
      else indices_where p rest (i + 1)
  end.

(** [filtered_indices] for the chosen filter. *)
Definition filtered_indices (filt : option string) (keys : list key)
    (events : list pydict) : list Z :=
  match filt with
  | Some f =>
      if negb (bool_decide (f = "")) && str_prefix "To Do" f then
        indices_where (λ e, negb (_is_annotated keys e)) events 0
      else if negb (bool_decide (f = "")) && str_prefix "Done" f then
        indices_where (_is_annotated keys) events 0
      else indices_where (λ _, true) events 0
  | None => indices_where (λ _, true) events 0
  end.

(** [min(l, key=...)] for a list with first element [best]: the first of the
    elements with the least key. *)
Fixpoint min_by (key : Z → Z) (best : Z) (l : list Z) : Z :=
  match l with
  | [] => best
  | x :: rest => min_by key (if key x <? key best then x else best) rest
  end.

(** The clamp of [idx] to the filtered set; [None] when the set is empty and
    the page stops. *)
Definition clamp_idx (filtered : list Z) (idx : Z) : option Z :=
  match filtered with
  | [] => None
  | x :: rest =>
      if bool_decide (idx ∈ filtered) then Some idx
      else Some (min_by (λ i, Z.abs (i - idx)) x rest)
  end.

(** *** [page_select]: the annotators *)

Definition _default_annotators : list value :=
  [VStr "Coach Mehdi"; VStr "Luke"; VStr "Analyst"].

(** [x in l] for a list. *)
Definition in_list (x : value) (l : list value) : bool :=
  existsb (λ y, py_eq y x) l.

(** [list(dict.fromkeys(l))]: the first of equal entries is kept. *)
Definition from_keys (l : list value) : list value :=
  foldl (λ acc x, if in_list x acc then acc else acc ++ [x]) [] l.

(** No two entries are equal. *)
Definition distinct (l : list value) : Prop :=
  ∀ i j x y, l !! i = Some x → l !! j = Some y → py_eq x y = true → i = j.

(** The file [annotators.json]: absent, or present but unusable (the parse or
    the concatenation raises), or a list of names. *)
Abbreviation annotators_file := (option (option (list value))).

(** [annotator_options] as [page_select] computes it. *)
Definition annotator_options (file : annotators_file) : list value :=
  match file with
  | Some (Some saved) => from_keys (_default_annotators ++ saved)
  | Some None | None => _default_annotators
  end.

(** The Add button, for a stripped, non-empty name: the options and the file
    afterwards. *)
Definition add_annotator (name : string) (options : list value)
    (file : annotators_file) : list value * annotators_file :=
  if negb (in_list (VStr name) options)
  then (options ++ [VStr name], Some (Some (options ++ [VStr name])))
  else (options, file).

(** *** [page_annotate]: confirming both fighters *)

(** What [_render_fighter_layers] returns for one fighter. *)
Record fighter_data : Type := FighterData {
  fd_fighter_color : string;
  fd_attitude : option string;
  fd_guard_stance : option string;
  fd_role : option string;
  fd_action_type : option string;
  fd_leg_used : option string;
  fd_technique : value;
  fd_target_zone : string;
  fd_scoring_value : option string;
  fd_penalty : option string;
  fd_notes : string
}.

Definition opt_value (o : option string) : value :=
  match o with
  | Some s => VStr s
  | None => VNone
  end.

Definition fd_dict (fd : fighter_data) : pydict :=
  list_to_map
    [ ("fighter_color", VStr (fd_fighter_color fd));
      ("attitude", opt_value (fd_attitude fd));
      ("guard_stance", opt_value (fd_guard_stance fd));
      ("role", opt_value (fd_role fd));
      ("action_type", opt_value (fd_action_type fd));
      ("leg_used", opt_value (fd_leg_used fd));
      ("technique", fd_technique fd);
      ("target_zone", VStr (fd_target_zone fd));
      ("scoring_value", opt_value (fd_scoring_value fd));
      ("penalty", opt_value (fd_penalty fd));
      ("notes", VStr (fd_notes fd)) ].

(** What the session state holds when the button is pressed: the scoreboard,
    the match context (with the defaults of their [.get]) and the
    annotator. *)
Record session : Type := Session {
  sb_red : value;
  sb_blue : value;
  sb_round : value;
  ss_match_name : value;
  ss_video_part : value;
  ss_annotator_name : string
}.

(** The [corrections] built for one fighter. *)
Definition corrections_of (fd : fighter_data) (ss : session) : pydict :=
  <["video_part" := ss_video_part ss]>
    (<["match_name" := ss_match_name ss]>
       (<["scoreboard_round" := sb_round ss]>
          (<["scoreboard_blue" := sb_blue ss]>
             (<["scoreboard_red" := sb_red ss]> (fd_dict fd))))).

(** The test of the loop of CONFIRM BOTH: was anything chosen for the
    fighter? *)
Definition selected (fd : fighter_data) : bool :=
  py_truthy (fd_technique fd) || py_truthy (opt_value (fd_role fd))
  || py_truthy (opt_value (fd_attitude fd)).

(** What a stored record says of the fighter it was confirmed for. *)
Definition confirmed_for (fd : fighter_data) (ss : session) (a : pydict) : Prop :=
  dget a "fighter_color" = VStr (fd_fighter_color fd)
  ∧ dget a "annotated_by" = VStr (ss_annotator_name ss)
  ∧ dget a "technique" = fd_technique fd
  ∧ dget a "role" = opt_value (fd_role fd)
  ∧ dget a "attitude" = opt_value (fd_attitude fd)
  ∧ dget a "scoreboard_red" = sb_red ss
  ∧ dget a "scoreboard_blue" = sb_blue ss
  ∧ dget a "match_name" = ss_match_name ss.

(** One round of the loop of CONFIRM BOTH. *)
Definition confirm_fighter `{PyRuntime} (w : world) (st : store)
    (video_stem : string) (event : pydict) (fd : fighter_data) (ss : session)
    : store :=
  if selected fd
  then
    (add_annotation w st video_stem
       (<["fighter_color" := VStr (fd_fighter_color fd)]> event)
       (corrections_of fd ss) (ss_annotator_name ss)).2
  else st.

(** CONFIRM BOTH: the red fighter, then the blue one. *)
Definition confirm_both `{PyRuntime} (w_red w_blue : world) (st : store)
    (video_stem : string) (event : pydict) (red_data blue_data : fighter_data)
    (ss : session) : store :=
  confirm_fighter w_blue
    (confirm_fighter w_red st video_stem event red_data ss)
    video_stem event blue_data ss.

(** The annotation download of [page_progress] names its file after the
    video; the upload of [page_select] derives the video from the name of
    the file and saves what it read. *)
Definition download_name (video_stem : string) : string :=
  video_stem +:+ "_annotations.json".

Definition restore_stem (file_name : string) : string :=
  str_replace ".json" "" (str_replace "_annotations.json" "" file_name).

Definition restore_annotations (st : store) (file_name : string)
    (ann_data : ann_doc) : store :=
  save_annotations st (restore_stem file_name) ann_data.

(** The X button of [page_annotate]: the event is recorded as a false
    positive for its own fighter, and the page moves on. *)
Definition dismiss `{PyRuntime} (w : world) (st : store) (video_stem : string)
    (event : pydict) (annotator : string) : store :=
  (add_annotation w st video_stem event
     (list_to_map
        [ ("technique", VStr "neutral_stance");
          ("fighter_color", dget_or event "fighter_color" (VStr "unknown"));
          ("notes", VStr "Dismissed as false positive") ])
     annotator).2.

(** [min(idx + 1, len(events) - 1)]. *)
Definition next_event_idx (idx : Z) (events : list pydict) : Z :=
  Z.min (idx + 1) (Z.of_nat (length events) - 1).

(** The keys the page builds from the store at its next render. *)
Definition page_keys (st : store) (video_stem : string) : list key :=
  _ann_keys (stored_annotations st video_stem).

End App.

(** ** A runtime to evaluate examples with *)

Definition ascii_lower (c : ascii) : ascii :=
  let n := N_of_ascii c in
  if (65 <=? n)%N && (n <=? 90)%N then ascii_of_N (n + 32) else c.

Fixpoint ascii_str_lower (s : string) : string :=
  match s with
  | EmptyString => EmptyString
  | String c rest => String (ascii_lower c) (ascii_str_lower rest)
  end.

(** Lower-casing of the ASCII letters, and the [repr] of a float that is a
    whole number (of the size Python prints without an exponent). *)
Definition example_runtime : PyRuntime :=
  {| float_repr := λ q, pretty (Qnum q / Z.pos (Qden q)) +:+ ".0";
     str_lower := ascii_str_lower |}.

(** A detected event, the corrections of the two fighters for it, and the
    store after both have been confirmed. *)
Definition example_event : pydict :=
  list_to_map [ ("start_frame", VInt 10); ("end_frame", VInt 20);
                ("fighter_color", VStr "red"); ("technique", VStr "ap_chagi");
                ("confidence", VFloat (Qmake 9 10)) ].

Definition example_red : pydict :=
  list_to_map [ ("fighter_color", VStr "red"); ("role", VStr "Attack") ].

Definition example_blue : pydict :=
  list_to_map [ ("fighter_color", VStr "blue"); ("role", VStr "Defence") ].

Definition example_world (n : nat) : Repo.world :=
  Repo.World ("2026-01-01T10:00:0" +:+ pretty n) ("2026-01-01T10:00:1" +:+ pretty n)
             ("0000000" +:+ pretty n).

Definition example_store_red : Repo.store :=
  (Repo.add_annotation (H := example_runtime) (example_world 1) Repo.empty_store
     "match01" example_event example_red "Luke").2.

Definition example_store_both : Repo.store :=
  (Repo.add_annotation (H := example_runtime) (example_world 2) example_store_red
     "match01" example_event example_blue "Luke").2.

(** Two parts of one match saved under one name, and one video saved under
    two names. *)
Definition example_calls : list Registry.call :=
  [ Registry.Call "Final" "final_p2" 2 "Kim" "";
    Registry.Call "Final" "final_p1" 1 "" "Lee" ].

Definition example_reassign : list Registry.call :=
  [ Registry.Call "Semi" "clip" 1 "Kim" "Lee";
    Registry.Call "Final" "clip" 1 "Kim" "Lee" ].

Definition example_matches : Registry.matches :=
  [ ("Final",
     Registry.Group (Some "Kim") (Some "Lee")
       (Some [ Registry.Video (Some "final_p1") (Some 1);
               Registry.Video (Some "final_p2") (Some 2) ]));
    ("Semi", Registry.Group None (Some "Park") None) ].

(** A second event, an event without frame numbers, what was chosen for the
    two fighters of the first event (nothing for the blue one), and the
    session of the annotator. *)
Definition example_event_2 : pydict :=
  list_to_map [ ("start_frame", VInt 30); ("end_frame", VInt 40);
                ("fighter_color", VStr "blue") ].

Definition example_event_bad : pydict :=
  list_to_map [ ("start_frame", VInt 50) ].

Definition example_red_data : App.fighter_data :=
  App.FighterData "red" (Some "Forward") None (Some "Attack") None None
                  (VStr "ap_chagi") "trunk" (Some "2") None "".

Definition example_blue_data : App.fighter_data :=
  App.FighterData "blue" None None None None None VNone "trunk" None None "".

Definition example_session : App.session :=
  App.Session (VInt 2) (VInt 0) (VStr "R1") (VStr "Final") (VInt 1) "Luke".

(** The bounds the specification gives for [get_annotation_stats]. *)
Definition stats_in_range (w : Repo.world) (st : Repo.store) (video : string)
    (N : Z) : Prop :=
  let s := Repo.get_annotation_stats w st video N in
  Repo.annotated s = length (Repo.stored_annotations st video)
  ∧ 0 ≤ Repo.remaining s
  ∧ Qle 0 (Repo.progress_pct s) ∧ Qle (Repo.progress_pct s) 100.

(** * Properties *)

(** ** Strings *)

(** [needle] occurs in [hay]. *)
Definition occurs_in (needle hay : string) : Prop :=
  ∃ before after, hay = before +:+ needle +:+ after.

Lemma append_cons c s t : String c s +:+ t = String c (s +:+ t).
Proof. reflexivity. Qed.

Lemma append_nil s : "" +:+ s = s.
Proof. reflexivity. Qed.

Lemma str_prefix_spec p s : str_prefix p s = true ↔ ∃ t, s = p +:+ t.
Proof.
  revert s. induction p as [|a p IH]; intros s; simpl.
  - split; [intros _; by exists s | done].
  - destruct s as [|b s].
    + split; [done | intros [t Ht]; discriminate].
    + rewrite andb_true_iff, bool_decide_eq_true, IH. split.
      * intros [-> [t ->]]. by exists t.
      * intros [t Ht]. rewrite append_cons in Ht. simplify_eq.
        split; [done | by exists t].
Qed.

Lemma str_contains_spec needle hay :
  str_contains needle hay = true ↔ occurs_in needle hay.
Proof.
  unfold occurs_in. induction hay as [|c hay IH]; simpl.
  - rewrite orb_false_r, str_prefix_spec. split.
    + intros [t Ht]. by exists EmptyString, t.
    + intros [[|? ?] [b Hb]]; [by exists b | discriminate].
  - rewrite orb_true_iff, str_prefix_spec, IH. split.
    + intros [[t Ht] | [a [b Hab]]].
      * by exists EmptyString, t.
      * exists (String c a), b. by rewrite append_cons, Hab.
    + intros [[|c' a] [b Hab]].
      * left. by exists b.
      * right. rewrite append_cons in Hab. simplify_eq. by exists a, b.
Qed.

Lemma str_contains_false needle hay :
  str_contains needle hay = false ↔ ¬ occurs_in needle hay.
Proof. rewrite <-str_contains_spec. by destruct (str_contains needle hay). Qed.

(** ** Inference rules *)

Section inference.
Import Inference.
Context `{PyRuntime}.

Lemma match_option_falsy v options :
  py_truthy v = false → _match_option v options = None.
Proof. intros Hv. unfold _match_option. by rewrite Hv. Qed.

Lemma role_mirror_cases role :
  role = "Attack" ∨ role = "Contre Attack" ∨ role = "Defence"
  ∨ ((role ∉ role_options) ∧ _ROLE_MIRROR role = None).
Proof.
  unfold _ROLE_MIRROR, role_options.
  destruct (decide (role = "Attack")) as [|n1]; [by left|].
  destruct (decide (role = "Contre Attack")) as [|n2]; [by right; left|].
  destruct (decide (role = "Defence")) as [|n3]; [by right; right; left|].
  do 3 right. rewrite !bool_decide_eq_false_2 by done. split; [|done].
  rewrite !elem_of_cons, elem_of_nil. by intros [?|[?|[?|[]]]].
Qed.

(** C5.  The role mirror has exactly the three rules Attack to Contre Attack,
    Contre Attack to Attack and Defence to Attack: a role outside the three
    gets no suggestion, no role is ever answered by Defence, and a reacting
    fighter with no stored role (absent, null or empty) facing an attacker is
    offered Contre Attack. *)
Theorem role_mirror_rules :
  _ROLE_MIRROR "Attack" = Some "Contre Attack"
  ∧ _ROLE_MIRROR "Contre Attack" = Some "Attack"
  ∧ _ROLE_MIRROR "Defence" = Some "Attack"
  ∧ (∀ role, _ROLE_MIRROR role = None ↔ role ∉ role_options)
  ∧ (∀ role, _ROLE_MIRROR role ≠ Some "Defence")
  ∧ (∀ src, py_truthy (dget src "role") = false →
       role_default src false (Some "Attack") = Some "Contre Attack"
       ∧ role_default src false (Some "Defence") = Some "Attack"
       ∧ ∀ other, role_default src false (Some other) ≠ Some "Defence").
Proof.
  split_and!; try reflexivity.
  - intros role. destruct (role_mirror_cases role) as [->|[->|[->|[Hn Hr]]]].
    + split; [done|]. intros Hn. exfalso. apply Hn. set_solver.
    + split; [done|]. intros Hn. exfalso. apply Hn. set_solver.
    + split; [done|]. intros Hn. exfalso. apply Hn. set_solver.
    + by rewrite Hr.
  - intros role. destruct (role_mirror_cases role) as [->|[->|[->|[_ Hr]]]];
      [done..|by rewrite Hr].
  - intros src Hsrc.
    assert (Hd : ∀ o, role_default src false (Some o)
                      = if bool_decide (o = "") then None else _ROLE_MIRROR o).
    { intros o. unfold role_default. rewrite (match_option_falsy _ _ Hsrc).
      simpl. by case_bool_decide. }
    split_and!; [by rewrite Hd..|].
    intros other. rewrite Hd. case_bool_decide; [done|].
    destruct (role_mirror_cases other) as [->|[->|[->|[_ Hr]]]];
      [done..|by rewrite Hr].
Qed.

(** C6.  The penalty score is 2 when the penalty text carries [(-2)] or
    [(+2)], otherwise 1 when it carries [(-1)] or [(+1)], and 0 when it
    carries no marker, is ["None"] or is absent; with no stored scoring value,
    the opponent's penalty ["Fall 10 sec (-2)"] makes ["2"] the default. *)
Theorem penalty_pts_spec :
  (∀ s, occurs_in "(-2)" s ∨ occurs_in "(+2)" s → _penalty_pts (Some s) = 2)
  ∧ (∀ s, ¬ occurs_in "(-2)" s → ¬ occurs_in "(+2)" s →
          occurs_in "(-1)" s ∨ occurs_in "(+1)" s → _penalty_pts (Some s) = 1)
  ∧ (∀ s, ¬ occurs_in "(-2)" s → ¬ occurs_in "(+2)" s →
          ¬ occurs_in "(-1)" s → ¬ occurs_in "(+1)" s → _penalty_pts (Some s) = 0)
  ∧ _penalty_pts (Some "None") = 0
  ∧ _penalty_pts None = 0
  ∧ _penalty_pts (Some "Fall 10 sec (-2)") = 2
  ∧ (∀ src, py_truthy (dget src "scoring_value") = false →
       value_default src (Some "Fall 10 sec (-2)") = Some "2").
Proof.
  assert (Hguard : ∀ s, (bool_decide (s = "") || bool_decide (s = "None")) = true →
            str_contains "(-2)" s = false ∧ str_contains "(+2)" s = false
            ∧ str_contains "(-1)" s = false ∧ str_contains "(+1)" s = false).
  { intros s. rewrite orb_true_iff, !bool_decide_eq_true. by intros [->| ->]. }
  split_and!; try reflexivity.
  - intros s Hs. unfold _penalty_pts.
    rewrite <-!str_contains_spec, <-orb_true_iff in Hs.
    destruct (bool_decide (s = "") || bool_decide (s = "None")) eqn:Hg.
    + destruct (Hguard s Hg) as (H1 & H2 & _). by rewrite H1, H2 in Hs.
    + by rewrite Hs.
  - intros s H2m H2p Hs. unfold _penalty_pts.
    rewrite <-str_contains_false in H2m, H2p.
    rewrite <-!str_contains_spec, <-orb_true_iff in Hs.
    destruct (bool_decide (s = "") || bool_decide (s = "None")) eqn:Hg.
    + destruct (Hguard s Hg) as (_ & _ & H1 & H2). by rewrite H1, H2 in Hs.
    + by rewrite H2m, H2p, Hs.
  - intros s H2m H2p H1m H1p. unfold _penalty_pts.
    rewrite <-str_contains_false in H2m, H2p, H1m, H1p.
    rewrite H2m, H2p, H1m, H1p. by destruct (_ || _).
  - intros src Hsrc. unfold value_default.
    by rewrite (match_option_falsy _ _ Hsrc).
Qed.

End inference.

Lemma role_mirror_rules_witness :
  Inference.role_default (H := example_runtime) ∅ false (Some "Attack")
  = Some "Contre Attack".
Proof.
  apply (proj2 (proj2 (proj2 (proj2 (proj2
          (role_mirror_rules (H := example_runtime))))))).
  by vm_compute.
Defined.

Lemma penalty_pts_spec_witness :
  Inference._penalty_pts (Some "Out 10 sec (-2)") = 2.
Proof.
  apply (proj1 (penalty_pts_spec (H := example_runtime))). left.
  by exists "Out 10 sec ", "".
Defined.

(** ** Annotation repository *)

Section repo.
Import Repo.
Context `{PyRuntime}.

Lemma py_eq_refl v : py_eq v v = true.
Proof.
  destruct v as [|b|z|q|s]; simpl; try done.
  - apply Qeq_bool_iff, Qeq_refl.
  - apply Qeq_bool_iff, Qeq_refl.
  - apply Qeq_bool_iff, Qeq_refl.
  - by apply bool_decide_eq_true.
Qed.

Lemma py_eq_true a b :
  py_eq a b = true ↔
  (a = VNone ∧ b = VNone) ∨ (∃ s, a = VStr s ∧ b = VStr s)
  ∨ (∃ p q, num_of a = Some p ∧ num_of b = Some q ∧ Qeq p q).
Proof.
  split.
  - destruct a as [|x|x|x|x], b as [|y|y|y|y]; simpl; try discriminate;
      try (intros Hq%Qeq_bool_iff; right; right; eexists _, _;
           split_and!; [reflexivity..|exact Hq]).
    + by left.
    + intros ->%bool_decide_eq_true. right; left. by eexists.
  - intros [[-> ->]|[(s & -> & ->)|(p & q & Hp & Hq & Hpq)]].
    + done.
    + simpl. by apply bool_decide_eq_true.
    + destruct a as [|x|x|x|x], b as [|y|y|y|y]; simpl in *; try discriminate;
        simplify_eq; by apply Qeq_bool_iff.
Qed.

Lemma py_eq_sym a b : py_eq a b = py_eq b a.
Proof.
  apply eq_true_iff_eq. rewrite !py_eq_true.
  split; (intros [[? ?]|[(? & ? & ?)|(p & q & ? & ? & ?)]];
    [by left | right; left; eauto | right; right; exists q, p; by split_and!]).
Qed.

Lemma py_eq_trans a b c : py_eq a b = true → py_eq b c = true → py_eq a c = true.
Proof.
  rewrite !py_eq_true.
  intros [[-> ->]|[(s & -> & ->)|(p & q & Hp & Hq & Hpq)]]
         [[? ?]|[(t & ? & ?)|(q' & r & Hq' & Hr & Hqr)]];
    simplify_eq; eauto 10.
  right; right. exists p, r. split_and!; [done..|by rewrite Hpq].
Qed.

Lemma py_eq_congr a b c : py_eq a b = true → py_eq c a = py_eq c b.
Proof.
  intros Hab. apply eq_true_iff_eq. split; intros Hc.
  - by apply (py_eq_trans c a b).
  - apply (py_eq_trans c b a); [done|]. by rewrite py_eq_sym.
Qed.

Lemma load_annotations_clock st now video :
  annotations_of (load_annotations st now video) = stored_annotations st video.
Proof.
  unfold stored_annotations, load_annotations.
  by repeat case_match.
Qed.

Lemma stored_save st video d :
  stored_annotations (save_annotations st video d) video = annotations_of d.
Proof.
  unfold stored_annotations, load_annotations, save_annotations. simpl.
  by rewrite lookup_insert_eq.
Qed.

Lemma stored_save_ne st video d video' :
  video ≠ video' →
  stored_annotations (save_annotations st video d) video'
  = stored_annotations st video'.
Proof.
  intros Hne. unfold stored_annotations, load_annotations, save_annotations.
  simpl. by rewrite lookup_insert_ne.
Qed.

Section key.
Variables sf ef fc : value.

Abbreviation hit := (same_event sf ef fc).

Lemma existing_idx_Some l i :
  existing_idx l sf ef fc = Some i ↔
  ∃ a, l !! i = Some a ∧ hit a = true
       ∧ ∀ j b, l !! j = Some b → (j < i)%nat → hit b = false.
Proof.
  unfold existing_idx. split.
  - destruct (list_find _ l) as [[i' a]|] eqn:Hf; [|done].
    intros [= <-]. apply list_find_Some in Hf as (Hl & Ha & Hb).
    exists a. split_and!; [done|by apply Is_true_true|].
    intros j b Hj Hlt. specialize (Hb j b Hj Hlt).
    by apply negb_prop_intro, Is_true_true, negb_true_iff in Hb.
  - intros (a & Hl & Ha & Hb).
    assert (list_find (λ ann, Is_true (hit ann)) l = Some (i, a)) as ->; [|done].
    apply list_find_Some. split_and!; [done|by apply Is_true_true|].
    intros j b Hj Hlt. rewrite (Hb j b Hj Hlt). by intros [].
Qed.

Lemma existing_idx_None l :
  existing_idx l sf ef fc = None ↔ Forall (λ a, hit a = false) l.
Proof.
  unfold existing_idx. rewrite fmap_None, list_find_None.
  apply Forall_iff. intros a. destruct (hit a); simpl; intuition congruence.
Qed.

Lemma count_event_none l :
  Forall (λ a, hit a = false) l ↔ count_event sf ef fc l = 0%nat.
Proof.
  unfold count_event. induction l as [|a l IH]; simpl.
  - split; [done | constructor].
  - rewrite Forall_cons, IH. destruct (hit a); simpl; intuition congruence.
Qed.

Lemma count_event_cons a l :
  count_event sf ef fc (a :: l)
  = ((if hit a then 1 else 0) + count_event sf ef fc l)%nat.
Proof. unfold count_event. simpl. by destruct (hit a). Qed.

Lemma count_event_app l1 l2 :
  count_event sf ef fc (l1 ++ l2)
  = (count_event sf ef fc l1 + count_event sf ef fc l2)%nat.
Proof. unfold count_event. by rewrite List.filter_app, length_app. Qed.

Lemma count_event_insert l i a b :
  l !! i = Some b → hit a = hit b →
  count_event sf ef fc (<[i := a]> l) = count_event sf ef fc l.
Proof.
  intros Hl Hab.
  rewrite <-(take_drop_middle l i b Hl) at 2.
  rewrite insert_take_drop by (by eapply lookup_lt_Some).
  by rewrite !count_event_app, !count_event_cons, Hab.
Qed.

Lemma count_event_hit l i a :
  l !! i = Some a → hit a = true → (1 ≤ count_event sf ef fc l)%nat.
Proof.
  intros Hl Ha.
  rewrite <-(take_drop_middle l i a Hl), count_event_app, count_event_cons, Ha.
  lia.
Qed.

(** The first record with the key is where the scan of
    [get_annotation_for_event] stops. *)
Lemma find_existing l i a :
  existing_idx l sf ef fc = Some i → l !! i = Some a → List.find hit l = Some a.
Proof.
  revert i. induction l as [|b l IH]; intros i Hi Hl; [done|].
  apply existing_idx_Some in Hi as (a' & Hl' & Ha & Hb).
  rewrite Hl in Hl'. injection Hl' as <-. simpl.
  destruct i as [|i]; simpl in Hl.
  - injection Hl as ->. by rewrite Ha.
  - rewrite (Hb 0%nat b) by (done || lia).
    apply (IH i); [|done]. apply existing_idx_Some.
    exists a. split_and!; [done..|].
    intros j c Hj Hlt. apply (Hb (S j) c); [done|lia].
Qed.

Lemma find_none l :
  existing_idx l sf ef fc = None → List.find hit l = None.
Proof.
  rewrite existing_idx_None. induction 1 as [|a l Ha _ IH]; [done|].
  simpl. by rewrite Ha.
Qed.

Lemma find_is_Some l :
  is_Some (List.find hit l) ↔ is_Some (existing_idx l sf ef fc).
Proof.
  destruct (existing_idx l sf ef fc) as [i|] eqn:Hi.
  - pose proof Hi as Hi'. apply existing_idx_Some in Hi' as (a & Hl & _).
    by rewrite (find_existing l i a).
  - rewrite (find_none l Hi). split; by intros [].
Qed.

End key.

Ltac lookup_in_record :=
  unfold new_annotation;
  repeat first
    [ rewrite lookup_insert_ne by (intros ?; discriminate)
    | rewrite list_to_map_cons ];
  match goal with
  | |- <[?k := _]> _ !! ?k = _ => rewrite lookup_insert_eq
  end; reflexivity.

Section record.
Variables (video : string) (e c : pydict) (who : string) (b : bool)
          (now : string) (ident : value).

Abbreviation record :=
  (<["annotation_id" := ident]> (new_annotation video e c who b now)).

Lemma record_start_frame : record !! "start_frame" = Some (key_start e).
Proof. lookup_in_record. Qed.

Lemma record_end_frame : record !! "end_frame" = Some (key_end e).
Proof. lookup_in_record. Qed.

Lemma record_fighter_color : record !! "fighter_color" = Some (key_color e c).
Proof. lookup_in_record. Qed.

Lemma record_annotator :
  record !! "annotator" = Some (VStr (if b then "verified" else "manual")).
Proof. lookup_in_record. Qed.

Lemma record_created_at : record !! "created_at" = Some (VStr now).
Proof. lookup_in_record. Qed.

Lemma record_annotation_id : record !! "annotation_id" = Some ident.
Proof. apply lookup_insert_eq. Qed.

Lemma record_hit :
  same_event (key_start e) (key_end e) (key_color e c) record = true.
Proof.
  unfold same_event, dget.
  rewrite record_start_frame, record_end_frame, record_fighter_color.
  cbn [default from_option id]. by rewrite !py_eq_refl.
Qed.

End record.

Lemma add_annotation_spec w st video e c who :
  let l := stored_annotations st video in
  let idx := existing_idx l (key_start e) (key_end e) (key_color e c) in
  let id :=
    match idx with
    | Some i => dget_or (default ∅ (l !! i)) "annotation_id" (VStr "")
    | None => fresh_id video (key_start e) (key_end e) (key_color e c) (uuid_hex8 w)
    end in
  let a := <["annotation_id" := id]>
             (new_annotation video e c who (bool_decide (is_Some idx))
                             (clock_create w)) in
  (add_annotation w st video e c who).1 = id
  ∧ stored_annotations (add_annotation w st video e c who).2 video
    = match idx with
      | Some i => <[i := a]> l
      | None => l ++ [a]
      end.
Proof.
  intros l idx id a. subst l idx id a. unfold add_annotation.
  rewrite load_annotations_clock.
  destruct (existing_idx _ _ _ _) as [i|]; cbn [fst snd];
    rewrite stored_save; unfold dget; by rewrite record_annotation_id.
Qed.

(** What one call leaves in the store: the record it wrote is the first one
    with the key, and the key is carried by as many records as before, or by
    one if there was none. *)
Lemma add_annotation_result w st video e c who :
  let sf := key_start e in
  let ef := key_end e in
  let fc := key_color e c in
  let l := stored_annotations st video in
  let r := add_annotation w st video e c who in
  let l' := stored_annotations r.2 video in
  let existed := bool_decide (is_Some (existing_idx l sf ef fc)) in
  ∃ i, existing_idx l' sf ef fc = Some i
       ∧ l' !! i = Some (<["annotation_id" := r.1]>
                           (new_annotation video e c who existed (clock_create w)))
       ∧ count_event sf ef fc l' = Nat.max 1 (count_event sf ef fc l)
       ∧ length l' = (if existed then length l else S (length l))
       ∧ r.1 = match existing_idx l sf ef fc with
               | Some i0 => dget_or (default ∅ (l !! i0)) "annotation_id" (VStr "")
               | None => fresh_id video sf ef fc (uuid_hex8 w)
               end.
Proof.
  intros sf ef fc l r l' existed.
  destruct (add_annotation_spec w st video e c who) as [Hid Hl'].
  fold l r l' sf ef fc in Hid, Hl'. subst existed.
  pose proof (λ b id, record_hit video e c who b (clock_create w) id) as Hrec.
  fold sf ef fc in Hrec.
  destruct (existing_idx l sf ef fc) as [i|] eqn:Hidx.
  - pose proof Hidx as (b & Hb & Hhit & Hfirst)%existing_idx_Some.
    assert (i < length l)%nat as Hlt by (by eapply lookup_lt_Some).
    rewrite <-Hid in Hl'. exists i.
    rewrite bool_decide_eq_true_2 in * by done.
    split_and!; [| | | |done].
    + apply existing_idx_Some. eexists. split_and!.
      * rewrite Hl'. by apply list_lookup_insert_eq.
      * apply Hrec.
      * intros j a Hj Hji. rewrite Hl', list_lookup_insert_ne in Hj by lia.
        by apply (Hfirst j).
    + rewrite Hl'. by apply list_lookup_insert_eq.
    + rewrite Hl'. erewrite count_event_insert; [|done|by rewrite Hhit, Hrec].
      pose proof (count_event_hit _ _ _ _ _ _ Hb Hhit). lia.
    + by rewrite Hl', length_insert.
  - pose proof Hidx as Hnone%existing_idx_None.
    rewrite <-Hid in Hl'. exists (length l).
    rewrite bool_decide_eq_false_2 in * by (by intros []).
    split_and!; [| | | |done].
    + apply existing_idx_Some. eexists. split_and!.
      * rewrite Hl'. by apply list_lookup_middle.
      * apply Hrec.
      * intros j a Hj Hji. rewrite Hl', lookup_app_l in Hj by done.
        rewrite Forall_lookup in Hnone. by apply (Hnone j).
    + rewrite Hl'. by apply list_lookup_middle.
    + rewrite Hl', count_event_app, count_event_cons, Hrec.
      apply count_event_none in Hnone. rewrite Hnone. reflexivity.
    + rewrite Hl', length_app. simpl. lia.
Qed.

(** C1.  Two calls of [add_annotation] with the same identity key, on a
    collection that holds at most one record for that key, leave exactly one
    record for the key, add no record the second time, and return the same
    identifier. *)
Theorem add_annotation_idempotent w1 w2 st video e1 c1 who1 e2 c2 who2 :
  key_start e2 = key_start e1 →
  key_end e2 = key_end e1 →
  key_color e2 c2 = key_color e1 c1 →
  (count_event (key_start e1) (key_end e1) (key_color e1 c1)
               (stored_annotations st video) ≤ 1)%nat →
  let r1 := add_annotation w1 st video e1 c1 who1 in
  let r2 := add_annotation w2 r1.2 video e2 c2 who2 in
  r2.1 = r1.1
  ∧ count_event (key_start e1) (key_end e1) (key_color e1 c1)
                (stored_annotations r2.2 video) = 1%nat
  ∧ length (stored_annotations r2.2 video) = length (stored_annotations r1.2 video).
Proof.
  intros Hsf Hef Hfc Hinv r1 r2.
  destruct (add_annotation_result w1 st video e1 c1 who1)
    as (i & Hi & Hrec & Hcount & _ & _).
  destruct (add_annotation_result w2 r1.2 video e2 c2 who2)
    as (i' & _ & _ & Hcount' & Hlen' & Hid').
  fold r1 in Hi, Hrec, Hcount, Hcount', Hlen', Hid'. fold r2 in Hcount', Hlen', Hid'.
  rewrite Hsf, Hef, Hfc in Hcount', Hlen', Hid'. rewrite Hi in Hlen', Hid'.
  split_and!.
  - rewrite Hid', Hrec. unfold dget_or. cbn [default from_option id].
    by rewrite record_annotation_id.
  - lia.
  - rewrite Hlen'. by rewrite bool_decide_eq_true_2.
Qed.

(** What [delete_annotation] does on any collection: every record with the
    key goes, and the call answers whether there was one. *)
Lemma filter_keep_length (f : pydict → bool) l :
  (length (List.filter (λ a, negb (f a)) l) + length (List.filter f l))%nat
  = length l.
Proof. induction l as [|a l IH]; [done|]. simpl. destruct (f a); simpl; lia. Qed.

Lemma filter_keep_all (f : pydict → bool) l :
  Forall (λ a, f a = false) l → List.filter (λ a, negb (f a)) l = l.
Proof. induction 1 as [|a l Ha _ IH]; [done|]. simpl. by rewrite Ha, IH. Qed.

Lemma delete_annotation_spec w st video sf ef fc :
  let l := stored_annotations st video in
  let r := delete_annotation w st video sf ef fc in
  r.1 = bool_decide (0 < count_event sf ef fc l)%nat
  ∧ stored_annotations r.2 video
    = List.filter (λ a, negb (same_event sf ef fc a)) l
  ∧ (r.1 = false → r.2 = st).
Proof.
  intros l r. subst r. unfold delete_annotation.
  rewrite load_annotations_clock. fold l.
  pose proof (filter_keep_length (same_event sf ef fc) l) as Hlen.
  unfold count_event. destruct (_ <? _)%nat eqn:Hlt; cbn [fst snd].
  - apply Nat.ltb_lt in Hlt. rewrite stored_save.
    split_and!; [|done|done]. symmetry. apply bool_decide_eq_true. lia.
  - apply Nat.ltb_ge in Hlt. split_and!; [| |done].
    + symmetry. apply bool_decide_eq_false. lia.
    + assert (length (List.filter (same_event sf ef fc) l) = 0%nat) as H0 by lia.
      apply (count_event_none sf ef fc) in H0. by rewrite filter_keep_all.
Qed.

(** C7.  On a collection with at most one record per identity key,
    [delete_annotation] removes the one record that carries the key, leaves
    the others as they are and answers true; when no record carries the key
    it answers false and the store is untouched. *)
Theorem delete_annotation_one w st video sf ef fc :
  (count_event sf ef fc (stored_annotations st video) ≤ 1)%nat →
  let l := stored_annotations st video in
  let r := delete_annotation w st video sf ef fc in
  match existing_idx l sf ef fc with
  | Some i =>
      r.1 = true
      ∧ stored_annotations r.2 video = delete i l
      ∧ S (length (stored_annotations r.2 video)) = length l
      ∧ count_event sf ef fc (stored_annotations r.2 video) = 0%nat
  | None => r.1 = false ∧ r.2 = st
  end.
Proof.
  intros Hinv l r.
  destruct (delete_annotation_spec w st video sf ef fc) as (Hb & Hl & Hst).
  fold l r in Hb, Hl, Hst, Hinv.
  destruct (existing_idx l sf ef fc) as [i|] eqn:Hidx.
  - apply existing_idx_Some in Hidx as (a & Ha & Hhit & Hfirst).
    assert (i < length l)%nat as Hlt by (by eapply lookup_lt_Some).
    pose proof (count_event_hit _ _ _ _ _ _ Ha Hhit) as Hge.
    assert (Hparts : Forall (λ b, same_event sf ef fc b = false) (take i l)
                     ∧ Forall (λ b, same_event sf ef fc b = false) (drop (S i) l)).
    { rewrite <-(take_drop_middle l i a Ha), !count_event_app, count_event_cons,
        Hhit in Hinv.
      split; apply count_event_none; lia. }
    destruct Hparts as [Htake Hdrop].
    assert (Hdel : stored_annotations r.2 video = delete i l).
    { rewrite Hl, delete_take_drop.
      rewrite <-(take_drop_middle l i a Ha) at 1.
      rewrite List.filter_app. simpl. rewrite Hhit. simpl.
      by rewrite !filter_keep_all. }
    split_and!.
    + rewrite Hb. apply bool_decide_eq_true. lia.
    + done.
    + rewrite Hdel, length_delete by done. lia.
    + rewrite Hdel, delete_take_drop, count_event_app.
      apply count_event_none in Htake, Hdrop. lia.
  - apply existing_idx_None, count_event_none in Hidx.
    assert (r.1 = false) as Hf.
    { rewrite Hb. apply bool_decide_eq_false. lia. }
    auto.
Qed.

(** C10.  The record that [add_annotation] stores is the one built from the
    arguments of this call: its annotator is ["verified"] exactly when a
    record with the key was there before the call and ["manual"] otherwise,
    its created_at is the time of this call, and only its identifier is taken
    from the record it replaces.  A repeated call therefore stores a record
    marked ["verified"] with a new created_at under the first identifier. *)
Theorem add_annotation_annotator w st video e c who w' w2 who2 :
  let sf := key_start e in
  let ef := key_end e in
  let fc := key_color e c in
  let before := get_annotation_for_event w st video sf ef fc in
  let r := add_annotation w st video e c who in
  let r2 := add_annotation w2 r.2 video e c who2 in
  ∃ a a2,
    get_annotation_for_event w' r.2 video sf ef fc = Some a
    ∧ a = <["annotation_id" := r.1]>
            (new_annotation video e c who (bool_decide (is_Some before))
                            (clock_create w))
    ∧ dget a "annotator"
      = VStr (if bool_decide (is_Some before) then "verified" else "manual")
    ∧ dget a "created_at" = VStr (clock_create w)
    ∧ dget a "annotation_id" = r.1
    ∧ r.1 = match before with
            | Some old => dget_or old "annotation_id" (VStr "")
            | None => fresh_id video sf ef fc (uuid_hex8 w)
            end
    ∧ get_annotation_for_event w' r2.2 video sf ef fc = Some a2
    ∧ dget a2 "annotator" = VStr "verified"
    ∧ dget a2 "created_at" = VStr (clock_create w2)
    ∧ dget a2 "annotation_id" = r.1.
Proof.
  intros sf ef fc before r r2.
  destruct (add_annotation_result w st video e c who)
    as (i & Hi & Hrec & _ & _ & Hid).
  destruct (add_annotation_result w2 r.2 video e c who2)
    as (i2 & Hi2 & Hrec2 & _ & _ & Hid2).
  fold sf ef fc r in Hi, Hrec, Hid, Hi2, Hrec2, Hid2. fold r2 in Hi2, Hrec2, Hid2.
  rewrite Hi in Hrec2, Hid2. rewrite Hrec in Hid2.
  rewrite bool_decide_eq_true_2 in Hrec2 by done.
  assert (Hid21 : r2.1 = r.1).
  { rewrite Hid2. unfold dget_or. cbn [default from_option id].
    by rewrite record_annotation_id. }
  rewrite Hid21 in Hrec2.
  assert (Hsame : bool_decide (is_Some before)
                  = bool_decide (is_Some (existing_idx (stored_annotations st video)
                                                       sf ef fc))).
  { apply bool_decide_ext. unfold before, get_annotation_for_event.
    rewrite load_annotations_clock. apply find_is_Some. }
  eexists _, _. split_and!.
  - unfold get_annotation_for_event. rewrite load_annotations_clock.
    eapply find_existing; [exact Hi|exact Hrec].
  - by rewrite Hsame.
  - unfold dget. by rewrite record_annotator, Hsame.
  - unfold dget. by rewrite record_created_at.
  - unfold dget. by rewrite record_annotation_id.
  - rewrite Hid. unfold before, get_annotation_for_event.
    rewrite load_annotations_clock.
    destruct (existing_idx (stored_annotations st video) sf ef fc) as [i0|] eqn:Hi0.
    + pose proof Hi0 as (b & Hb & _)%existing_idx_Some.
      by rewrite (find_existing _ _ _ _ i0 b Hi0 Hb), Hb.
    + by rewrite (find_none _ _ _ _ Hi0).
  - unfold get_annotation_for_event. rewrite load_annotations_clock.
    eapply find_existing; [exact Hi2|exact Hrec2].
  - unfold dget. by rewrite record_annotator.
  - unfold dget. by rewrite record_created_at.
  - unfold dget. by rewrite record_annotation_id.
Qed.

(** The collections that [add_annotation] and [delete_annotation] build keep
    at most one record per identity key. *)
Lemma same_event_congr sf ef fc sf' ef' fc' a :
  py_eq sf sf' = true → py_eq ef ef' = true → py_eq fc fc' = true →
  same_event sf ef fc a = same_event sf' ef' fc' a.
Proof.
  intros H1 H2 H3. unfold same_event.
  by rewrite (py_eq_congr _ _ _ H1), (py_eq_congr _ _ _ H2), (py_eq_congr _ _ _ H3).
Qed.

Lemma count_event_congr sf ef fc sf' ef' fc' l :
  py_eq sf sf' = true → py_eq ef ef' = true → py_eq fc fc' = true →
  count_event sf ef fc l = count_event sf' ef' fc' l.
Proof.
  intros H1 H2 H3. induction l as [|a l IH]; [done|].
  by rewrite !count_event_cons, IH, (same_event_congr _ _ _ _ _ _ a H1 H2 H3).
Qed.

Lemma count_event_insert_miss sf ef fc l i a :
  same_event sf ef fc a = false →
  (count_event sf ef fc (<[i := a]> l) ≤ count_event sf ef fc l)%nat.
Proof.
  intros Ha. destruct (l !! i) as [b|] eqn:Hb.
  - rewrite <-(take_drop_middle l i b Hb) at 2.
    rewrite insert_take_drop by (by eapply lookup_lt_Some).
    rewrite !count_event_app, !count_event_cons, Ha. lia.
  - rewrite list_insert_ge; [done|]. by apply lookup_ge_None.
Qed.

Lemma add_annotation_one_per_key w st video e c who :
  one_per_key (stored_annotations st video) →
  one_per_key (stored_annotations (add_annotation w st video e c who).2 video).
Proof.
  intros Hinv sf ef fc.
  destruct (add_annotation_result w st video e c who)
    as (i & _ & _ & Hcount & _ & _).
  destruct (add_annotation_spec w st video e c who) as [_ Hl'].
  set (a := <["annotation_id" := _]> _) in Hl'.
  destruct (same_event sf ef fc a) eqn:Hhit.
  - assert (Hk : py_eq sf (key_start e) = true ∧ py_eq ef (key_end e) = true
                 ∧ py_eq fc (key_color e c) = true).
    { unfold same_event, dget, a in Hhit.
      rewrite record_start_frame, record_end_frame, record_fighter_color in Hhit.
      cbn [default from_option id] in Hhit.
      apply andb_true_iff in Hhit as [[H1 H2]%andb_true_iff H3].
      by rewrite (py_eq_sym sf), (py_eq_sym ef), (py_eq_sym fc). }
    destruct Hk as (H1 & H2 & H3).
    rewrite (count_event_congr _ _ _ _ _ _ _ H1 H2 H3), Hcount.
    specialize (Hinv (key_start e) (key_end e) (key_color e c)). lia.
  - rewrite Hl'. specialize (Hinv sf ef fc).
    destruct (existing_idx _ _ _ _) as [i0|].
    + pose proof (count_event_insert_miss sf ef fc
                    (stored_annotations st video) i0 a Hhit). lia.
    + rewrite count_event_app, count_event_cons, Hhit.
      unfold count_event at 2. simpl. lia.
Qed.

Lemma delete_annotation_one_per_key w st video sf ef fc :
  one_per_key (stored_annotations st video) →
  one_per_key (stored_annotations (delete_annotation w st video sf ef fc).2 video).
Proof.
  intros Hinv sf' ef' fc'.
  destruct (delete_annotation_spec w st video sf ef fc) as (_ & Hl & _).
  rewrite Hl. specialize (Hinv sf' ef' fc').
  etrans; [|exact Hinv]. clear.
  induction (stored_annotations st video) as [|a l IH]; [done|].
  rewrite count_event_cons. simpl.
  destruct (same_event sf ef fc a); simpl; rewrite ?count_event_cons; lia.
Qed.

Lemma empty_store_one_per_key video :
  one_per_key (stored_annotations empty_store video).
Proof.
  intros sf ef fc. unfold stored_annotations, load_annotations, empty_store.
  cbn [ann_files repo_files]. rewrite !lookup_empty. cbn. lia.
Qed.

(** Rounding a quotient never crosses a whole number. *)
Lemma round_half_even_le n d k :
  0 < d → n ≤ k * d → round_half_even n d ≤ k.
Proof.
  intros Hd Hn. unfold round_half_even.
  pose proof (Z.div_mod n d ltac:(lia)) as Hdm.
  pose proof (Z.mod_pos_bound n d Hd) as Hm.
  assert (n / d ≤ k) by nia.
  repeat case_match; try lia; rewrite ?Z.ltb_lt, ?Z.ltb_ge in *; nia.
Qed.

Lemma round_half_even_ge n d k :
  0 < d → k * d ≤ n → k ≤ round_half_even n d.
Proof.
  intros Hd Hn. unfold round_half_even.
  pose proof (Z.div_mod n d ltac:(lia)) as Hdm.
  pose proof (Z.mod_pos_bound n d Hd) as Hm.
  assert (k ≤ n / d) by nia.
  repeat case_match; lia.
Qed.

(** What holds of the statistics on every store: [annotated] is the number
    of stored records, [remaining] and [progress_pct] are never negative, and
    [progress_pct] is at most 100 when the records are no more than
    [max(1, N)]; when they are more it is at least 100. *)
Lemma stats_bounds w st video N :
  let s := get_annotation_stats w st video N in
  let len := Z.of_nat (length (stored_annotations st video)) in
  annotated s = length (stored_annotations st video)
  ∧ 0 ≤ remaining s
  ∧ Qle 0 (progress_pct s)
  ∧ (len ≤ Z.max 1 N → Qle (progress_pct s) 100)
  ∧ (Z.max 1 N ≤ len → Qle 100 (progress_pct s)).
Proof.
  intros s len. subst s. unfold get_annotation_stats, progress_pct.
  rewrite load_annotations_clock. cbn [annotated remaining progress_tenths].
  fold len. unfold Qle. cbn [Qnum Qden].
  split_and!; [done|lia|..].
  - pose proof (round_half_even_ge (len * 100 * 10) (Z.max 1 N) 0). lia.
  - intros Hle.
    pose proof (round_half_even_le (len * 100 * 10) (Z.max 1 N) 1000). lia.
  - intros Hle.
    pose proof (round_half_even_ge (len * 100 * 10) (Z.max 1 N) 1000). lia.
Qed.

End repo.

(** The scenario of three detected events: one annotation gives 1 of 3 and
    33.3 percent, deleting it gives 0 of 3 and 0.0 percent. *)
Example three_events_scenario :
  let s1 := Repo.get_annotation_stats (example_world 3) example_store_red "match01" 3 in
  let d := Repo.delete_annotation (example_world 3) example_store_red "match01"
             (VInt 10) (VInt 20) (VStr "red") in
  let s2 := Repo.get_annotation_stats (example_world 4) d.2 "match01" 3 in
  (Repo.annotated s1, Repo.remaining s1, Repo.progress_tenths s1) = (1%nat, 2, 333)
  ∧ d.1 = true
  ∧ (Repo.annotated s2, Repo.remaining s2, Repo.progress_tenths s2) = (0%nat, 3, 0).
Proof. by vm_compute. Qed.

Lemma add_annotation_idempotent_witness :
  let r1 := Repo.add_annotation (H := example_runtime) (example_world 1)
              Repo.empty_store "match01" example_event example_red "Luke" in
  let r2 := Repo.add_annotation (H := example_runtime) (example_world 2) r1.2
              "match01" example_event example_red "Luke" in
  r2.1 = r1.1
  ∧ Repo.count_event (VInt 10) (VInt 20) (VStr "red")
                     (Repo.stored_annotations r2.2 "match01") = 1%nat
  ∧ length (Repo.stored_annotations r2.2 "match01")
    = length (Repo.stored_annotations r1.2 "match01").
Proof.
  apply (add_annotation_idempotent (H := example_runtime) (example_world 1)
           (example_world 2) Repo.empty_store "match01"
           example_event example_red "Luke" example_event example_red "Luke");
    [reflexivity..|vm_compute; lia].
Defined.

Lemma delete_annotation_one_witness :
  let r := Repo.delete_annotation (example_world 3) example_store_both "match01"
             (VInt 10) (VInt 20) (VStr "red") in
  r.1 = true
  ∧ Repo.stored_annotations r.2 "match01"
    = delete 0%nat (Repo.stored_annotations example_store_both "match01")
  ∧ S (length (Repo.stored_annotations r.2 "match01")) = 2%nat
  ∧ Repo.count_event (VInt 10) (VInt 20) (VStr "red")
                     (Repo.stored_annotations r.2 "match01") = 0%nat.
Proof.
  apply (delete_annotation_one (example_world 3) example_store_both "match01"
           (VInt 10) (VInt 20) (VStr "red")).
  vm_compute. lia.
Defined.

(** C2 at a store the dashboard reaches: with the two fighters of the only
    event confirmed, two records stand against one event, [progress_pct] is
    200 and the specified bounds do not hold. *)
Theorem stats_progress_over_100 :
  Repo.progress_tenths
    (Repo.get_annotation_stats (example_world 3) example_store_both "match01" 1)
  = 2000
  ∧ ¬ stats_in_range (example_world 3) example_store_both "match01" 1.
Proof.
  split; [by vm_compute|].
  intros (_ & _ & _ & Hle). vm_compute in Hle. by apply Hle.
Qed.

(** ** The JSON text *)

Section json_text.
Import Json.

Lemma skip_ws_spaces n s : skip_ws (repeat " "%char n ++ s) = skip_ws s.
Proof. induction n as [|n IH]; [done|]. exact IH. Qed.

Lemma skip_ws_indent lvl s : skip_ws (newline_indent lvl ++ s) = skip_ws s.
Proof. unfold newline_indent. simpl. apply skip_ws_spaces. Qed.

Lemma skip_ws_head c s : is_ws c = false → skip_ws (c :: s) = c :: s.
Proof. intros Hc. simpl. by rewrite Hc. Qed.

(** *** Strings *)

Lemma parse_string_escape c rest :
  parse_string (escape_char c ++ rest) = prepend [c] (parse_string rest).
Proof. destruct c as [[] [] [] [] [] [] [] []]; reflexivity. Qed.

Lemma parse_string_body cs rest :
  parse_string (flat_map escape_char cs ++ quote_char :: rest) = Some (cs, rest).
Proof.
  induction cs as [|c cs IH]; [done|].
  simpl. rewrite <-app_assoc, parse_string_escape, IH. reflexivity.
Qed.

Lemma dump_string_cons s :
  dump_string s = quote_char :: flat_map escape_char (chars s) ++ [quote_char].
Proof. reflexivity. Qed.

Lemma parse_dump_string s rest :
  ∃ tl, dump_string s ++ rest = quote_char :: tl
        ∧ parse_string tl = Some (chars s, rest).
Proof.
  exists (flat_map escape_char (chars s) ++ quote_char :: rest).
  split; [|apply parse_string_body].
  unfold dump_string. by rewrite <-app_comm_cons, <-app_assoc.
Qed.

Lemma string_of_chars s : string_of_list_ascii (chars s) = s.
Proof. apply string_of_list_ascii_of_string. Qed.

(** *** Numbers *)

Lemma digit_char x :
  (x < 10)%N →
  is_digit (pretty_N_char x) = true
  ∧ (N_of_ascii (pretty_N_char x) - 48)%N = x
  ∧ (x ≠ 0%N → Ascii.eqb (pretty_N_char x) "0" = false).
Proof.
  intros Hx.
  assert (x = 0 ∨ x = 1 ∨ x = 2 ∨ x = 3 ∨ x = 4 ∨ x = 5 ∨ x = 6 ∨ x = 7
          ∨ x = 8 ∨ x = 9)%N as Hcases by lia.
  repeat (destruct Hcases as [->|Hcases]); subst; by split_and!.
Qed.

Lemma parse_digits_pretty x :
  ∃ k, ∀ acc s rest,
    parse_digits acc (chars (pretty_N_go x s) ++ rest)
    = parse_digits (acc * 10 ^ k + x)%N (chars s ++ rest).
Proof.
  induction (N.lt_wf_0 x) as [x _ IH].
  destruct (decide (x = 0%N)) as [->|Hx].
  - exists 0%N. intros acc s rest. rewrite pretty_N_go_0. f_equal. lia.
  - destruct (IH (x `div` 10)%N) as [k Hk]; [apply N.div_lt; lia|].
    exists (k + 1)%N. intros acc s rest.
    rewrite pretty_N_go_step by lia. rewrite Hk. simpl.
    destruct (digit_char (x `mod` 10)%N) as (Hd & Hv & _);
      [apply N.mod_lt; lia|].
    rewrite Hd, Hv. f_equal.
    rewrite N.pow_add_r. change (10 ^ 1)%N with 10%N.
    rewrite N.mul_assoc. set (a := (acc * 10 ^ k)%N).
    pose proof (N.Div0.div_mod x 10). lia.
Qed.

Lemma pretty_N_go_head x s :
  (0 < x)%N →
  ∃ c tl, pretty_N_go x s = String c tl
          ∧ is_digit c = true ∧ Ascii.eqb c "0" = false.
Proof.
  revert s. induction (N.lt_wf_0 x) as [x _ IH]. intros s Hx.
  rewrite pretty_N_go_step by done.
  destruct (decide (x `div` 10 = 0)%N) as [Hz|Hz].
  - rewrite Hz, pretty_N_go_0.
    destruct (digit_char (x `mod` 10)%N) as (Hd & _ & Hn);
      [apply N.mod_lt; lia|].
    eexists _, _. split_and!; [done..|]. apply Hn.
    pose proof (N.Div0.div_mod x 10). lia.
  - apply IH; [apply N.div_lt; lia|by apply N.neq_0_lt_0].
Qed.

Lemma parse_digits_end acc rest :
  number_end rest = true → parse_digits acc rest = (acc, rest).
Proof.
  destruct rest as [|c rest]; [done|]. simpl.
  intros [Hd _]%andb_true_iff. by destruct (is_digit c).
Qed.

Lemma parse_nat_pretty (x : N) rest :
  number_end rest = true →
  parse_nat (chars (pretty x) ++ rest) = Some (x, rest).
Proof.
  intros Hend. unfold pretty, pretty_N. case_decide as Hx; [by subst|].
  destruct (pretty_N_go_head x "" ltac:(lia)) as (c & tl & Hhead & Hd & Hz).
  destruct (parse_digits_pretty x) as [k Hk].
  specialize (Hk 0%N ""%string rest).
  rewrite Hhead in *. simpl in *. rewrite Hz, Hd. rewrite Hd in Hk.
  rewrite Hk, parse_digits_end by done. reflexivity.
Qed.

Lemma pretty_N_head (x : N) :
  ∃ c tl, chars (pretty x) = c :: tl ∧ is_digit c = true.
Proof.
  unfold pretty, pretty_N. case_decide as Hx; [by eexists _, _|].
  destruct (pretty_N_go_head x "" ltac:(lia)) as (c & tl & -> & Hd & _).
  by eexists _, _.
Qed.

Lemma digit_not_minus c : is_digit c = true → Ascii.eqb c "-" = false.
Proof. destruct c as [[] [] [] [] [] [] [] []]; by vm_compute. Qed.

Lemma number_end_float rest : number_end rest = true → float_follows rest = false.
Proof.
  destruct rest as [|c rest]; [done|]. unfold number_end.
  intros [_ Hf]%andb_true_iff. by apply negb_true_iff in Hf.
Qed.

Lemma parse_number_pretty (z : Z) rest :
  number_end rest = true →
  parse_number (chars (pretty z) ++ rest) = Some (z, rest).
Proof.
  intros Hend. unfold parse_number.
  destruct z as [|p|p]; unfold pretty, pretty_Z.
  - simpl. by rewrite number_end_float.
  - change (pretty p) with (pretty (Npos p)).
    destruct (pretty_N_head (Npos p)) as (c & tl & Hhead & Hd).
    pose proof (parse_nat_pretty (Npos p) rest Hend) as Hnat.
    rewrite Hhead in *. simpl in *. rewrite (digit_not_minus c Hd), Hnat.
    simpl. by rewrite number_end_float.
  - change (pretty p) with (pretty (Npos p)).
    change (chars ("-" +:+ pretty (N.pos p))) with ("-"%char :: chars (pretty (N.pos p))).
    simpl. rewrite (parse_nat_pretty (Npos p) rest Hend).
    simpl. by rewrite number_end_float.
Qed.

(** The first character of a number tells the reader that it is one. *)
Lemma number_head (z : Z) :
  ∃ c tl, chars (pretty z) = c :: tl
          ∧ (is_digit c = true ∨ c = "-"%char).
Proof.
  destruct z as [|p|p]; unfold pretty, pretty_Z.
  - eexists _, _. split; [reflexivity|by left].
  - destruct (pretty_N_head (Npos p)) as (c & tl & Hhead & Hd).
    exists c, tl. split; [exact Hhead|by left].
  - eexists _, _. split; [reflexivity|by right].
Qed.

(** *** Documents *)

#[local] Arguments newline_indent : simpl never.
#[local] Arguments dump : simpl never.
#[local] Arguments dump_string : simpl never.
#[local] Arguments parse_value : simpl never.
#[local] Arguments parse_items : simpl never.
#[local] Arguments parse_members : simpl never.

Lemma parse_items_S fuel s :
  parse_items (S fuel) s
  = '(v, r) ← parse_value fuel s;
    match skip_ws r with
    | c :: r' =>
        if Ascii.eqb c ","
        then '(vs, r'') ← parse_items fuel (skip_ws r'); Some (v :: vs, r'')
        else if Ascii.eqb c "]" then Some ([v], r') else None
    | [] => None
    end.
Proof. reflexivity. Qed.

Lemma parse_members_S fuel tl :
  parse_members (S fuel) (quote_char :: tl)
  = '(kb, r1) ← parse_string tl;
    match skip_ws r1 with
    | c1 :: r2 =>
        if Ascii.eqb c1 ":" then
          '(v, r3) ← parse_value fuel (skip_ws r2);
          match skip_ws r3 with
          | c3 :: r4 =>
              if Ascii.eqb c3 "," then
                '(kvs, r5) ← parse_members fuel (skip_ws r4);
                Some ((string_of_list_ascii kb, v) :: kvs, r5)
              else if Ascii.eqb c3 "}" then
                Some ([(string_of_list_ascii kb, v)], r4)
              else None
          | [] => None
          end
        else None
    | [] => None
    end.
Proof. reflexivity. Qed.

(** A character that starts a number starts nothing else. *)
Lemma number_start c :
  is_digit c = true ∨ c = "-"%char →
  is_ws c = false ∧ Ascii.eqb c "]" = false ∧ Ascii.eqb c "}" = false
  ∧ Ascii.eqb c quote_char = false ∧ Ascii.eqb c "{" = false
  ∧ Ascii.eqb c "[" = false ∧ Ascii.eqb c "n" = false
  ∧ Ascii.eqb c "t" = false ∧ Ascii.eqb c "f" = false.
Proof.
  intros [Hd| ->]; [|by vm_compute].
  destruct c as [[] [] [] [] [] [] [] []]; by vm_compute in Hd |- *.
Qed.

Lemma dump_arr_cons lvl x xs rest :
  dump lvl (JArr (x :: xs)) ++ rest
  = "["%char :: newline_indent (S lvl) ++ dump (S lvl) x
    ++ flat_map (λ y, ","%char :: newline_indent (S lvl) ++ dump (S lvl) y) xs
    ++ newline_indent lvl ++ "]"%char :: rest.
Proof.
  change (dump lvl (JArr (x :: xs)))
    with ("["%char :: newline_indent (S lvl) ++ dump (S lvl) x
          ++ flat_map (λ y, ","%char :: newline_indent (S lvl) ++ dump (S lvl) y) xs
          ++ newline_indent lvl ++ ["]"%char]).
  rewrite <-app_comm_cons. f_equal. by rewrite <-!app_assoc.
Qed.

Lemma dump_obj_cons lvl kv kvs rest :
  dump lvl (JObj (kv :: kvs)) ++ rest
  = "{"%char :: newline_indent (S lvl) ++ dump_string kv.1 ++ chars ": "
    ++ dump (S lvl) kv.2
    ++ flat_map (λ kv', ","%char :: newline_indent (S lvl)
                        ++ dump_member (dump (S lvl)) kv') kvs
    ++ newline_indent lvl ++ "}"%char :: rest.
Proof.
  change (dump lvl (JObj (kv :: kvs)))
    with ("{"%char :: newline_indent (S lvl) ++ dump_member (dump (S lvl)) kv
          ++ flat_map (λ kv', ","%char :: newline_indent (S lvl)
                              ++ dump_member (dump (S lvl)) kv') kvs
          ++ newline_indent lvl ++ ["}"%char]).
  unfold dump_member at 1.
  rewrite <-app_comm_cons. f_equal. by rewrite <-!app_assoc.
Qed.

(** What a written document starts with. *)
Lemma dump_head lvl j :
  ∃ c tl, dump lvl j = c :: tl
          ∧ is_ws c = false ∧ Ascii.eqb c "]" = false ∧ Ascii.eqb c "}" = false.
Proof.
  destruct j as [|[]|z|s|[|x xs]|[|kv kvs]];
    try (eexists _, _; split; [reflexivity|by vm_compute]).
  - destruct (number_head z) as (c & tl & Hhead & Hc).
    exists c, tl. split; [exact Hhead|].
    destruct (number_start c Hc) as (? & ? & ? & _). by split_and!.
Qed.

Lemma skip_ws_dump lvl j rest : skip_ws (dump lvl j ++ rest) = dump lvl j ++ rest.
Proof.
  destruct (dump_head lvl j) as (c & tl & -> & Hws & _).
  simpl. by rewrite Hws.
Qed.

Lemma skip_ws_dump_string k rest :
  skip_ws (dump_string k ++ rest) = dump_string k ++ rest.
Proof. reflexivity. Qed.

Lemma number_end_indent lvl s : number_end (newline_indent lvl ++ s) = true.
Proof. reflexivity. Qed.

Lemma size_pos j : (1 ≤ size j)%nat.
Proof. destruct j; simpl; lia. Qed.

Lemma nodes_cons {A} (f : A → nat) x l : nodes f (x :: l) = S (f x + nodes f l).
Proof. reflexivity. Qed.

Lemma flat_map_cons_app {A B} (f : A → list B) x l r :
  flat_map f (x :: l) ++ r = f x ++ flat_map f l ++ r.
Proof. simpl. by rewrite <-app_assoc. Qed.

Section depth.
Variable n : nat.
Hypothesis IH : ∀ j, (size j ≤ n)%nat → ∀ fuel lvl rest,
  (size j ≤ fuel)%nat → number_end rest = true →
  parse_value fuel (dump lvl j ++ rest) = Some (j, rest).

Lemma parse_items_dump lvl xs : ∀ x fuel rest,
  (nodes size (x :: xs) ≤ n)%nat →
  (nodes size (x :: xs) ≤ fuel)%nat →
  parse_items fuel
    (dump (S lvl) x
     ++ flat_map (λ y, ","%char :: newline_indent (S lvl) ++ dump (S lvl) y) xs
     ++ newline_indent lvl ++ "]"%char :: rest)
  = Some (x :: xs, rest).
Proof.
  induction xs as [|y ys IHxs]; intros x fuel rest Hn Hfuel;
    rewrite nodes_cons in Hn, Hfuel;
    (destruct fuel as [|fuel]; [lia|]); rewrite parse_items_S.
  - change (flat_map _ [] ++ ?r) with r.
    rewrite IH by (lia || apply number_end_indent).
    cbn [mbind option_bind]. rewrite skip_ws_indent. reflexivity.
  - rewrite flat_map_cons_app. cbn beta. rewrite <-app_comm_cons, <-!app_assoc.
    rewrite IH by (lia || reflexivity).
    cbn [mbind option_bind]. rewrite skip_ws_head by reflexivity.
    change (Ascii.eqb "," ",") with true. cbn iota.
    rewrite skip_ws_indent, skip_ws_dump.
    rewrite IHxs by lia.
    reflexivity.
Qed.

Lemma parse_members_dump lvl kvs : ∀ kv fuel rest,
  (nodes (λ kv', size kv'.2) (kv :: kvs) ≤ n)%nat →
  (nodes (λ kv', size kv'.2) (kv :: kvs) ≤ fuel)%nat →
  parse_members fuel
    (dump_string kv.1 ++ chars ": " ++ dump (S lvl) kv.2
     ++ flat_map (λ kv', ","%char :: newline_indent (S lvl)
                         ++ dump_member (dump (S lvl)) kv') kvs
     ++ newline_indent lvl ++ "}"%char :: rest)
  = Some (kv :: kvs, rest).
Proof.
  induction kvs as [|kv' kvs IHkvs]; intros [k v] fuel rest Hn Hfuel;
    rewrite nodes_cons in Hn, Hfuel; cbn [fst snd] in *;
    (destruct fuel as [|fuel]; [lia|]);
    match goal with
    | |- parse_members _ (dump_string k ++ ?r) = _ =>
        destruct (parse_dump_string k r) as (tl & -> & Hstr)
    end;
    rewrite parse_members_S, Hstr; cbn [mbind option_bind];
    change (chars ": " ++ ?r) with (":"%char :: " "%char :: r);
    rewrite skip_ws_head by reflexivity;
    change (Ascii.eqb ":" ":") with true; cbn iota;
    change (skip_ws (" "%char :: ?r)) with (skip_ws r);
    rewrite skip_ws_dump.
  - change (flat_map _ [] ++ ?r) with r.
    rewrite IH by (lia || apply number_end_indent).
    cbn [mbind option_bind]. rewrite skip_ws_indent, string_of_chars.
    reflexivity.
  - rewrite flat_map_cons_app. cbn beta. rewrite <-app_comm_cons, <-!app_assoc.
    rewrite IH by (lia || reflexivity).
    cbn [mbind option_bind]. rewrite skip_ws_head by reflexivity.
    change (Ascii.eqb "," ",") with true. cbn iota.
    rewrite skip_ws_indent.
    unfold dump_member at 1. rewrite <-!app_assoc, skip_ws_dump_string.
    rewrite IHkvs by lia.
    rewrite string_of_chars. reflexivity.
Qed.

End depth.

Lemma parse_value_S fuel c r :
  parse_value (S fuel) (c :: r)
  = if Ascii.eqb c quote_char then
      '(bs, r') ← parse_string r; Some (JStr (string_of_list_ascii bs), r')
    else if Ascii.eqb c "{" then
      match skip_ws r with
      | c' :: r' =>
          if Ascii.eqb c' "}" then Some (JObj [], r')
          else '(kvs, r'') ← parse_members fuel (c' :: r'); Some (JObj kvs, r'')
      | [] => None
      end
    else if Ascii.eqb c "[" then
      match skip_ws r with
      | c' :: r' =>
          if Ascii.eqb c' "]" then Some (JArr [], r')
          else '(vs, r'') ← parse_items fuel (c' :: r'); Some (JArr vs, r'')
      | [] => None
      end
    else if Ascii.eqb c "n" then r' ← strip (chars "ull") r; Some (JNull, r')
    else if Ascii.eqb c "t" then r' ← strip (chars "rue") r; Some (JBool true, r')
    else if Ascii.eqb c "f" then r' ← strip (chars "alse") r; Some (JBool false, r')
    else '(z, r') ← parse_number (c :: r); Some (JInt z, r').
Proof. reflexivity. Qed.

(** Reading what was written gives the document back, whatever follows it
    (as long as a number is not followed by more of a number). *)
Lemma parse_value_dump n : ∀ j, (size j ≤ n)%nat → ∀ fuel lvl rest,
  (size j ≤ fuel)%nat → number_end rest = true →
  parse_value fuel (dump lvl j ++ rest) = Some (j, rest).
Proof.
  induction n as [|n IHn]; intros j Hn fuel lvl rest Hfuel Hend.
  { pose proof (size_pos j). lia. }
  destruct fuel as [|fuel]; [pose proof (size_pos j); lia|].
  destruct j as [|[]|z|s|[|x xs]|[|kv kvs]]; try reflexivity.
  - destruct (number_head z) as (c & tl & Hhead & Hc).
    pose proof (parse_number_pretty z rest Hend) as Hnum.
    destruct (number_start c Hc) as (_ & _ & _ & H1 & H2 & H3 & H4 & H5 & H6).
    change (dump lvl (JInt z)) with (chars (pretty z)).
    rewrite Hhead in *. rewrite <-app_comm_cons in *.
    by rewrite parse_value_S, H1, H2, H3, H4, H5, H6, Hnum.
  - destruct (parse_dump_string s rest) as (tl & Htl & Hstr).
    change (dump lvl (JStr s)) with (dump_string s).
    rewrite Htl, parse_value_S. change (Ascii.eqb quote_char quote_char) with true.
    cbn iota. rewrite Hstr. cbn [mbind option_bind]. by rewrite string_of_chars.
  - rewrite dump_arr_cons, parse_value_S.
    change (Ascii.eqb "[" quote_char) with false.
    change (Ascii.eqb "[" "{") with false.
    change (Ascii.eqb "[" "[") with true. cbn iota.
    rewrite skip_ws_indent, skip_ws_dump.
    destruct (dump_head (S lvl) x) as (c & tl & Hx & _ & Hc & _).
    rewrite Hx at 1. rewrite <-app_comm_cons, Hc, app_comm_cons, <-Hx.
    simpl size in Hn, Hfuel.
    by rewrite (parse_items_dump n IHn) by lia.
  - rewrite dump_obj_cons, parse_value_S.
    change (Ascii.eqb "{" quote_char) with false.
    change (Ascii.eqb "{" "{") with true. cbn iota.
    rewrite skip_ws_indent, skip_ws_dump_string.
    change (dump_string kv.1 ++ ?r)
      with (quote_char :: (flat_map escape_char (chars kv.1) ++ [quote_char]) ++ r) at 1.
    change (Ascii.eqb quote_char "}") with false. cbn iota.
    change (quote_char :: (flat_map escape_char (chars kv.1) ++ [quote_char]) ++ ?r)
      with (dump_string kv.1 ++ r).
    simpl size in Hn, Hfuel.
    by rewrite (parse_members_dump n IHn) by lia.
Qed.

Lemma nodes_le_flat_map {A} (f : A → nat) (g : A → text) c pre (l : list A) :
  Forall (λ y, f y ≤ length (g y))%nat l →
  (nodes f l ≤ length (flat_map (λ y, c :: pre ++ g y) l))%nat.
Proof.
  induction 1 as [|y l Hy _ IH]; [done|].
  rewrite nodes_cons. simpl. rewrite !length_app. lia.
Qed.

Lemma size_le_length n : ∀ j, (size j ≤ n)%nat → ∀ lvl,
  (size j ≤ length (dump lvl j))%nat.
Proof.
  induction n as [|n IHn]; intros j Hn lvl.
  { pose proof (size_pos j). lia. }
  destruct j as [|[]|z|s|[|x xs]|[|kv kvs]];
    try (change (1 ≤ 2)%nat; lia); try (change (1 ≤ 4)%nat; lia);
    try (change (1 ≤ 5)%nat; lia).
  - destruct (number_head z) as (c & tl & Hhead & _).
    change (dump lvl (JInt z)) with (chars (pretty z)). rewrite Hhead. simpl. lia.
  - rewrite (dump_string_cons s : dump lvl (JStr s) = _). simpl. lia.
  - pose proof (dump_arr_cons lvl x xs []) as Hd. rewrite app_nil_r in Hd.
    rewrite Hd. simpl size in *. rewrite nodes_cons in *.
    cbn [length]. rewrite !length_app. cbn [length].
    pose proof (IHn x ltac:(lia) (S lvl)).
    pose proof (nodes_le_flat_map size (dump (S lvl)) ","%char
                  (newline_indent (S lvl)) xs) as Hxs.
    cbv beta in Hxs.
    assert (Forall (λ y, size y ≤ length (dump (S lvl) y))%nat xs) as HF.
    { apply Forall_forall. intros y Hy. apply IHn.
      assert (S (size y) ≤ nodes size xs)%nat; [|lia].
      clear -Hy. induction Hy as [y l|y z l _ IH]; rewrite nodes_cons; lia. }
    specialize (Hxs HF). lia.
  - pose proof (dump_obj_cons lvl kv kvs []) as Hd. rewrite app_nil_r in Hd.
    rewrite Hd. simpl size in *. rewrite nodes_cons in *.
    cbn [length]. rewrite !length_app. cbn [length].
    pose proof (IHn kv.2 ltac:(lia) (S lvl)).
    pose proof (nodes_le_flat_map (λ kv', size kv'.2)
                  (dump_member (dump (S lvl))) ","%char
                  (newline_indent (S lvl)) kvs) as Hxs.
    cbv beta in Hxs.
    assert (Forall (λ y, size y.2 ≤ length (dump_member (dump (S lvl)) y))%nat kvs)
      as HF.
    { apply Forall_forall. intros y Hy. unfold dump_member. rewrite !length_app.
      assert (size y.2 ≤ length (dump (S lvl) y.2))%nat; [|lia].
      apply IHn.
      assert (S (size y.2) ≤ nodes (λ kv', size kv'.2) kvs)%nat; [|lia].
      clear -Hy. induction Hy as [y l|y z l _ IH]; rewrite nodes_cons; lia. }
    specialize (Hxs HF). lia.
Qed.

(** The round trip of a document through its text. *)
Lemma loads_dumps j : loads (dumps j) = Some j.
Proof.
  unfold loads, dumps.
  pose proof (skip_ws_dump 0 j []) as Hskip. rewrite app_nil_r in Hskip.
  pose proof (parse_value_dump (size j) j (le_n _) (S (length (dump 0 j))) 0 []) as Hp.
  rewrite app_nil_r in Hp. rewrite Hskip, Hp; [done| |done].
  pose proof (size_le_length (size j) j (le_n _) 0). lia.
Qed.

End json_text.

(** ** Match grouping registry *)

Section registry.
Import Json Registry.

(** *** The document and its text *)

Lemma decode_encode_video v : decode_video (encode_video v) = Some v.
Proof. by destruct v as [[s|] [p|]]. Qed.

Lemma decode_encode_videos vs : mapM decode_video (encode_video <$> vs) = Some vs.
Proof.
  induction vs as [|v vs IH]; [done|].
  rewrite fmap_cons. cbn [mapM]. by rewrite decode_encode_video, IH.
Qed.

Lemma decode_encode_group g : decode_group (encode_group g) = Some g.
Proof.
  destruct g as [[r|] [b|] [vs|]]; try reflexivity;
    unfold decode_group, encode_group;
    cbv -[mapM decode_video encode_video fmap];
    change (list_fmap video json encode_video vs) with (encode_video <$> vs);
    by rewrite decode_encode_videos.
Qed.

Lemma assign_fresh name g (m : matches) :
  name ∉ m.*1 → assign name g m = m ++ [(name, g)].
Proof.
  induction m as [|[k g'] m IH]; [done|].
  rewrite fmap_cons, not_elem_of_cons. intros [Hne Hnot]. simpl.
  rewrite bool_decide_eq_false_2 by done. by rewrite IH.
Qed.

Lemma decode_encode_matches m :
  NoDup m.*1 → decode_matches (encode_matches m) = Some m.
Proof.
  intros Hnd. unfold decode_matches, encode_matches.
  enough (∀ acc, NoDup (acc ++ m).*1 →
            foldl (λ acc kv, m0 ← acc; g ← decode_group kv.2; Some (assign kv.1 g m0))
                  (Some acc) ((λ kg, (kg.1, encode_group kg.2)) <$> m)
            = Some (acc ++ m)) as Hgen by (by apply (Hgen [])).
  clear Hnd. induction m as [|[k g] m IH]; intros acc Hnd.
  - by rewrite app_nil_r.
  - rewrite fmap_cons. cbn [foldl fst snd mbind option_bind].
    rewrite decode_encode_group. cbn [mbind option_bind].
    rewrite fmap_app, fmap_cons, NoDup_app in Hnd.
    destruct Hnd as (Hacc & Hdisj & Hm). apply NoDup_cons in Hm as [Hk Hm].
    rewrite assign_fresh by (intros Hin; apply (Hdisj k Hin), list_elem_of_here).
    rewrite IH; [by rewrite <-app_assoc|].
    rewrite <-app_assoc. simpl. rewrite fmap_app, fmap_cons, NoDup_app.
    split_and!; [done| |by apply NoDup_cons].
    intros x Hx. by apply Hdisj.
Qed.

Lemma load_save m st :
  NoDup m.*1 → load_matches (save_matches m st) = Ok m.
Proof.
  intros Hnd. unfold load_matches, save_matches.
  rewrite loads_dumps. cbn [mbind option_bind].
  by rewrite decode_encode_matches.
Qed.

(** *** The dictionary *)

Lemma lookup_assign_eq name g (m : matches) : lookup name (assign name g m) = Some g.
Proof.
  induction m as [|[k g'] m IH]; simpl.
  - by rewrite bool_decide_eq_true_2.
  - destruct (decide (k = name)) as [->|Hne].
    + rewrite bool_decide_eq_true_2 by done. simpl.
      by rewrite bool_decide_eq_true_2.
    + rewrite bool_decide_eq_false_2 by done. simpl.
      by rewrite bool_decide_eq_false_2.
Qed.

Lemma lookup_assign_ne name name' g (m : matches) :
  name ≠ name' → lookup name' (assign name g m) = lookup name' m.
Proof.
  intros Hne. induction m as [|[k g'] m IH]; simpl.
  - by rewrite bool_decide_eq_false_2.
  - destruct (decide (k = name)) as [->|Hk].
    + rewrite bool_decide_eq_true_2 by done. simpl.
      by rewrite !bool_decide_eq_false_2.
    + rewrite (bool_decide_eq_false_2 (k = name)) by done. simpl.
      by rewrite IH.
Qed.

Lemma lookup_None name (m : matches) : lookup name m = None ↔ name ∉ m.*1.
Proof.
  induction m as [|[k g] m IH]; simpl.
  - split; [intros _; apply not_elem_of_nil|done].
  - rewrite not_elem_of_cons.
    case_bool_decide as Hk; [|rewrite IH]; intuition congruence.
Qed.

Lemma lookup_Some_elem name g (m : matches) :
  lookup name m = Some g → (name, g) ∈ m.
Proof.
  induction m as [|[k g'] m IH]; simpl; [done|].
  case_bool_decide as Hk.
  - intros [= ->]. subst k. apply list_elem_of_here.
  - intros Hl. apply list_elem_of_further. by apply IH.
Qed.

Lemma assign_keys name g (m : matches) :
  (assign name g m).*1 = if decide (name ∈ m.*1) then m.*1 else m.*1 ++ [name].
Proof.
  induction m as [|[k g'] m IH].
  - destruct (decide (name ∈ ([] : matches).*1)) as [Hin|_]; [|done].
    by apply elem_of_nil in Hin.
  - cbn [assign]. rewrite fmap_cons. cbn [fst].
    destruct (decide (k = name)) as [->|Hk].
    + rewrite bool_decide_eq_true_2 by done.
      rewrite decide_True by apply list_elem_of_here. done.
    + rewrite bool_decide_eq_false_2 by done. rewrite fmap_cons, IH. cbn [fst].
      destruct (decide (name ∈ m.*1)) as [Hin|Hin].
      * rewrite decide_True by (by apply list_elem_of_further). done.
      * rewrite decide_False; [done|].
        rewrite not_elem_of_cons. split; [congruence|done].
Qed.

Lemma assign_NoDup name g (m : matches) : NoDup m.*1 → NoDup (assign name g m).*1.
Proof.
  intros Hnd. rewrite assign_keys. case_decide as Hin; [done|].
  apply NoDup_app. split_and!; [done| |apply NoDup_singleton].
  intros x Hx ->%list_elem_of_singleton. done.
Qed.

Lemma assign_Forall (P : group → Prop) name g (m : matches) :
  Forall (λ kg, P kg.2) m → P g → Forall (λ kg, P kg.2) (assign name g m).
Proof.
  intros Hm Hg. induction Hm as [|[k g'] m Hkg Hm IH]; simpl.
  - by constructor.
  - case_bool_decide; constructor; done.
Qed.

Lemma lookup_Forall (P : group → Prop) name g (m : matches) :
  Forall (λ kg, P kg.2) m → lookup name m = Some g → P g.
Proof.
  intros Hm Hl. apply lookup_Some_elem in Hl.
  rewrite Forall_forall in Hm. by apply (Hm (name, g)).
Qed.

Lemma decode_matches_NoDup j m : decode_matches j = Some m → NoDup m.*1.
Proof.
  destruct j as [| | | | |kvs]; try done. simpl.
  enough (∀ acc : option matches,
            (∀ a, acc = Some a → NoDup a.*1) →
            ∀ m, foldl (λ acc kv, m0 ← acc; g ← decode_group kv.2;
                                   Some (assign kv.1 g m0)) acc kvs = Some m →
            NoDup m.*1) as Hgen.
  { apply Hgen. intros a [= <-]. apply NoDup_nil_2. }
  induction kvs as [|[k gj] kvs IH]; intros acc Hacc m'; simpl.
  - apply Hacc.
  - apply IH. intros a Ha.
    destruct acc as [a0|]; [|done]. simpl in Ha.
    destruct (decode_group gj) as [g|]; [|done]. simpl in Ha.
    injection Ha as <-. by apply assign_NoDup, Hacc.
Qed.

Lemma load_matches_NoDup st m : load_matches st = Ok m → NoDup m.*1.
Proof.
  destruct st as [t|]; simpl.
  - destruct (Json.loads t ≫= decode_matches) as [m'|] eqn:Hd; [|done].
    intros [= <-]. destruct (Json.loads t) as [j|]; [|done].
    by apply (decode_matches_NoDup j).
  - intros [= <-]. apply NoDup_nil_2.
Qed.

(** *** The sort *)

Lemma insert_by_part_perm v l : insert_by_part v l ≡ₚ v :: l.
Proof.
  induction l as [|w l IH]; simpl; [done|].
  destruct (part_key v <=? part_key w); [done|].
  by rewrite IH, Permutation_swap.
Qed.

Lemma sort_by_part_perm l : sort_by_part l ≡ₚ l.
Proof.
  induction l as [|v l IH]; simpl; [done|].
  by rewrite insert_by_part_perm, IH.
Qed.

Lemma insert_by_part_sorted v l :
  Sorted part_le l → Sorted part_le (insert_by_part v l).
Proof.
  induction 1 as [|w l Hl IH Hhd]; simpl.
  - by repeat constructor.
  - destruct (part_key v <=? part_key w) eqn:Hle.
    + apply Z.leb_le in Hle. by repeat constructor.
    + apply Z.leb_gt in Hle. constructor; [done|].
      destruct Hhd as [|x l Hwx]; simpl.
      * constructor. unfold part_le. lia.
      * destruct (part_key v <=? part_key x); constructor;
          unfold part_le in *; lia.
Qed.

Lemma sort_by_part_sorted l : Sorted part_le (sort_by_part l).
Proof.
  induction l as [|v l IH]; simpl; [constructor|].
  by apply insert_by_part_sorted.
Qed.

(** The sort is stable: the entries of one part keep their order. *)
Lemma sort_by_part_stable k l :
  filter (λ v, part_key v = k) (sort_by_part l) = filter (λ v, part_key v = k) l.
Proof.
  induction l as [|v l IH]; [done|]. simpl.
  rewrite filter_cons, <-IH. generalize (sort_by_part l). clear. intros l.
  induction l as [|w l IH]; simpl; [done|].
  destruct (part_key v <=? part_key w) eqn:Hle; [done|].
  apply Z.leb_gt in Hle. rewrite !filter_cons, IH.
  repeat case_decide; try done; lia.
Qed.

(** *** One call *)

Lemma in_group_stems m name stem :
  in_group m name stem ↔
  ∃ g vs, lookup name m = Some g ∧ videos g = Some vs
          ∧ Some stem ∈ video_stem <$> vs.
Proof.
  unfold in_group. split.
  - intros (g & vs & v & Hg & Hvs & Hv & Hs). exists g, vs.
    split_and!; [done..|]. apply list_elem_of_fmap. by exists v.
  - intros (g & vs & Hg & Hvs & (v & Hs & Hv)%list_elem_of_fmap).
    by exists g, vs, v.
Qed.

Lemma set_part_written stem p vs :
  Forall written_video vs →
  ∃ vs', set_part stem p vs
         = Ok (bool_decide (Some stem ∈ video_stem <$> vs), vs')
         ∧ video_stem <$> vs' = video_stem <$> vs
         ∧ Forall written_video vs'.
Proof.
  induction 1 as [|v vs [[s Hs] Hp] Hvs IH].
  - exists []. by split_and!; [|done|constructor].
  - cbn [set_part]. rewrite fmap_cons, Hs.
    destruct (decide (s = stem)) as [->|Hne].
    + rewrite bool_decide_eq_true_2 by done.
      exists (Video (Some stem) (Some p) :: vs). split_and!.
      * by rewrite bool_decide_eq_true_2 by apply list_elem_of_here.
      * by rewrite fmap_cons.
      * constructor; [by split|done].
    + rewrite bool_decide_eq_false_2 by done.
      destruct IH as (vs' & -> & Hstems & Hw). cbn [bind fst snd].
      exists (v :: vs'). split_and!.
      * do 2 f_equal. apply bool_decide_ext.
        rewrite elem_of_cons. intuition congruence.
      * by rewrite fmap_cons, Hs, Hstems.
      * by constructor.
Qed.

(** What a call does to the names and to the other groups, whatever the
    collection holds. *)
Lemma upsert_group_frame m name stem p red blue m' :
  upsert_group m name stem p red blue = Ok m' →
  (∀ other, other ≠ name → lookup other m' = lookup other m)
  ∧ (∀ g, lookup name m = Some g →
       ∃ g', lookup name m' = Some g'
             ∧ red_name g' = (if bool_decide (red = "") then red_name g else Some red)
             ∧ blue_name g' = (if bool_decide (blue = "") then blue_name g
                               else Some blue))
  ∧ (NoDup m.*1 → NoDup m'.*1).
Proof.
  unfold upsert_group.
  set (m1 := match lookup name m with
             | None => assign name (Group (Some red) (Some blue) (Some [])) m
             | Some _ => m
             end).
  assert (Hother : ∀ other, other ≠ name → lookup other m1 = lookup other m).
  { intros other Hne. unfold m1. destruct (lookup name m); [done|].
    by apply lookup_assign_ne. }
  assert (Hnd : NoDup m.*1 → NoDup m1.*1).
  { unfold m1. destruct (lookup name m); [done|]. apply assign_NoDup. }
  assert (Hsame : ∀ g, lookup name m = Some g → lookup name m1 = Some g).
  { intros g Hg. unfold m1. by rewrite Hg. }
  destruct (videos _) as [vs|] eqn:Hvs; [|done]. simpl.
  destruct (set_part stem p vs) as [[found vs']|e]; [|done]. simpl.
  intros [= <-]. split_and!.
  - intros other Hne. rewrite lookup_assign_ne by done. by apply Hother.
  - intros g Hg. rewrite lookup_assign_eq. eexists. split; [done|].
    rewrite (Hsame g Hg). simpl.
    destruct (bool_decide (red = "")), (bool_decide (blue = "")); done.
  - intros Hm. by apply assign_NoDup, Hnd.
Qed.

(** A call on a collection this code wrote succeeds, leaves such a
    collection, and adds the video to the group it names and to no other. *)
Lemma upsert_group_written m name stem p red blue :
  written m →
  ∃ m', upsert_group m name stem p red blue = Ok m'
        ∧ written m'
        ∧ ∀ n s, in_group m' n s ↔ in_group m n s ∨ (n = name ∧ s = stem).
Proof.
  intros [Hnd Hw]. unfold upsert_group.
  set (g0 := Group (Some red) (Some blue) (Some [])).
  set (m1 := match lookup name m with
             | None => assign name g0 m
             | Some _ => m
             end).
  assert (Hg0 : written_group g0).
  { split_and!; [done..|]. exists []. split_and!; [done|constructor..]. }
  assert (Hw1 : written m1).
  { unfold m1. destruct (lookup name m); [done|].
    split; [by apply assign_NoDup|by apply assign_Forall]. }
  assert (Hin1 : ∀ n s, in_group m1 n s ↔ in_group m n s).
  { intros n s. unfold m1. destruct (lookup name m) eqn:Hl; [done|].
    rewrite !in_group_stems. destruct (decide (n = name)) as [->|Hne].
    - rewrite lookup_assign_eq, Hl. split.
      + intros (g & vs & [= <-] & [= <-] & Hs). by apply elem_of_nil in Hs.
      + by intros (g & vs & ? & _).
    - by rewrite lookup_assign_ne. }
  assert (∃ g, lookup name m1 = Some g) as [g Hg].
  { unfold m1. destruct (lookup name m) eqn:Hl; [by eexists|].
    rewrite lookup_assign_eq. by eexists. }
  rewrite Hg. cbn [default from_option id].
  destruct Hw1 as [Hnd1 Hw1].
  pose proof (lookup_Forall written_group name g m1 Hw1 Hg)
    as ([r Hr] & [b Hb] & vs & Hvs & Hwv & Hsorted & Hndv).
  set (g2 := if bool_decide (blue = "") then _ else _).
  assert (Hg2 : videos g2 = Some vs ∧ is_Some (red_name g2) ∧ is_Some (blue_name g2)).
  { unfold g2. destruct (bool_decide (red = "")), (bool_decide (blue = ""));
      simpl; rewrite ?Hr, ?Hb; by split_and!. }
  destruct Hg2 as (Hvs2 & Hr2 & Hb2). rewrite Hvs2. simpl.
  destruct (set_part_written stem p vs Hwv) as (vs' & -> & Hstems & Hwv').
  simpl.
  set (vs2 := if bool_decide _ then vs' else vs' ++ _).
  assert (Hstems2 : ∀ s, Some s ∈ video_stem <$> vs2
                         ↔ Some s ∈ video_stem <$> vs ∨ s = stem).
  { intros s. unfold vs2. case_bool_decide as Hfound.
    - rewrite Hstems. split; [by left|]. intros [?| ->]; done.
    - rewrite fmap_app, elem_of_app, Hstems. simpl.
      rewrite list_elem_of_singleton. split; (intros [?|?]; [by left|right]);
        congruence. }
  assert (Hnd2 : NoDup (video_stem <$> vs2)).
  { unfold vs2. case_bool_decide as Hfound; rewrite ?fmap_app, ?Hstems; [done|].
    apply NoDup_app. split_and!; [done| |apply NoDup_singleton].
    intros x Hx ->%list_elem_of_singleton. done. }
  assert (Hwv2 : Forall written_video vs2).
  { unfold vs2. case_bool_decide; [done|].
    apply Forall_app. split; [done|]. by repeat constructor. }
  eexists. split; [reflexivity|]. split.
  - split; [by apply assign_NoDup|]. apply assign_Forall; [done|].
    split_and!; [done..|]. eexists. split_and!; [reflexivity|..].
    + by rewrite sort_by_part_perm.
    + apply sort_by_part_sorted.
    + by rewrite sort_by_part_perm.
  - intros n s. rewrite <-Hin1, !in_group_stems.
    destruct (decide (n = name)) as [->|Hne].
    + rewrite lookup_assign_eq, Hg. split.
      * intros (g' & vs3 & [= <-] & [= <-] & Hs).
        rewrite sort_by_part_perm in Hs. apply Hstems2 in Hs as [Hs| ->].
        -- left. by exists g, vs.
        -- by right.
      * intros Hs. eexists _, _. split_and!; [reflexivity..|].
        rewrite sort_by_part_perm. apply Hstems2.
        destruct Hs as [(g' & vs3 & [= <-] & Hvs3 & Hs)|[_ ->]]; [left|by right].
        rewrite Hvs in Hvs3. by injection Hvs3 as <-.
    + rewrite lookup_assign_ne by done. split; [by left|].
      intros [?|[? _]]; done.
Qed.

(** *** The file *)

Lemma save_match_group_load st name stem p red blue m m' :
  load_matches st = Ok m →
  upsert_group m name stem p red blue = Ok m' →
  NoDup m'.*1 →
  save_match_group st name stem p red blue = Ok (save_matches m' st)
  ∧ load_matches (save_matches m' st) = Ok m'.
Proof.
  intros Hload Hup Hnd. unfold save_match_group.
  rewrite Hload. cbn [bind]. rewrite Hup. cbn [bind].
  split; [done|by apply load_save].
Qed.

Lemma written_nil : written [].
Proof. split; [apply NoDup_nil_2|constructor]. Qed.

Lemma run_written cs : ∀ st m,
  load_matches st = Ok m → written m →
  ∃ st' m', run cs st = Ok st' ∧ load_matches st' = Ok m' ∧ written m'
            ∧ ∀ n s, in_group m' n s ↔ in_group m n s ∨ saved_under cs n s.
Proof.
  induction cs as [|c cs IH]; intros st m Hload Hw.
  - exists st, m. split_and!; [done..|]. intros n s. split; [by left|].
    intros [?|(c & Hc & _)]; [done|]. by apply elem_of_nil in Hc.
  - destruct (upsert_group_written m (call_match c) (call_video c) (call_part c)
                (call_red c) (call_blue c) Hw) as (m1 & Hup & Hw1 & Hin1).
    destruct (save_match_group_load st _ _ _ _ _ m m1 Hload Hup (proj1 Hw1))
      as [Hsave Hload1].
    destruct (IH _ m1 Hload1 Hw1) as (st' & m' & Hrun & Hload' & Hw' & Hin').
    exists st', m'. split_and!; [|done..|].
    + cbn [run]. unfold do_call. rewrite Hsave. exact Hrun.
    + intros n s. rewrite Hin', Hin1. unfold saved_under. split.
      * intros [[?|[-> ->]]|(c' & Hc' & ?)]; [by left|right..].
        -- exists c. split; [apply list_elem_of_here|done].
        -- exists c'. split; [by apply list_elem_of_further|done].
      * intros [?|(c' & [->|Hc']%elem_of_cons & <- & <-)].
        -- by left; left.
        -- by left; right.
        -- right. by exists c'.
Qed.

(** C3, as the code has it.  After any sequence of calls from the empty
    store, a video is an entry of exactly the groups it was saved under; so
    no video is in two groups as long as every video was always saved under
    one match name. *)
Theorem video_groups_are_saved_under cs :
  ∃ st m, run cs empty_store = Ok st ∧ load_matches st = Ok m
          ∧ (∀ name stem, in_group m name stem ↔ saved_under cs name stem)
          ∧ (∀ name g vs, lookup name m = Some g → videos g = Some vs →
                          NoDup (video_stem <$> vs))
          ∧ ((∀ c c', c ∈ cs → c' ∈ cs → call_video c = call_video c' →
                      call_match c = call_match c') →
             one_group_per_video m).
Proof.
  destruct (run_written cs empty_store [] eq_refl written_nil)
    as (st & m & Hrun & Hload & [_ Hw] & Hin).
  assert (Hin' : ∀ name stem, in_group m name stem ↔ saved_under cs name stem).
  { intros name stem. rewrite Hin. split; [|by right].
    intros [(g & vs & v & Hg & _)|?]; done. }
  exists st, m. split_and!; [done..| |].
  - intros name g vs Hg Hvs.
    destruct (lookup_Forall written_group name g m Hw Hg)
      as (_ & _ & vs' & Hvs' & _ & _ & Hnd).
    rewrite Hvs in Hvs'. by injection Hvs' as <-.
  - intros Hone stem n1 n2 (c1 & Hc1 & <- & Hs1)%Hin' (c2 & Hc2 & <- & Hs2)%Hin'.
    apply Hone; congruence.
Qed.

(** C4.  After any sequence of calls from the empty store, the videos of
    every group are in ascending order of their parts and no stem occurs
    twice among them. *)
Theorem match_groups_sorted cs :
  ∃ st m, run cs empty_store = Ok st ∧ load_matches st = Ok m
          ∧ ∀ name g, lookup name m = Some g →
              ∃ vs, videos g = Some vs
                    ∧ StronglySorted part_le vs
                    ∧ NoDup (video_stem <$> vs)
                    ∧ Forall written_video vs.
Proof.
  destruct (run_written cs empty_store [] eq_refl written_nil)
    as (st & m & Hrun & Hload & [_ Hw] & _).
  exists st, m. split_and!; [done..|]. intros name g Hg.
  destruct (lookup_Forall written_group name g m Hw Hg)
    as (_ & _ & vs & Hvs & Hwv & Hsorted & Hnd).
  exists vs. split_and!; [done| |done..].
  apply Sorted_StronglySorted; [|done].
  intros x y z. unfold part_le. lia.
Qed.

(** C8.  On a file that holds a collection of match groups, a call of
    [save_match_group] changes a stored fighter name of its group only to a
    non-empty argument, and leaves every other group as it was; this also
    when the call raises, which leaves the file as it was. *)
Theorem save_match_group_names st m name stem p red blue :
  load_matches st = Ok m →
  let st' := store_after st (save_match_group st name stem p red blue) in
  ∃ m', load_matches st' = Ok m'
        ∧ (∀ other, other ≠ name → lookup other m' = lookup other m)
        ∧ match lookup name m with
          | Some g =>
              ∃ g', lookup name m' = Some g'
                    ∧ (red_name g' = red_name g
                       ∨ (red ≠ "" ∧ red_name g' = Some red))
                    ∧ (blue_name g' = blue_name g
                       ∨ (blue ≠ "" ∧ blue_name g' = Some blue))
                    ∧ (red = "" → red_name g' = red_name g)
                    ∧ (blue = "" → blue_name g' = blue_name g)
          | None => True
          end.
Proof.
  intros Hload st'. subst st'. unfold save_match_group.
  rewrite Hload. cbn [bind].
  destruct (upsert_group m name stem p red blue) as [m'|e] eqn:Hup; cbn [bind store_after].
  - destruct (upsert_group_frame _ _ _ _ _ _ _ Hup) as (Hother & Hname & Hnd).
    exists m'. split_and!; [|done|].
    + apply load_save, Hnd. by eapply load_matches_NoDup.
    + destruct (lookup name m) as [g|]; [|done].
      destruct (Hname g eq_refl) as (g' & Hg' & Hr & Hb).
      exists g'. split; [done|]. rewrite Hr, Hb.
      repeat case_bool_decide; split_and!; auto; done.
  - exists m. split_and!; [done..|].
    destruct (lookup name m) as [g|]; [|done]. exists g. split_and!; auto.
Qed.

(** C9.  Saving a collection of match groups with [save_matches] and loading
    it again with [load_matches] gives the same collection, through the text
    that is written to the file in between. *)
Theorem matches_round_trip m st :
  NoDup m.*1 →
  save_matches m st = Some (Json.dumps (encode_matches m))
  ∧ load_matches (save_matches m st) = Ok m.
Proof.
  intros Hdict. split; [reflexivity|].
  unfold save_matches, load_matches.
  rewrite (loads_dumps (encode_matches m)). cbn [mbind option_bind].
  by rewrite (decode_encode_matches m Hdict).
Qed.

End registry.

Lemma stats_bounds_witness :
  Qle (Repo.progress_pct
         (Repo.get_annotation_stats (example_world 3) example_store_red "match01" 1))
      100.
Proof.
  apply (proj1 (proj2 (proj2 (proj2
           (stats_bounds (example_world 3) example_store_red "match01" 1))))).
  vm_compute. discriminate.
Defined.

Lemma video_groups_are_saved_under_witness :
  ∃ st m, Registry.run example_calls Registry.empty_store = Registry.Ok st
          ∧ Registry.load_matches st = Registry.Ok m
          ∧ Registry.one_group_per_video m.
Proof.
  destruct (video_groups_are_saved_under example_calls)
    as (st & m & Hrun & Hload & _ & _ & Hone).
  exists st, m. split; [exact Hrun|]. split; [exact Hload|].
  apply Hone. unfold example_calls. intros c c' Hc Hc' _.
  rewrite !elem_of_cons, elem_of_nil in Hc, Hc'.
  destruct Hc as [->|[->|[]]], Hc' as [->|[->|[]]]; reflexivity.
Defined.

(** C3, as the specification words it, fails: a video saved under a second
    match name is then an entry of both groups, and [get_match_for_video]
    still answers with the first. *)
Lemma one_group_per_video_counterexample :
  ∃ st m, Registry.run example_reassign Registry.empty_store = Registry.Ok st
          ∧ Registry.load_matches st = Registry.Ok m
          ∧ Registry.in_group m "Semi" "clip"
          ∧ Registry.in_group m "Final" "clip"
          ∧ ¬ Registry.one_group_per_video m
          ∧ Registry.info_match_name
              <$> default None (match Registry.get_match_for_video st "clip" with
                                | Registry.Ok o => Some o
                                | Registry.Raise _ => None
                                end)
            = Some "Semi".
Proof.
  set (g := Registry.Group (Some "Kim") (Some "Lee")
              (Some [Registry.Video (Some "clip") (Some 1)])).
  assert (Hsemi : Registry.in_group [("Semi", g); ("Final", g)] "Semi" "clip").
  { exists g, [Registry.Video (Some "clip") (Some 1)], (Registry.Video (Some "clip") (Some 1)).
    split_and!; [reflexivity..|apply list_elem_of_here|reflexivity]. }
  assert (Hfinal : Registry.in_group [("Semi", g); ("Final", g)] "Final" "clip").
  { exists g, [Registry.Video (Some "clip") (Some 1)], (Registry.Video (Some "clip") (Some 1)).
    split_and!; [reflexivity..|apply list_elem_of_here|reflexivity]. }
  eexists _, [("Semi", g); ("Final", g)].
  split; [by vm_compute|]. split; [by vm_compute|].
  split_and!; [done..| |by vm_compute].
  intros Hone. by specialize (Hone "clip" "Semi" "Final" Hsemi Hfinal).
Qed.

Lemma matches_round_trip_witness :
  Registry.load_matches (Registry.save_matches example_matches Registry.empty_store)
  = Registry.Ok example_matches.
Proof.
  apply (proj2 (matches_round_trip example_matches Registry.empty_store
                  ltac:(apply (bool_decide_unpack _); vm_compute; exact I))).
Defined.

(** * Further properties *)

(** ** Annotation repository: more of its behaviour *)

Section repo_more.
Import Repo.
Context `{PyRuntime}.

Lemma find_insert_miss (f : pydict → bool) l i a b :
  l !! i = Some b → f a = false → f b = false →
  List.find f (<[i := a]> l) = List.find f l.
Proof.
  revert i. induction l as [|x l IH]; intros i Hl Ha Hb; [done|].
  destruct i as [|i]; simpl in *.
  - injection Hl as ->. by rewrite Ha, Hb.
  - destruct (f x); [done|]. by apply IH.
Qed.

Lemma find_app_miss (f : pydict → bool) l a :
  f a = false → List.find f (l ++ [a]) = List.find f l.
Proof.
  intros Ha. induction l as [|x l IH]; simpl; [by rewrite Ha|].
  by destruct (f x).
Qed.

Lemma find_filter_other (f g : pydict → bool) l :
  (∀ a, f a = true → g a = false) →
  List.find f (List.filter (λ a, negb (g a)) l) = List.find f l.
Proof.
  intros Hfg. induction l as [|x l IH]; [done|]. simpl.
  destruct (g x) eqn:Hg; simpl.
  - destruct (f x) eqn:Hf; [|done]. by rewrite (Hfg x Hf) in Hg.
  - by rewrite IH.
Qed.

Lemma find_filter_same (f : pydict → bool) l :
  List.find f (List.filter (λ a, negb (f a)) l) = None.
Proof.
  induction l as [|x l IH]; [done|]. simpl.
  destruct (f x) eqn:Hf; simpl; [done|]. by rewrite Hf.
Qed.

(** Two keys that one record carries are equal. *)
Lemma same_event_both sf ef fc sf' ef' fc' a :
  same_event sf ef fc a = true → same_event sf' ef' fc' a = true →
  py_eq sf' sf && py_eq ef' ef && py_eq fc' fc = true.
Proof.
  unfold same_event. rewrite !andb_true_iff.
  intros [[H1 H2] H3] [[H1' H2'] H3']. split_and!.
  - apply (py_eq_trans _ (dget a "start_frame")); [by rewrite py_eq_sym|done].
  - apply (py_eq_trans _ (dget a "end_frame")); [by rewrite py_eq_sym|done].
  - apply (py_eq_trans _ (dget a "fighter_color")); [by rewrite py_eq_sym|done].
Qed.

Lemma same_event_record sf ef fc video e c who b now ident :
  same_event sf ef fc (<["annotation_id" := ident]>
                         (new_annotation video e c who b now))
  = py_eq (key_start e) sf && py_eq (key_end e) ef && py_eq (key_color e c) fc.
Proof.
  unfold same_event, dget.
  rewrite record_start_frame, record_end_frame, record_fighter_color.
  reflexivity.
Qed.

Lemma add_annotation_files w st video e c who video' :
  video' ≠ video →
  let st' := (add_annotation w st video e c who).2 in
  ann_files st' !! video' = ann_files st !! video'
  ∧ bak_files st' !! video' = bak_files st !! video'.
Proof.
  intros Hne. unfold add_annotation.
  destruct (existing_idx _ _ _ _); cbn [fst snd]; unfold save_annotations;
    cbn [ann_files bak_files]; (split; [by rewrite lookup_insert_ne|]);
    destruct (ann_files st !! video); by rewrite ?lookup_insert_ne.
Qed.

Lemma add_annotation_repo w st video e c who :
  repo_files (add_annotation w st video e c who).2 = repo_files st.
Proof. unfold add_annotation. by destruct (existing_idx _ _ _ _). Qed.

Lemma delete_annotation_files w st video sf ef fc video' :
  video' ≠ video →
  let st' := (delete_annotation w st video sf ef fc).2 in
  ann_files st' !! video' = ann_files st !! video'
  ∧ bak_files st' !! video' = bak_files st !! video'.
Proof.
  intros Hne. unfold delete_annotation.
  destruct (_ <? _)%nat; cbn [fst snd]; [|done]. unfold save_annotations.
  cbn [ann_files bak_files]. split; [by rewrite lookup_insert_ne|].
  destruct (ann_files st !! video); by rewrite ?lookup_insert_ne.
Qed.

Lemma delete_annotation_repo w st video sf ef fc :
  repo_files (delete_annotation w st video sf ef fc).2 = repo_files st.
Proof. unfold delete_annotation. by destruct (_ <? _)%nat. Qed.

Lemma find_after_add w st video e c who sf ef fc :
  py_eq sf (key_start e) && py_eq ef (key_end e) && py_eq fc (key_color e c)
  = false →
  List.find (same_event sf ef fc)
            (stored_annotations (add_annotation w st video e c who).2 video)
  = List.find (same_event sf ef fc) (stored_annotations st video).
Proof.
  intros Hne.
  destruct (add_annotation_spec w st video e c who) as [_ ->].
  set (l := stored_annotations st video).
  assert (Hrec : ∀ b ident, same_event sf ef fc
            (<["annotation_id" := ident]>
               (new_annotation video e c who b (clock_create w))) = false).
  { intros b ident. rewrite same_event_record.
    by rewrite (py_eq_sym (key_start e)), (py_eq_sym (key_end e)),
      (py_eq_sym (key_color e c)). }
  destruct (existing_idx l _ _ _) as [i|] eqn:Hidx.
  - apply existing_idx_Some in Hidx as (b & Hb & Hhit & _).
    apply (find_insert_miss _ _ _ _ b); [done|apply Hrec|].
    destruct (same_event sf ef fc b) eqn:Hb'; [|done].
    by rewrite (same_event_both _ _ _ _ _ _ b Hhit Hb') in Hne.
  - apply find_app_miss, Hrec.
Qed.

(** X1.  [add_annotation] writes under one identity key of one video: the
    lookup of any other video, and of any key of the same video that differs
    from the key of the call in one of its three components, answers after
    the call what it answered before. *)
Theorem add_annotation_other_keys w w' st video video' e c who sf ef fc :
  video' ≠ video
  ∨ py_eq sf (key_start e) && py_eq ef (key_end e) && py_eq fc (key_color e c)
    = false →
  get_annotation_for_event w' (add_annotation w st video e c who).2 video'
    sf ef fc
  = get_annotation_for_event w' st video' sf ef fc.
Proof.
  intros Hne. unfold get_annotation_for_event. rewrite !load_annotations_clock.
  destruct (decide (video' = video)) as [->|Hv].
  - destruct Hne as [?|Hne]; [done|]. by rewrite find_after_add.
  - f_equal. unfold stored_annotations, load_annotations.
    destruct (add_annotation_files w st video e c who video' Hv) as [-> _].
    by rewrite add_annotation_repo.
Qed.


(** X2.  After [delete_annotation] no record carries the key, whatever the
    collection held (also several records for the key); a second delete of
    the key answers false and leaves the store as it is; and the lookup of
    every other key answers what it answered before. *)
Theorem delete_annotation_clears w w' w2 st video sf ef fc :
  let r := delete_annotation w st video sf ef fc in
  get_annotation_for_event w' r.2 video sf ef fc = None
  ∧ count_event sf ef fc (stored_annotations r.2 video) = 0%nat
  ∧ delete_annotation w2 r.2 video sf ef fc = (false, r.2)
  ∧ ∀ sf' ef' fc',
      py_eq sf' sf && py_eq ef' ef && py_eq fc' fc = false →
      get_annotation_for_event w' r.2 video sf' ef' fc'
      = get_annotation_for_event w' st video sf' ef' fc'.
Proof.
  intros r.
  destruct (delete_annotation_spec w st video sf ef fc) as (_ & Hl & _).
  fold r in Hl.
  assert (Hcount : count_event sf ef fc (stored_annotations r.2 video) = 0%nat).
  { rewrite Hl. apply count_event_none, List.Forall_forall.
    intros a [_ Ha]%filter_In. by apply negb_true_iff. }
  split_and!.
  - unfold get_annotation_for_event. rewrite load_annotations_clock, Hl.
    apply find_filter_same.
  - done.
  - destruct (delete_annotation_spec w2 r.2 video sf ef fc) as (Hb & _ & Hst).
    rewrite Hcount in Hb.
    destruct (delete_annotation w2 r.2 video sf ef fc) as [b st'].
    simpl in Hb, Hst. subst b. by rewrite Hst.
  - intros sf' ef' fc' Hne. unfold get_annotation_for_event.
    rewrite !load_annotations_clock, Hl. apply find_filter_other.
    intros a Ha. destruct (same_event sf ef fc a) eqn:Ha'; [|done].
    by rewrite (same_event_both _ _ _ _ _ _ a Ha' Ha) in Hne.
Qed.

(** X3.  When no record carries the key of an event, adding an annotation
    for it and then deleting it gives back the records that were there: the
    delete answers true and the video has the list of records it had before
    the add. *)
Theorem add_then_delete_restores w w2 st video e c who :
  get_annotation_for_event w st video (key_start e) (key_end e) (key_color e c)
  = None →
  let r := add_annotation w st video e c who in
  let d := delete_annotation w2 r.2 video (key_start e) (key_end e)
             (key_color e c) in
  d.1 = true
  ∧ stored_annotations d.2 video = stored_annotations st video.
Proof.
  intros Hnone r d.
  assert (Hidx : existing_idx (stored_annotations st video) (key_start e)
                   (key_end e) (key_color e c) = None).
  { unfold get_annotation_for_event in Hnone.
    rewrite load_annotations_clock in Hnone.
    destruct (existing_idx _ _ _ _) as [i|] eqn:Hi; [|done].
    pose proof Hi as (b & Hb & _)%existing_idx_Some.
    by rewrite (find_existing _ _ _ _ i b Hi Hb) in Hnone. }
  destruct (add_annotation_spec w st video e c who) as [_ Hl'].
  rewrite Hidx in Hl'. fold r in Hl'.
  destruct (delete_annotation_spec w2 r.2 video (key_start e) (key_end e)
              (key_color e c)) as (Hb & Hl & _).
  fold d in Hb, Hl. rewrite Hl' in Hb, Hl.
  apply existing_idx_None in Hidx.
  split.
  - rewrite Hb. apply bool_decide_eq_true.
    rewrite count_event_app, count_event_cons, record_hit. lia.
  - rewrite Hl, List.filter_app. cbn [List.filter]. rewrite record_hit.
    cbn [negb]. by rewrite app_nil_r, filter_keep_all.
Qed.

(** X4.  A write keeps what it replaces: when the video has a file in the
    annotations directory, a call of [add_annotation] or [delete_annotation]
    either leaves the store untouched or leaves that file, as it was, in the
    [.json.bak] sidecar. *)
Theorem write_keeps_backup st o old :
  ann_files st !! op_video o = Some old →
  let st' := apply_op st o in
  st' = st ∨ bak_files st' !! op_video o = Some old.
Proof.
  intros Hold st'. subst st'. destruct o as [w video e c who|w video sf ef fc];
    simpl in *.
  - right. unfold add_annotation.
    destruct (existing_idx _ _ _ _); cbn [fst snd]; unfold save_annotations;
      cbn [bak_files]; by rewrite Hold, lookup_insert_eq.
  - unfold delete_annotation. destruct (_ <? _)%nat; cbn [fst snd]; [|by left].
    right. unfold save_annotations. cbn [bak_files].
    by rewrite Hold, lookup_insert_eq.
Qed.

Lemma save_annotations_kept st video d :
  well_kept st → one_per_key (annotations_of d) → is_Some (doc_annotations d) →
  well_kept (save_annotations st video d).
Proof.
  intros Hst Hone Hsome video'.
  destruct (decide (video = video')) as [<-|Hne].
  - rewrite stored_save. split; [done|]. intros d'.
    unfold save_annotations. cbn [ann_files]. rewrite lookup_insert_eq.
    intros [= <-]. split; [|done]. unfold count_recorded. cbn [doc_meta].
    by rewrite lookup_insert_eq.
  - rewrite stored_save_ne by done. split; [apply Hst|]. intros d'.
    unfold save_annotations. cbn [ann_files]. rewrite lookup_insert_ne by done.
    apply Hst.
Qed.

Lemma apply_op_kept st o : well_kept st → well_kept (apply_op st o).
Proof.
  intros Hst. destruct o as [w video e c who|w video sf ef fc]; simpl.
  - pose proof (add_annotation_one_per_key w st video e c who
                  (proj1 (Hst video))) as Hone.
    revert Hone. unfold add_annotation.
    destruct (existing_idx _ _ _ _); cbn [fst snd]; rewrite stored_save;
      intros Hone; by apply save_annotations_kept.
  - pose proof (delete_annotation_one_per_key w st video sf ef fc
                  (proj1 (Hst video))) as Hone.
    revert Hone. unfold delete_annotation.
    destruct (_ <? _)%nat; cbn [fst snd]; [|done]. rewrite stored_save.
    intros Hone. by apply save_annotations_kept.
Qed.

Lemma empty_store_kept : well_kept empty_store.
Proof.
  intros video. split; [apply empty_store_one_per_key|].
  intros d. unfold empty_store. cbn [ann_files]. by rewrite lookup_empty.
Qed.

Lemma apply_ops_kept os st : well_kept st → well_kept (apply_ops os st).
Proof.
  unfold apply_ops. revert st. induction os as [|o os IH]; intros st Hst; [done|].
  simpl. by apply IH, apply_op_kept.
Qed.

(** X5.  In every store that a sequence of [add_annotation] and
    [delete_annotation] calls builds from the empty one, a video has at most
    one record per identity key, and its file has an [annotations] array and
    says in [num_annotations] how many records that array holds. *)
Theorem reachable_store_invariants os video :
  let st := apply_ops os empty_store in
  one_per_key (stored_annotations st video)
  ∧ ∀ d, ann_files st !! video = Some d →
         count_recorded d ∧ is_Some (doc_annotations d).
Proof.
  intros st.
  pose proof (apply_ops_kept os empty_store empty_store_kept video) as Hst.
  fold st in Hst. split; apply Hst.
Qed.

(** X6.  Calls of [add_annotation] and [delete_annotation] for other videos
    leave a video alone: its file and its backup are what they were, and
    [load_annotations] reads for it what it read before. *)
Theorem ops_touch_their_video os st video :
  Forall (λ o, op_video o ≠ video) os →
  let st' := apply_ops os st in
  ann_files st' !! video = ann_files st !! video
  ∧ bak_files st' !! video = bak_files st !! video
  ∧ ∀ now, load_annotations st' now video = load_annotations st now video.
Proof.
  unfold apply_ops. intros Hos. revert st.
  induction Hos as [|o os Ho _ IH]; intros st; [done|]. simpl.
  destruct (IH (apply_op st o)) as (-> & -> & Hload).
  assert (Hop : ann_files (apply_op st o) !! video = ann_files st !! video
                ∧ bak_files (apply_op st o) !! video = bak_files st !! video
                ∧ repo_files (apply_op st o) = repo_files st).
  { destruct o as [w v e c who|w v sf ef fc]; simpl in *.
    - destruct (add_annotation_files w st v e c who video) as [-> ->]; [done|].
      by rewrite add_annotation_repo.
    - destruct (delete_annotation_files w st v sf ef fc video) as [-> ->];
        [done|]. by rewrite delete_annotation_repo. }
  destruct Hop as (Hann & Hbak & Hrepo). split_and!; [done..|].
  intros now. rewrite Hload. unfold load_annotations. by rewrite Hann, Hrepo.
Qed.

Lemma count_get_key k t d :
  count_get t (count_key k d)
  = count_get t d + (if py_eq k t then 1 else 0).
Proof.
  induction d as [|[k' n] d IH]; simpl.
  - destruct (py_eq k t); lia.
  - destruct (py_eq k' k) eqn:Hk; simpl.
    + destruct (py_eq k t) eqn:Ht.
      * by rewrite (py_eq_trans _ _ _ Hk Ht).
      * destruct (py_eq k' t) eqn:Ht'; [|lia].
        rewrite py_eq_sym in Hk. by rewrite (py_eq_trans _ _ _ Hk Ht') in Ht.
    + destruct (py_eq k' t) eqn:Ht'; [|done].
      destruct (py_eq k t) eqn:Ht; [|lia].
      rewrite py_eq_sym in Ht. by rewrite (py_eq_trans _ _ _ Ht' Ht) in Hk.
Qed.

Lemma count_sum_key k d : count_sum (count_key k d) = count_sum d + 1.
Proof.
  induction d as [|[k' n] d IH]; simpl; [done|].
  destruct (py_eq k' k); simpl; unfold count_sum in *; simpl; lia.
Qed.

Lemma count_key_pos k d :
  Forall (λ kn, 1 ≤ kn.2) d → Forall (λ kn, 1 ≤ kn.2) (count_key k d).
Proof.
  induction 1 as [|[k' n] d Hn Hd IH]; simpl.
  - by repeat constructor.
  - cbn [snd] in Hn. destruct (py_eq k' k); constructor; cbn [snd];
      first [lia|done].
Qed.

Lemma counts_of_records (f : pydict → value) l : ∀ d,
  let d' := foldl (λ d ann, count_key (f ann) d) d l in
  (∀ t, count_get t d'
        = count_get t d
          + Z.of_nat (length (List.filter (λ ann, py_eq (f ann) t) l)))
  ∧ count_sum d' = count_sum d + Z.of_nat (length l)
  ∧ (Forall (λ kn, 1 ≤ kn.2) d → Forall (λ kn, 1 ≤ kn.2) d').
Proof.
  induction l as [|a l IH]; intros d; simpl.
  - split_and!; [intros; lia|lia|done].
  - destruct (IH (count_key (f a) d)) as (Hget & Hsum & Hpos). split_and!.
    + intros t. rewrite Hget, count_get_key.
      destruct (py_eq (f a) t); simpl; lia.
    + rewrite Hsum, count_sum_key. lia.
    + intros Hd. by apply Hpos, count_key_pos.
Qed.

(** X7.  The counting dictionaries of [get_annotation_stats]: the count kept
    for a technique (for an annotator) is the number of records with that
    technique (annotator, a missing or empty one counting as ["Unknown"]),
    every count is at least one, the counts of each dictionary add up to
    [annotated], and [remaining] is what is missing to [total_events], or
    zero when the records are more than the events. *)
Theorem stats_counts w st video N :
  let s := get_annotation_stats w st video N in
  let l := stored_annotations st video in
  (∀ t, count_get t (by_technique s)
        = Z.of_nat (length (List.filter (λ ann, py_eq (technique_of ann) t) l)))
  ∧ (∀ a, count_get a (by_annotator s)
          = Z.of_nat (length (List.filter (λ ann, py_eq (who_of ann) a) l)))
  ∧ count_sum (by_technique s) = Z.of_nat (annotated s)
  ∧ count_sum (by_annotator s) = Z.of_nat (annotated s)
  ∧ Forall (λ kn, 1 ≤ kn.2) (by_technique s ++ by_annotator s)
  ∧ (Z.of_nat (annotated s) ≤ N → remaining s + Z.of_nat (annotated s) = N)
  ∧ (N ≤ Z.of_nat (annotated s) → remaining s = 0).
Proof.
  intros s l. subst s. unfold get_annotation_stats.
  rewrite load_annotations_clock. fold l.
  cbn [by_technique by_annotator annotated remaining].
  destruct (counts_of_records technique_of l []) as (Ht & Hts & Htp).
  destruct (counts_of_records who_of l []) as (Ha & Has & Hap).
  split_and!.
  - intros t. exact (Ht t).
  - intros a. exact (Ha a).
  - exact Hts.
  - exact Has.
  - apply Forall_app. split; [exact (Htp (Forall_nil_2 _))|exact (Hap (Forall_nil_2 _))].
  - lia.
  - lia.
Qed.


(** *** The records *)

Lemma technique_table (l : list (Z * string)) : ∀ (m0 : gmap string Z) name i,
  NoDup l.*2 →
  foldl (λ m kv, <[kv.2 := kv.1]> m) m0 l !! name = Some i
  ↔ (i, name) ∈ l ∨ ((name ∉ l.*2) ∧ m0 !! name = Some i).
Proof.
  induction l as [|[j s] l IH]; intros m0 name i Hnd.
  - simpl. rewrite elem_of_nil. split.
    + intros Hm. right. split; [apply not_elem_of_nil|done].
    + by intros [[]|[_ ?]].
  - rewrite fmap_cons in Hnd. apply NoDup_cons in Hnd as [Hfresh Hnd].
    cbn [foldl fst snd] in *. rewrite (IH _ name i Hnd), fmap_cons, !elem_of_cons.
    cbn [snd]. destruct (decide (s = name)) as [->|Hne].
    + rewrite lookup_insert_eq. split.
      * intros [Hin|[_ Hji]]; [|left; left; congruence].
        exfalso. apply Hfresh. apply list_elem_of_fmap. by exists (i, name).
      * intros [[Heq|Hin]|[Hn _]].
        -- right. split; [done|congruence].
        -- by left.
        -- exfalso. apply Hn. by left.
    + rewrite lookup_insert_ne by done. split.
      * intros [Hin|[Hn Hm]]; [by left; right|]. right. split; [|done].
        intros [?|?]; congruence.
      * intros [[Heq|Hin]|[Hn Hm]]; [congruence|by left|].
        right. split; [|done]. intros Hin. apply Hn. by right.
Qed.

Lemma technique_names_reverse name i :
  TECHNIQUE_NAMES_REVERSE !! name = Some i ↔ (i, name) ∈ TECHNIQUE_CLASSES.
Proof.
  unfold TECHNIQUE_NAMES_REVERSE. rewrite technique_table.
  - rewrite lookup_empty. split; [|by left]. by intros [?|[_ ?]].
  - apply (bool_decide_unpack _). by vm_compute.
Qed.

Lemma technique_id_of_range v : 0 ≤ technique_id_of v ≤ 9.
Proof.
  destruct v as [| | | |s]; simpl; try lia.
  destruct (TECHNIQUE_NAMES_REVERSE !! s) as [i|] eqn:Hi; simpl; [|lia].
  apply technique_names_reverse in Hi.
  assert (Hall : Forall (λ kv : Z * string, 0 ≤ kv.1 ≤ 9) TECHNIQUE_CLASSES).
  { unfold TECHNIQUE_CLASSES. repeat constructor; simpl; lia. }
  rewrite Forall_forall in Hall. apply (Hall _ Hi).
Qed.

Ltac lookup_in_new_annotation :=
  unfold new_annotation;
  repeat first
    [ rewrite lookup_insert_ne by (intros ?; discriminate)
    | rewrite list_to_map_cons ];
  match goal with
  | |- <[?k := _]> _ !! ?k = _ => rewrite lookup_insert_eq
  end; reflexivity.

Section written_record.
Variables (video : string) (e c : pydict) (who : string) (b : bool)
          (now : string) (ident : value).

Abbreviation written_record :=
  (<["annotation_id" := ident]> (new_annotation video e c who b now)).

Lemma record_video_path :
  written_record !! "video_path" = Some (VStr (video +:+ ".mp4")).
Proof. lookup_in_new_annotation. Qed.

Lemma record_technique :
  written_record !! "technique"
  = Some (dget_or c "technique" (dget_or e "technique" (VStr "neutral_stance"))).
Proof. lookup_in_new_annotation. Qed.

Lemma record_technique_id :
  written_record !! "technique_id"
  = Some (VInt (technique_id_of
                  (dget_or c "technique"
                           (dget_or e "technique" (VStr "neutral_stance"))))).
Proof. lookup_in_new_annotation. Qed.

Lemma record_confidence : written_record !! "confidence" = Some (VFloat 1).
Proof. lookup_in_new_annotation. Qed.

Lemma record_consistent : consistent_record video written_record.
Proof.
  unfold consistent_record, dget.
  rewrite record_video_path, record_technique_id, record_technique,
    record_annotator, record_confidence, record_annotation_id.
  cbn [default from_option id]. split_and!; [done|done| |done|done].
  destruct b; [by right|by left].
Qed.

End written_record.

Lemma stored_after_add_other w st video e c who video' :
  video' ≠ video →
  stored_annotations (add_annotation w st video e c who).2 video'
  = stored_annotations st video'.
Proof.
  intros Hne. unfold stored_annotations, load_annotations.
  destruct (add_annotation_files w st video e c who video' Hne) as [-> _].
  by rewrite add_annotation_repo.
Qed.

Lemma stored_after_delete_other w st video sf ef fc video' :
  video' ≠ video →
  stored_annotations (delete_annotation w st video sf ef fc).2 video'
  = stored_annotations st video'.
Proof.
  intros Hne. unfold stored_annotations, load_annotations.
  destruct (delete_annotation_files w st video sf ef fc video' Hne) as [-> _].
  by rewrite delete_annotation_repo.
Qed.

Lemma Forall_list_filter {A} (P : A → Prop) (f : A → bool) l :
  Forall P l → Forall P (List.filter f l).
Proof.
  induction 1 as [|x l Hx _ IH]; simpl; [constructor|].
  destruct (f x); [by constructor|done].
Qed.

Lemma apply_op_consistent st o :
  (∀ video, Forall (consistent_record video) (stored_annotations st video)) →
  ∀ video, Forall (consistent_record video)
                  (stored_annotations (apply_op st o) video).
Proof.
  intros Hst video. destruct o as [w v e c who|w v sf ef fc]; simpl.
  - destruct (decide (video = v)) as [->|Hne];
      [|by rewrite stored_after_add_other].
    destruct (add_annotation_spec w st v e c who) as [_ ->].
    destruct (existing_idx _ _ _ _).
    + apply Forall_insert; [apply Hst|apply record_consistent].
    + apply Forall_app. split; [apply Hst|].
      constructor; [apply record_consistent|constructor].
  - destruct (decide (video = v)) as [->|Hne];
      [|by rewrite stored_after_delete_other].
    destruct (delete_annotation_spec w st v sf ef fc) as (_ & -> & _).
    apply Forall_list_filter, Hst.
Qed.

(** X8.  Every record in a store built by [add_annotation] and
    [delete_annotation] from the empty one names the video file of its video,
    carries the [technique_id] of its technique, is marked ["manual"] or
    ["verified"], has confidence 1.0 and an identifier.  The identifier of a
    technique is the inverse of [TECHNIQUE_CLASSES], lies between 0 and 9,
    and is 9 for everything that is not one of the ten class names. *)
Theorem reachable_records_consistent os video :
  Forall (consistent_record video)
         (stored_annotations (apply_ops os empty_store) video)
  ∧ (∀ v, 0 ≤ technique_id_of v ≤ 9)
  ∧ (∀ name i,
       TECHNIQUE_NAMES_REVERSE !! name = Some i ↔ (i, name) ∈ TECHNIQUE_CLASSES)
  ∧ (∀ name, name ∉ TECHNIQUE_CLASSES.*2 → technique_id_of (VStr name) = 9).
Proof.
  split_and!.
  - assert (Hall : ∀ st,
      (∀ video, Forall (consistent_record video) (stored_annotations st video)) →
      ∀ video, Forall (consistent_record video)
                      (stored_annotations (apply_ops os st) video)).
    { unfold apply_ops. induction os as [|o os IH]; intros st Hst; [done|].
      simpl. by apply IH, apply_op_consistent. }
    apply Hall. intros video'. unfold stored_annotations, load_annotations,
      empty_store. cbn [ann_files repo_files]. rewrite !lookup_empty.
    constructor.
  - apply technique_id_of_range.
  - apply technique_names_reverse.
  - intros name Hname. simpl.
    destruct (TECHNIQUE_NAMES_REVERSE !! name) as [i|] eqn:Hi; [|done].
    exfalso. apply Hname. apply technique_names_reverse in Hi.
    apply list_elem_of_fmap. by exists (i, name).
Qed.

End repo_more.

(** ** The annotation page *)

Section app.
Import Repo App.
Context `{PyRuntime}.

Lemma first_unannotated_spec w st video events : ∀ i,
  Forall has_frames events →
  match first_unannotated w st video events i with
  | Registry.Ok (Some j) =>
      ∃ n evt, j = (i + n)%nat ∧ events !! n = Some evt
               ∧ event_done w st video evt = false
               ∧ ∀ m e, (m < n)%nat → events !! m = Some e →
                        event_done w st video e = true
  | Registry.Ok None => Forall (λ e, event_done w st video e = true) events
  | Registry.Raise _ => False
  end.
Proof.
  induction events as [|evt events IH]; intros i Hev; [by constructor|].
  apply Forall_cons in Hev as [[[sf Hsf] [ef Hef]] Hev]. simpl.
  rewrite Hsf, Hef.
  assert (Hdone : truthy_dict (get_annotation_for_event w st video sf ef
                    (dget_or evt "fighter_color" (VStr "unknown")))
                  = event_done w st video evt).
  { unfold event_done, dget. by rewrite Hsf, Hef. }
  rewrite Hdone. destruct (event_done w st video evt) eqn:Hd; simpl.
  - specialize (IH (S i) Hev).
    destruct (first_unannotated w st video events (S i)) as [[j|]|]; [| |done].
    + destruct IH as (n & e & -> & Hn & He & Hbefore).
      exists (S n), e. split_and!; [lia|done..|].
      intros [|m] e' Hm Hl; simpl in Hl; [by injection Hl as <-|].
      apply (Hbefore m); [lia|done].
    + by constructor.
  - exists 0%nat, evt. split_and!; [lia|done..|]. intros m e Hm. lia.
Qed.

(** X9.  On events that all have their two frame numbers,
    [_find_next_unannotated] returns the index of the first event for which
    the repository has no (non-empty) record, every earlier event having one;
    when every event has one it returns 0. *)
Theorem find_next_unannotated_first w st video events :
  Forall has_frames events →
  ∃ i, _find_next_unannotated w st video events = Registry.Ok i
       ∧ ((∃ evt, events !! i = Some evt
                  ∧ event_done w st video evt = false
                  ∧ ∀ j e, (j < i)%nat → events !! j = Some e →
                           event_done w st video e = true)
          ∨ (i = 0%nat ∧ Forall (λ e, event_done w st video e = true) events)).
Proof.
  intros Hev. unfold _find_next_unannotated.
  pose proof (first_unannotated_spec w st video events 0 Hev) as Hspec.
  destruct (first_unannotated w st video events 0) as [[j|]|]; [| |done]; simpl.
  - destruct Hspec as (n & evt & -> & Hn & Hd & Hbefore).
    exists n. split; [done|]. left. by exists evt.
  - exists 0%nat. split; [done|]. by right.
Qed.

(** X10.  [_find_next_unannotated] subscripts the frame numbers: when the
    first event without a record comes after an event that lacks
    [start_frame] or [end_frame], the call raises [KeyError], for
    [start_frame] if that one is missing and for [end_frame] otherwise. *)
Theorem find_next_unannotated_key_error w st video before evt after :
  Forall (λ e, has_frames e ∧ event_done w st video e = true) before →
  ¬ has_frames evt →
  _find_next_unannotated w st video (before ++ evt :: after)
  = Registry.Raise
      (Registry.KeyError (if bool_decide (is_Some (evt !! "start_frame"))
                          then "end_frame" else "start_frame")).
Proof.
  intros Hbefore Hevt. unfold _find_next_unannotated.
  assert (Hraise : ∀ i, first_unannotated w st video (before ++ evt :: after) i
            = Registry.Raise
                (Registry.KeyError (if bool_decide (is_Some (evt !! "start_frame"))
                                    then "end_frame" else "start_frame")));
    [|by rewrite Hraise].
  induction Hbefore as [|e before [[[sf Hsf] [ef Hef]] Hd] _ IH]; intros i; simpl.
  - destruct (evt !! "start_frame") as [sf|] eqn:Hsf.
    + destruct (evt !! "end_frame") as [ef|] eqn:Hef.
      * exfalso. apply Hevt. split; by eexists.
      * by rewrite bool_decide_eq_true_2.
    + rewrite bool_decide_eq_false_2; [done|]. by intros [].
  - rewrite Hsf, Hef.
    assert (Hdone : truthy_dict (get_annotation_for_event w st video sf ef
                      (dget_or e "fighter_color" (VStr "unknown")))
                    = event_done w st video e).
    { unfold event_done, dget. by rewrite Hsf, Hef. }
    rewrite Hdone, Hd. simpl. apply IH.
Qed.

(** *** The keys of the annotated events *)

Lemma key_eq_sym a b : key_eq a b = key_eq b a.
Proof.
  unfold key_eq.
  by rewrite (py_eq_sym a.1.1), (py_eq_sym a.1.2), (py_eq_sym a.2).
Qed.

Lemma key_eq_trans a b c : key_eq a b = true → key_eq b c = true → key_eq a c = true.
Proof.
  unfold key_eq. rewrite !andb_true_iff.
  intros [[H1 H2] H3] [[H1' H2'] H3'].
  split_and!; eapply py_eq_trans; eauto.
Qed.

Lemma key_in_app k l1 l2 : key_in k (l1 ++ l2) = key_in k l1 || key_in k l2.
Proof. unfold key_in. by rewrite existsb_app. Qed.

Lemma key_in_true k keys :
  key_in k keys = true ↔ ∃ k', k' ∈ keys ∧ key_eq k' k = true.
Proof.
  unfold key_in. rewrite existsb_exists.
  split; intros (k' & Hk' & Heq); exists k'; (split; [|done]);
    by apply list_elem_of_In.
Qed.

Lemma key_in_add k k' keys :
  key_in k (key_add k' keys) = key_in k keys || key_eq k' k.
Proof.
  unfold key_add. destruct (key_in k' keys) eqn:Hin.
  - destruct (key_eq k' k) eqn:Heq; [|by rewrite orb_false_r].
    rewrite orb_true_r. apply key_in_true in Hin as (k'' & Hk'' & Heq').
    apply key_in_true. exists k''. split; [done|]. by eapply key_eq_trans.
  - rewrite key_in_app. unfold key_in at 2. simpl. by rewrite orb_false_r.
Qed.

Lemma key_in_ann_keys k l : ∀ acc,
  key_in k (foldl (λ keys ann,
                     key_add (dget ann "start_frame", dget ann "end_frame",
                              dget ann "fighter_color") keys) acc l)
  = key_in k acc || existsb (same_event k.1.1 k.1.2 k.2) l.
Proof.
  induction l as [|a l IH]; intros acc; simpl; [by rewrite orb_false_r|].
  rewrite IH, key_in_add, <-orb_assoc. reflexivity.
Qed.

Lemma existsb_find (f : pydict → bool) l :
  existsb f l = bool_decide (is_Some (List.find f l)).
Proof.
  induction l as [|a l IH]; cbn [existsb List.find].
  - symmetry. apply bool_decide_eq_false. by intros [].
  - destruct (f a); cbn [orb]; [|done]. symmetry. by apply bool_decide_eq_true.
Qed.

Lemma is_annotated_find l evt :
  _is_annotated (_ann_keys l) evt
  = bool_decide
      (is_Some (List.find (same_event (dget evt "start_frame")
                             (dget evt "end_frame")
                             (dget_or evt "fighter_color" (VStr "unknown"))) l)).
Proof.
  unfold _is_annotated, _ann_keys. rewrite key_in_ann_keys.
  cbn [key_in existsb orb fst snd]. apply existsb_find.
Qed.

(** X11.  The test [_is_annotated] of [page_annotate], made on the key set
    built from the stored records, says whether [get_annotation_for_event]
    finds a record for the event.  It holds whenever the test of
    [_find_next_unannotated] does, and the two differ only when the record
    found is the empty dictionary. *)
Theorem is_annotated_agrees w st video evt :
  _is_annotated (page_keys st video) evt
  = bool_decide
      (is_Some (get_annotation_for_event w st video (dget evt "start_frame")
                  (dget evt "end_frame")
                  (dget_or evt "fighter_color" (VStr "unknown"))))
  ∧ (event_done w st video evt = true → _is_annotated (page_keys st video) evt = true)
  ∧ (_is_annotated (page_keys st video) evt = true →
     event_done w st video evt = false →
     get_annotation_for_event w st video (dget evt "start_frame")
       (dget evt "end_frame") (dget_or evt "fighter_color" (VStr "unknown"))
     = Some ∅).
Proof.
  unfold page_keys, event_done. rewrite is_annotated_find.
  unfold get_annotation_for_event. rewrite load_annotations_clock.
  destruct (List.find _ _) as [a|]; cbn [truthy_dict].
  - rewrite bool_decide_eq_true_2 by done. split_and!; [done..|].
    intros _ Ha. apply negb_false_iff, bool_decide_eq_true in Ha. by rewrite Ha.
  - rewrite bool_decide_eq_false_2 by (by intros []). by split_and!.
Qed.

(** *** The filter *)

Lemma indices_where_elem p events : ∀ i x,
  x ∈ indices_where p events i
  ↔ ∃ n e, x = i + Z.of_nat n ∧ events !! n = Some e ∧ p e = true.
Proof.
  induction events as [|e events IH]; intros i x; simpl.
  - rewrite elem_of_nil. split; [done|]. by intros (n & e & _ & ? & _).
  - assert (Hrest : x ∈ indices_where p events (i + 1)
              ↔ ∃ n e', x = i + Z.of_nat (S n) ∧ events !! n = Some e'
                        ∧ p e' = true).
    { rewrite IH. split; intros (n & e' & -> & ? & ?); exists n, e';
        (split_and!; [lia|done..]). }
    destruct (p e) eqn:Hp.
    + rewrite elem_of_cons, Hrest. split.
      * intros [->|(n & e' & -> & ? & ?)].
        -- exists 0%nat, e. split_and!; [lia|done..].
        -- by exists (S n), e'.
      * intros ([|n] & e' & -> & Hl & Hpe); simpl in Hl.
        -- left. lia.
        -- right. by exists n, e'.
    + rewrite Hrest. split.
      * intros (n & e' & -> & ? & ?). by exists (S n), e'.
      * intros ([|n] & e' & -> & Hl & Hpe); simpl in Hl.
        -- injection Hl as <-. congruence.
        -- by exists n, e'.
Qed.

Lemma indices_where_ge p events i x : x ∈ indices_where p events i → i ≤ x.
Proof. rewrite indices_where_elem. intros (n & e & -> & _). lia. Qed.

Lemma indices_where_sorted p events : ∀ i,
  StronglySorted Z.lt (indices_where p events i).
Proof.
  induction events as [|e events IH]; intros i; simpl; [constructor|].
  destruct (p e); [|apply IH]. constructor; [apply IH|].
  apply Forall_forall. intros x Hx%indices_where_ge. lia.
Qed.

Lemma indices_where_length p events i :
  length (indices_where p events i) = length (List.filter p events).
Proof.
  revert i. induction events as [|e events IH]; intros i; simpl; [done|].
  destruct (p e); simpl; by rewrite IH.
Qed.

Lemma indices_where_all events i :
  indices_where (λ _, true) events i = seqZ i (Z.of_nat (length events)).
Proof.
  revert i. induction events as [|e events IH]; intros i; [done|].
  cbn [indices_where length]. rewrite IH.
  rewrite (seqZ_cons i (Z.of_nat (S (length events)))) by lia.
  do 2 f_equal; lia.
Qed.

Lemma indices_where_split p events : ∀ i,
  indices_where (λ e, negb (p e)) events i ++ indices_where p events i
  ≡ₚ indices_where (λ _, true) events i.
Proof.
  induction events as [|e events IH]; intros i; simpl; [done|].
  destruct (p e); simpl.
  - by rewrite <-Permutation_middle, IH.
  - by rewrite IH.
Qed.

Lemma filtered_indices_cases filt keys events :
  let fi := filtered_indices filt keys events in
  fi = indices_where (λ e, negb (_is_annotated keys e)) events 0
  ∨ fi = indices_where (_is_annotated keys) events 0
  ∨ fi = indices_where (λ _, true) events 0.
Proof.
  unfold filtered_indices. destruct filt as [f|]; [|by right; right].
  repeat case_match; auto.
Qed.

(** X12.  The event filter of [page_annotate]: "All" and no choice give every
    index from 0, "To Do" the indices of the events that are not annotated
    and "Done" those of the annotated ones, each in increasing order; the two
    together are a rearrangement of all indices, and their sizes are
    [n_todo] and [n_done]. *)
Theorem filter_partition keys events todo_label done_label :
  let to_do := filtered_indices (Some ("To Do" +:+ todo_label)) keys events in
  let done := filtered_indices (Some ("Done" +:+ done_label)) keys events in
  let all := filtered_indices (Some "All") keys events in
  all = seqZ 0 (Z.of_nat (length events))
  ∧ filtered_indices None keys events = all
  ∧ to_do ++ done ≡ₚ all
  ∧ StronglySorted Z.lt to_do ∧ StronglySorted Z.lt done
  ∧ length done = n_done keys events
  ∧ (length to_do + n_done keys events)%nat = length events
  ∧ ∀ n e, events !! n = Some e →
      (Z.of_nat n ∈ done ↔ _is_annotated keys e = true)
      ∧ (Z.of_nat n ∈ to_do ↔ _is_annotated keys e = false).
Proof.
  intros to_do done all.
  assert (Htodo : to_do
            = indices_where (λ e, negb (_is_annotated keys e)) events 0) by done.
  assert (Hdone : done = indices_where (_is_annotated keys) events 0) by done.
  assert (Hall : all = indices_where (λ _, true) events 0) by done.
  rewrite Htodo, Hdone, Hall. clear to_do done all Htodo Hdone Hall.
  split_and!.
  - apply indices_where_all.
  - done.
  - apply indices_where_split.
  - apply indices_where_sorted.
  - apply indices_where_sorted.
  - apply indices_where_length.
  - rewrite indices_where_length. unfold n_done.
    apply filter_keep_length.
  - intros n e Hn. rewrite !indices_where_elem. split.
    + split.
      * intros (n' & e' & Hn' & He' & Hp).
        assert (n' = n) as -> by lia. congruence.
      * intros Hp. exists n, e. split_and!; [lia|done..].
    + split.
      * intros (n' & e' & Hn' & He' & Hp).
        assert (n' = n) as -> by lia. apply negb_true_iff in Hp. congruence.
      * intros Hp. exists n, e. split_and!; [lia|done|by rewrite Hp].
Qed.

(** *** The clamp *)

Lemma min_by_spec key l : ∀ best,
  ∃ l1 l2, best :: l = l1 ++ min_by key best l :: l2
           ∧ Forall (λ x, key (min_by key best l) < key x) l1
           ∧ Forall (λ x, key (min_by key best l) ≤ key x) l2.
Proof.
  induction l as [|x l IH]; intros best; simpl.
  - exists [], []. by split_and!.
  - destruct (key x <? key best) eqn:Hlt.
    + apply Z.ltb_lt in Hlt. destruct (IH x) as (l1 & l2 & Heq & H1 & H2).
      set (r := min_by key x l) in *.
      exists (best :: l1), l2. split_and!.
      * simpl. by rewrite Heq.
      * constructor; [|done].
        assert (key r ≤ key x); [|lia].
        destruct l1 as [|y l1]; simpl in Heq.
        -- injection Heq as Hx _. rewrite <-Hx. lia.
        -- injection Heq as Hx _. subst y. apply Forall_cons in H1 as [? _]. lia.
      * done.
    + apply Z.ltb_ge in Hlt. destruct (IH best) as (l1 & l2 & Heq & H1 & H2).
      set (r := min_by key best l) in *.
      destruct l1 as [|y l1]; simpl in Heq.
      * injection Heq as Hb Hl. exists [], (x :: l2). split_and!.
        -- simpl. by rewrite <-Hb, Hl.
        -- constructor.
        -- constructor; [rewrite <-Hb; lia|done].
      * injection Heq as Hb Hl. subst y. exists (best :: x :: l1), l2. split_and!.
        -- simpl. by rewrite Hl.
        -- apply Forall_cons in H1 as [Hrb H1].
           constructor; [done|]. constructor; [lia|done].
        -- done.
Qed.

(** X13.  The clamp of the event index: when the filtered list is empty the
    page stops; otherwise the index used is in the filtered list, so it is a
    valid index of [events]; it is the session's index when that one is in
    the list, and else a nearest one, the smaller of two equally near. *)
Theorem clamp_idx_spec filt keys events idx :
  let fi := filtered_indices filt keys events in
  match clamp_idx fi idx with
  | None => fi = []
  | Some i =>
      i ∈ fi
      ∧ is_Some (events !! Z.to_nat i) ∧ 0 ≤ i
      ∧ (idx ∈ fi → i = idx)
      ∧ ∀ j, j ∈ fi →
             Z.abs (i - idx) ≤ Z.abs (j - idx)
             ∧ (Z.abs (j - idx) = Z.abs (i - idx) → i ≤ j)
  end.
Proof.
  intros fi.
  assert (Hsorted : StronglySorted Z.lt fi).
  { destruct (filtered_indices_cases filt keys events) as [Hfi|[Hfi|Hfi]];
      fold fi in Hfi; rewrite Hfi; apply indices_where_sorted. }
  assert (Hrange : ∀ i, i ∈ fi → is_Some (events !! Z.to_nat i) ∧ 0 ≤ i).
  { intros i. destruct (filtered_indices_cases filt keys events) as [Hfi|[Hfi|Hfi]];
      fold fi in Hfi; rewrite Hfi, indices_where_elem;
      intros (n & e & -> & Hn & _);
      (split; [|lia]); replace (Z.to_nat (0 + Z.of_nat n)) with n by lia;
      by eexists. }
  unfold clamp_idx. destruct fi as [|x rest] eqn:Hfi; [done|].
  case_bool_decide as Hin.
  - split_and!; [done|by apply Hrange|by apply Hrange|done|].
    intros j Hj. split; lia.
  - destruct (min_by_spec (λ i, Z.abs (i - idx)) rest x)
      as (l1 & l2 & Heq & H1 & H2).
    set (r := min_by _ x rest) in *.
    assert (Hr : r ∈ x :: rest).
    { rewrite Heq. apply elem_of_app. right. left. }
    split_and!; [done|by apply Hrange|by apply Hrange|done|].
    intros j Hj. rewrite Heq in Hj, Hsorted.
    apply elem_of_app in Hj as [Hj|Hj].
    + rewrite Forall_forall in H1. specialize (H1 j Hj). cbn beta in H1.
      split; lia.
    + apply StronglySorted_app_1_r in Hsorted.
      apply StronglySorted_inv in Hsorted as [_ Hlt].
      apply elem_of_cons in Hj as [->|Hj]; [split; lia|].
      rewrite Forall_forall in H2, Hlt.
      specialize (H2 j Hj). specialize (Hlt j Hj). cbn beta in H2.
      split; lia.
Qed.

(** X14.  The progress shown by [page_annotate] counts events, not records:
    [n_done] is at most the number of events, so the percentage lies between
    0 and 100, and it is 100 when every event of a non-empty list is
    annotated. *)
Theorem page_annotate_progress keys events :
  (n_done keys events ≤ length events)%nat
  ∧ 0 ≤ pct_tenths keys events ≤ 1000
  ∧ (events ≠ [] → Forall (λ e, _is_annotated keys e = true) events →
     pct_tenths keys events = 1000).
Proof.
  assert (Hle : (n_done keys events ≤ length events)%nat).
  { unfold n_done.
    pose proof (filter_keep_length (_is_annotated keys) events). lia. }
  unfold pct_tenths. split_and!; [done| | |].
  - apply round_half_even_ge; lia.
  - apply round_half_even_le; lia.
  - intros Hne Hall.
    assert (n_done keys events = length events) as ->.
    { unfold n_done. clear Hle Hne.
      induction Hall as [|e l He _ IH]; [done|]. simpl. rewrite He. simpl.
      by rewrite IH. }
    assert (0 < Z.of_nat (length events)) by (destruct events; [done|simpl; lia]).
    apply Z.le_antisymm.
    + apply round_half_even_le; lia.
    + apply round_half_even_ge; lia.
Qed.


(** *** The annotators *)

Lemma in_list_app x l1 l2 : in_list x (l1 ++ l2) = in_list x l1 || in_list x l2.
Proof. unfold in_list. by rewrite existsb_app. Qed.

Lemma in_list_true x l : in_list x l = true ↔ ∃ y, y ∈ l ∧ py_eq y x = true.
Proof.
  unfold in_list. rewrite existsb_exists.
  split; intros (y & Hy & Heq); exists y; (split; [|done]);
    by apply list_elem_of_In.
Qed.

Lemma in_list_false x l :
  in_list x l = false ↔ ∀ y, y ∈ l → py_eq y x = false.
Proof.
  split.
  - intros Hx y Hy. destruct (py_eq y x) eqn:Heq; [|done].
    rewrite <-Hx. symmetry. apply in_list_true. by exists y.
  - intros Hall. destruct (in_list x l) eqn:Hx; [|done].
    apply in_list_true in Hx as (y & Hy & Heq). by rewrite (Hall y Hy) in Heq.
Qed.

Lemma distinct_prefix l1 l2 : distinct (l1 ++ l2) → distinct l1.
Proof.
  intros Hd i j x y Hi Hj. apply Hd; by apply lookup_app_l_Some.
Qed.

Lemma distinct_snoc l x : distinct (l ++ [x]) ↔ distinct l ∧ in_list x l = false.
Proof.
  split.
  - intros Hd. split; [by eapply distinct_prefix|].
    apply in_list_false. intros y Hy.
    apply list_elem_of_lookup in Hy as [i Hi].
    destruct (py_eq y x) eqn:Heq; [|done].
    assert (i = length l); [|apply lookup_lt_Some in Hi; lia].
    apply (Hd i (length l) y x); [by apply lookup_app_l_Some| |done].
    by rewrite list_lookup_middle.
  - intros [Hd Hx] i j a b Hi Hj Heq.
    rewrite in_list_false in Hx.
    apply lookup_app_Some in Hi as [Hi|[Hi Hi']];
      apply lookup_app_Some in Hj as [Hj|[Hj Hj']].
    + by apply (Hd i j a b).
    + destruct (j - length l)%nat eqn:Hjl; [|by destruct n].
      simpl in Hj'. injection Hj' as <-.
      rewrite (Hx a) in Heq; [done|]. by eapply list_elem_of_lookup_2.
    + destruct (i - length l)%nat eqn:Hil; [|by destruct n].
      simpl in Hi'. injection Hi' as <-.
      rewrite py_eq_sym, (Hx b) in Heq; [done|]. by eapply list_elem_of_lookup_2.
    + destruct (i - length l)%nat eqn:Hil; [|by destruct n].
      destruct (j - length l)%nat eqn:Hjl; [|by destruct n]. lia.
Qed.

Abbreviation keep_first :=
  (λ (acc : list value) (x : value), if in_list x acc then acc else acc ++ [x]).

Lemma keep_first_spec l : ∀ acc,
  distinct acc →
  distinct (foldl keep_first acc l)
  ∧ (∃ rest, foldl keep_first acc l = acc ++ rest)
  ∧ ∀ x, in_list x (foldl keep_first acc l) = in_list x acc || in_list x l.
Proof.
  induction l as [|y l IH]; intros acc Hacc; simpl.
  - split_and!; [done|exists []; by rewrite app_nil_r|].
    intros x. by rewrite orb_false_r.
  - destruct (in_list y acc) eqn:Hy.
    + destruct (IH acc Hacc) as (Hd & Hrest & Hin). split_and!; [done..|].
      intros x. rewrite Hin. destruct (py_eq y x) eqn:Heq; [|done].
      rewrite orb_true_l. apply in_list_true in Hy as (z & Hz & Hzy).
      assert (in_list x acc = true) as ->; [|done].
      apply in_list_true. exists z. split; [done|]. by eapply py_eq_trans.
    + destruct (IH (acc ++ [y])) as (Hd & [rest Hrest] & Hin).
      { by apply distinct_snoc. }
      split_and!; [done| |].
      * exists (y :: rest). by rewrite Hrest, <-app_assoc.
      * intros x. rewrite Hin, in_list_app. unfold in_list at 2. simpl.
        by rewrite orb_false_r, orb_assoc.
Qed.

Lemma keep_first_known l : ∀ acc,
  (∀ x, x ∈ l → in_list x acc = true) → foldl keep_first acc l = acc.
Proof.
  induction l as [|y l IH]; intros acc Hl; simpl; [done|].
  rewrite (Hl y) by left. apply IH. intros x Hx. apply Hl. by right.
Qed.

Lemma keep_first_fresh l : ∀ acc,
  distinct (acc ++ l) → foldl keep_first acc l = acc ++ l.
Proof.
  induction l as [|y l IH]; intros acc Hd; simpl; [by rewrite app_nil_r|].
  assert (Hd' : distinct ((acc ++ [y]) ++ l)) by (by rewrite <-app_assoc).
  pose proof (distinct_prefix _ _ Hd') as [_ Hy]%distinct_snoc.
  rewrite Hy, (IH _ Hd'). by rewrite <-app_assoc.
Qed.

Lemma in_list_refl x l : x ∈ l → in_list x l = true.
Proof. intros Hx. apply in_list_true. exists x. by rewrite py_eq_refl. Qed.

Lemma default_annotators_distinct : distinct _default_annotators.
Proof.
  assert (Hnil : distinct []) by (by intros i j x y Hi).
  exact (proj1 (keep_first_spec _default_annotators [] Hnil)).
Qed.

Lemma annotator_options_shape file :
  distinct (annotator_options file)
  ∧ ∃ rest, annotator_options file = _default_annotators ++ rest.
Proof.
  destruct file as [[saved|]|]; unfold annotator_options;
    [|split; [apply default_annotators_distinct|by exists []]..].
  unfold from_keys. rewrite foldl_app.
  change (foldl _ [] _default_annotators) with _default_annotators.
  destruct (keep_first_spec saved _default_annotators
              default_annotators_distinct) as (Hd & Hrest & _).
  by split.
Qed.

(** X15.  The annotator list of [page_select] has no name twice, starts with
    the three default names and holds exactly the defaults and the saved
    names.  After the Add button the name is in the list, the names that were
    there keep their places, and reading the file that was written gives the
    same list again. *)
Theorem annotators_persist file name :
  let options := annotator_options file in
  let r := add_annotator name options file in
  distinct options
  ∧ (∃ rest, options = _default_annotators ++ rest)
  ∧ (∀ saved x, file = Some (Some saved) →
       in_list x options = in_list x (_default_annotators ++ saved))
  ∧ in_list (VStr name) r.1 = true
  ∧ (∃ rest, r.1 = options ++ rest)
  ∧ annotator_options r.2 = r.1.
Proof.
  intros options r.
  destruct (annotator_options_shape file) as [Hd [rest Hrest]].
  fold options in Hd, Hrest. split_and!; [done|by exists rest|..].
  - intros saved x ->. subst options. unfold annotator_options, from_keys.
    assert (Hnil : distinct []) by (by intros i j a b Hi).
    by rewrite (proj2 (proj2 (keep_first_spec _ [] Hnil)) x).
  - subst r. unfold add_annotator.
    destruct (in_list _ options) eqn:Hin; cbn [negb fst]; [done|].
    rewrite in_list_app, Hin. apply in_list_refl. left.
  - subst r. unfold add_annotator. destruct (in_list _ options); cbn [negb fst].
    + exists []. by rewrite app_nil_r.
    + by eexists.
  - subst r. unfold add_annotator.
    destruct (in_list _ options) eqn:Hin; cbn [negb fst snd]; [done|].
    + unfold annotator_options at 1. unfold from_keys. rewrite foldl_app.
      change (foldl _ [] _default_annotators) with _default_annotators.
      rewrite Hrest, <-app_assoc, foldl_app.
      rewrite (keep_first_known _default_annotators _default_annotators)
        by (intros ?; apply in_list_refl).
      apply keep_first_fresh. rewrite app_assoc, <-Hrest.
      by apply distinct_snoc.
Qed.

End app.

(** ** Inference rules: the defaults offered *)

Section inference_more.
Import Inference.
Context `{PyRuntime}.

Lemma attitude_mirror_cases a :
  a = "Forward" ∨ a = "Backward" ∨ a = "Stationary"
  ∨ ((a ∉ attitude_options) ∧ _ATTITUDE_MIRROR a = None).
Proof.
  unfold _ATTITUDE_MIRROR, attitude_options.
  destruct (decide (a = "Forward")) as [|n1]; [by left|].
  destruct (decide (a = "Backward")) as [|n2]; [by right; left|].
  destruct (decide (a = "Stationary")) as [|n3]; [by right; right; left|].
  do 3 right. rewrite !bool_decide_eq_false_2 by done. split; [|done].
  rewrite !elem_of_cons, elem_of_nil. by intros [?|[?|[?|[]]]].
Qed.

Lemma find_elem_of (f : string → bool) l o : List.find f l = Some o → o ∈ l.
Proof. intros [Ho _]%find_some. by apply list_elem_of_In. Qed.

Lemma match_option_elem_of v options o :
  _match_option v options = Some o → o ∈ options.
Proof.
  unfold _match_option. destruct (negb (py_truthy v)); [done|].
  destruct (List.find _ options) as [o'|] eqn:Hfind.
  - intros [= <-]. by eapply find_elem_of.
  - apply find_elem_of.
Qed.

Lemma role_mirror_elem_of r o : _ROLE_MIRROR r = Some o → o ∈ role_options.
Proof.
  unfold role_options.
  destruct (role_mirror_cases r) as [->|[->|[->|[_ Hr]]]];
    [intros [= <-]; set_solver..|by rewrite Hr].
Qed.

Lemma attitude_mirror_elem_of a o :
  _ATTITUDE_MIRROR a = Some o → o ∈ attitude_options.
Proof.
  unfold attitude_options.
  destruct (attitude_mirror_cases a) as [->|[->|[->|[_ Ha]]]];
    [intros [= <-]; set_solver..|by rewrite Ha].
Qed.

Lemma penalty_pts_cases pen :
  _penalty_pts pen = 0 ∨ _penalty_pts pen = 1 ∨ _penalty_pts pen = 2.
Proof. unfold _penalty_pts. repeat case_match; auto. Qed.

(** X16.  The attitude mirror is its own inverse: Forward and Backward
    answer each other and Stationary answers itself; an attitude outside the
    three options gets no suggestion.  A reacting fighter without a stored
    attitude is offered the mirror of the other fighter's attitude. *)
Theorem attitude_mirror_rules :
  (∀ a b, _ATTITUDE_MIRROR a = Some b → _ATTITUDE_MIRROR b = Some a)
  ∧ (∀ a, _ATTITUDE_MIRROR a = None ↔ a ∉ attitude_options)
  ∧ (∀ a, _ATTITUDE_MIRROR a = Some a ↔ a = "Stationary")
  ∧ (∀ src other,
       py_truthy (dget src "attitude") = false → other ≠ "" →
       attitude_default src false (Some other) = _ATTITUDE_MIRROR other).
Proof.
  split_and!.
  - intros a b.
    destruct (attitude_mirror_cases a) as [->|[->|[->|[_ Ha]]]];
      [by intros [= <-]..|by rewrite Ha].
  - intros a. destruct (attitude_mirror_cases a) as [->|[->|[->|[Hn Ha]]]].
    + split; [done|]. intros Hn. exfalso. apply Hn. set_solver.
    + split; [done|]. intros Hn. exfalso. apply Hn. set_solver.
    + split; [done|]. intros Hn. exfalso. apply Hn. set_solver.
    + by rewrite Ha.
  - intros a. destruct (attitude_mirror_cases a) as [->|[->|[->|[Hn Ha]]]];
      [done..|]. rewrite Ha. split; [done|]. intros ->. exfalso. apply Hn.
    set_solver.
  - intros src other Hsrc Hother. unfold attitude_default.
    rewrite (match_option_falsy _ _ Hsrc). simpl.
    by rewrite bool_decide_eq_false_2.
Qed.

(** X17.  The defaults that [_render_fighter_layers] computes for the role,
    the attitude and the scoring value are always one of the options of
    their dimension (or none).  The active fighter's role and attitude are
    never mirrored, and a stored value that matches an option is never
    replaced by a suggestion. *)
Theorem layer_defaults_in_options src is_active other pen :
  (∀ o, role_default src is_active other = Some o → o ∈ role_options)
  ∧ (∀ o, attitude_default src is_active other = Some o → o ∈ attitude_options)
  ∧ (∀ o, value_default src pen = Some o → o ∈ scoring_value_options)
  ∧ role_default src true other = _match_option (dget src "role") role_options
  ∧ attitude_default src true other
    = _match_option (dget src "attitude") attitude_options
  ∧ (truthy_opt (_match_option (dget src "role") role_options) = true →
     role_default src is_active other
     = _match_option (dget src "role") role_options)
  ∧ (truthy_opt (_match_option (dget src "attitude") attitude_options) = true →
     attitude_default src is_active other
     = _match_option (dget src "attitude") attitude_options)
  ∧ (truthy_opt (_match_option (dget src "scoring_value") scoring_value_options)
     = true →
     value_default src pen
     = _match_option (dget src "scoring_value") scoring_value_options).
Proof.
  split_and!.
  - intros o. unfold role_default.
    destruct (negb (truthy_opt _) && negb is_active);
      [|apply match_option_elem_of].
    destruct other as [r|]; [|apply match_option_elem_of].
    destruct (negb (bool_decide (r = "")));
      [apply role_mirror_elem_of|apply match_option_elem_of].
  - intros o. unfold attitude_default.
    destruct (negb (truthy_opt _) && negb is_active);
      [|apply match_option_elem_of].
    destruct other as [a|]; [|apply match_option_elem_of].
    destruct (negb (bool_decide (a = "")));
      [apply attitude_mirror_elem_of|apply match_option_elem_of].
  - intros o. unfold value_default.
    destruct ((0 <? _penalty_pts pen) && negb (truthy_opt _)) eqn:Hc;
      [|apply match_option_elem_of].
    apply andb_true_iff in Hc as [Hpos%Z.ltb_lt _].
    destruct (penalty_pts_cases pen) as [Hp|[Hp|Hp]]; rewrite Hp in *; [lia|..];
      intros [= <-]; unfold scoring_value_options; set_solver.
  - unfold role_default. by rewrite andb_false_r.
  - unfold attitude_default. by rewrite andb_false_r.
  - intros Ht. unfold role_default. by rewrite Ht.
  - intros Ht. unfold attitude_default. by rewrite Ht.
  - intros Ht. unfold value_default. rewrite Ht. by rewrite andb_false_r.
Qed.

End inference_more.

(** ** Confirming both fighters *)

Section confirm.
Import Repo App.
Context `{PyRuntime}.

Ltac lookup_in_dict :=
  unfold new_annotation, corrections_of, fd_dict;
  repeat first
    [ rewrite lookup_insert_ne by (intros ?; discriminate)
    | rewrite list_to_map_cons ];
  match goal with
  | |- <[?k := _]> _ !! ?k = _ => rewrite lookup_insert_eq
  end; reflexivity.

Section corrections.
Variables (fd : fighter_data) (ss : session).

Lemma corrections_fighter_color :
  corrections_of fd ss !! "fighter_color" = Some (VStr (fd_fighter_color fd)).
Proof. lookup_in_dict. Qed.

Lemma corrections_technique :
  corrections_of fd ss !! "technique" = Some (fd_technique fd).
Proof. lookup_in_dict. Qed.

Lemma corrections_role :
  corrections_of fd ss !! "role" = Some (opt_value (fd_role fd)).
Proof. lookup_in_dict. Qed.

Lemma corrections_attitude :
  corrections_of fd ss !! "attitude" = Some (opt_value (fd_attitude fd)).
Proof. lookup_in_dict. Qed.

Lemma corrections_scoreboard_red :
  corrections_of fd ss !! "scoreboard_red" = Some (sb_red ss).
Proof. lookup_in_dict. Qed.

Lemma corrections_scoreboard_blue :
  corrections_of fd ss !! "scoreboard_blue" = Some (sb_blue ss).
Proof. lookup_in_dict. Qed.

Lemma corrections_match_name :
  corrections_of fd ss !! "match_name" = Some (ss_match_name ss).
Proof. lookup_in_dict. Qed.

End corrections.

Section stored.
Variables (video : string) (e c : pydict) (who : string) (b : bool)
          (now : string) (ident : value).

Abbreviation stored_record :=
  (<["annotation_id" := ident]> (new_annotation video e c who b now)).

Lemma record_annotated_by : stored_record !! "annotated_by" = Some (VStr who).
Proof. lookup_in_dict. Qed.

Lemma record_role : stored_record !! "role" = Some (dget c "role").
Proof. lookup_in_dict. Qed.

Lemma record_attitude : stored_record !! "attitude" = Some (dget c "attitude").
Proof. lookup_in_dict. Qed.

Lemma record_scoreboard_red :
  stored_record !! "scoreboard_red" = Some (dget c "scoreboard_red").
Proof. lookup_in_dict. Qed.

Lemma record_scoreboard_blue :
  stored_record !! "scoreboard_blue" = Some (dget c "scoreboard_blue").
Proof. lookup_in_dict. Qed.

Lemma record_match_name :
  stored_record !! "match_name" = Some (dget c "match_name").
Proof. lookup_in_dict. Qed.

End stored.

Lemma confirm_keys event fd ss :
  let event' := <["fighter_color" := VStr (fd_fighter_color fd)]> event in
  key_start event' = key_start event
  ∧ key_end event' = key_end event
  ∧ key_color event' (corrections_of fd ss) = VStr (fd_fighter_color fd).
Proof.
  unfold key_start, key_end, key_color, dget_or. split_and!.
  - by rewrite lookup_insert_ne.
  - by rewrite lookup_insert_ne.
  - by rewrite corrections_fighter_color.
Qed.

Lemma confirm_fighter_selected w w' st video event fd ss :
  selected fd = true →
  let st' := confirm_fighter w st video event fd ss in
  (∃ a, get_annotation_for_event w' st' video (key_start event) (key_end event)
          (VStr (fd_fighter_color fd)) = Some a
        ∧ confirmed_for fd ss a)
  ∧ (length (stored_annotations st video) ≤ length (stored_annotations st' video)
     ≤ S (length (stored_annotations st video)))%nat.
Proof.
  intros Hsel st'. subst st'. unfold confirm_fighter. rewrite Hsel.
  set (event' := <["fighter_color" := VStr (fd_fighter_color fd)]> event).
  destruct (confirm_keys event fd ss) as (Hsf & Hef & Hfc).
  fold event' in Hsf, Hef, Hfc.
  destruct (add_annotation_result w st video event' (corrections_of fd ss)
              (ss_annotator_name ss)) as (i & Hi & Hrec & _ & Hlen & _).
  rewrite Hsf, Hef, Hfc in Hi. split.
  - eexists. split.
    + unfold get_annotation_for_event. rewrite load_annotations_clock.
      eapply find_existing; [exact Hi|exact Hrec].
    + unfold confirmed_for, dget.
      rewrite record_fighter_color, record_annotated_by, record_technique,
        record_role, record_attitude, record_scoreboard_red,
        record_scoreboard_blue, record_match_name.
      unfold dget_or, dget.
      rewrite corrections_technique, corrections_role, corrections_attitude,
        corrections_scoreboard_red, corrections_scoreboard_blue,
        corrections_match_name.
      by rewrite Hfc.
  - rewrite Hlen. case_match; lia.
Qed.

Lemma confirm_fighter_other w w' st video event fd ss sf ef fc :
  py_eq fc (VStr (fd_fighter_color fd)) = false →
  get_annotation_for_event w' (confirm_fighter w st video event fd ss) video
    sf ef fc
  = get_annotation_for_event w' st video sf ef fc.
Proof.
  intros Hfc. unfold confirm_fighter. destruct (selected fd); [|done].
  set (event' := <["fighter_color" := VStr (fd_fighter_color fd)]> event).
  destruct (confirm_keys event fd ss) as (_ & _ & Hcol). fold event' in Hcol.
  unfold get_annotation_for_event. rewrite !load_annotations_clock.
  apply find_after_add. by rewrite Hcol, Hfc, andb_false_r.
Qed.



Lemma has_frames_keys event :
  has_frames event →
  key_start event = dget event "start_frame"
  ∧ key_end event = dget event "end_frame".
Proof.
  intros [[sf Hsf] [ef Hef]]. unfold key_start, key_end, dget_or, dget.
  by rewrite Hsf, Hef.
Qed.

Lemma record_not_empty video e c who b now ident :
  <["annotation_id" := ident]> (new_annotation video e c who b now) ≠ ∅.
Proof. apply insert_non_empty. Qed.

Lemma record_notes video e c who b now ident :
  <["annotation_id" := ident]> (new_annotation video e c who b now) !! "notes"
  = Some (dget_or c "notes" (VStr "")).
Proof. lookup_in_dict. Qed.

(** X19.  The dismiss button records the event for its own fighter as
    [neutral_stance] (class 9) with the note of a false positive: on the next
    render the event counts as annotated, for the filter as for
    [_find_next_unannotated]; at most one record is added; and the index the
    page moves to is a valid one. *)
Theorem dismiss_marks_done w w' st video event annotator events :
  has_frames event →
  let st' := dismiss w st video event annotator in
  _is_annotated (page_keys st' video) event = true
  ∧ event_done w' st' video event = true
  ∧ (∃ a, get_annotation_for_event w' st' video (dget event "start_frame")
            (dget event "end_frame")
            (dget_or event "fighter_color" (VStr "unknown")) = Some a
          ∧ dget a "technique" = VStr "neutral_stance"
          ∧ dget a "technique_id" = VInt 9
          ∧ dget a "notes" = VStr "Dismissed as false positive"
          ∧ dget a "annotated_by" = VStr annotator)
  ∧ (∀ idx, 0 ≤ idx < Z.of_nat (length events) →
            0 ≤ next_event_idx idx events < Z.of_nat (length events))
  ∧ (length (stored_annotations st video) ≤ length (stored_annotations st' video)
     ≤ S (length (stored_annotations st video)))%nat.
Proof.
  intros Hframes st'. subst st'. unfold dismiss.
  set (c := list_to_map _).
  destruct (has_frames_keys event Hframes) as [Hsf Hef].
  assert (Hfc : key_color event c = dget_or event "fighter_color" (VStr "unknown")).
  { unfold key_color, dget_or, c.
    rewrite !list_to_map_cons, lookup_insert_ne by (intros ?; discriminate).
    by rewrite lookup_insert_eq. }
  assert (Htech : dget_or c "technique"
                    (dget_or event "technique" (VStr "neutral_stance"))
                  = VStr "neutral_stance").
  { unfold dget_or, c. by rewrite !list_to_map_cons, lookup_insert_eq. }
  assert (Hnotes : dget_or c "notes" (VStr "")
                   = VStr "Dismissed as false positive").
  { unfold dget_or, c.
    rewrite !list_to_map_cons, !lookup_insert_ne by (intros ?; discriminate).
    by rewrite lookup_insert_eq. }
  destruct (add_annotation_result w st video event c annotator)
    as (i & Hi & Hrec & _ & Hlen & _).
  rewrite Hsf, Hef, Hfc in Hi.
  pose proof (find_existing _ _ _ _ _ _ Hi Hrec) as Hfind.
  assert (Hget : get_annotation_for_event w' (add_annotation w st video event c
                    annotator).2 video (dget event "start_frame")
                   (dget event "end_frame")
                   (dget_or event "fighter_color" (VStr "unknown"))
                 = Some (<["annotation_id" := (add_annotation w st video event c
                                                annotator).1]>
                           (new_annotation video event c annotator
                              (bool_decide (is_Some (existing_idx
                                 (stored_annotations st video) (key_start event)
                                 (key_end event) (key_color event c))))
                              (clock_create w)))).
  { unfold get_annotation_for_event. by rewrite load_annotations_clock. }
  split_and!.
  - unfold page_keys. rewrite is_annotated_find, Hfind.
    by apply bool_decide_eq_true.
  - unfold event_done. rewrite Hget. cbn [truthy_dict].
    apply negb_true_iff, bool_decide_eq_false, record_not_empty.
  - eexists. split; [exact Hget|]. unfold dget.
    rewrite record_technique, record_technique_id, record_notes,
      record_annotated_by.
    cbn [default from_option id]. by rewrite Htech, Hnotes.
  - intros idx Hidx. unfold next_event_idx. lia.
  - rewrite Hlen. case_match; lia.
  - rewrite Hlen. case_match; lia.
Qed.

(** X20.  Whether CONFIRM BOTH makes an event count as annotated depends on
    the colour of the event: it does when the event is red (blue) and
    something was chosen for the red (blue) fighter; for an event of any
    other colour, such as the default ["unknown"], the status of the event is
    what it was before. *)
Theorem confirm_marks_done w_red w_blue st video event red blue ss :
  has_frames event →
  fd_fighter_color red = "red" →
  fd_fighter_color blue = "blue" →
  let st' := confirm_both w_red w_blue st video event red blue ss in
  let color := dget_or event "fighter_color" (VStr "unknown") in
  (color = VStr "red" → selected red = true →
   _is_annotated (page_keys st' video) event = true)
  ∧ (color = VStr "blue" → selected blue = true →
     _is_annotated (page_keys st' video) event = true)
  ∧ (py_eq color (VStr "red") = false → py_eq color (VStr "blue") = false →
     _is_annotated (page_keys st' video) event
     = _is_annotated (page_keys st video) event).
Proof.
  intros Hframes Hred Hblue st' color. subst st'. unfold confirm_both.
  destruct (has_frames_keys event Hframes) as [Hsf Hef].
  set (st1 := confirm_fighter w_red st video event red ss).
  set (st2 := confirm_fighter w_blue st1 video event blue ss).
  set (w' := World "" "" "").
  assert (Hdone : ∀ st0, _is_annotated (page_keys st0 video) event
            = bool_decide (is_Some (get_annotation_for_event w' st0 video
                                      (key_start event) (key_end event) color))).
  { intros st0. unfold page_keys. rewrite is_annotated_find, Hsf, Hef.
    unfold get_annotation_for_event. by rewrite load_annotations_clock. }
  rewrite !Hdone. split_and!.
  - intros Hc Hsel. apply bool_decide_eq_true. rewrite Hc.
    subst st2. rewrite confirm_fighter_other by (by rewrite Hblue).
    destruct (confirm_fighter_selected w_red w' st video event red ss Hsel)
      as [(a & Ha & _) _]. rewrite Hred in Ha. fold st1 in Ha. by rewrite Ha.
  - intros Hc Hsel. apply bool_decide_eq_true. rewrite Hc.
    destruct (confirm_fighter_selected w_blue w' st1 video event blue ss Hsel)
      as [(a & Ha & _) _]. rewrite Hblue in Ha. fold st2 in Ha. by rewrite Ha.
  - intros Hnr Hnb. subst st2 st1.
    rewrite confirm_fighter_other by (by rewrite Hblue).
    by rewrite confirm_fighter_other by (by rewrite Hred).
Qed.

End confirm.

(** ** Download and restore *)

Section restore.
Import Repo App.

Lemma occurs_in_cons needle c s : occurs_in needle s → occurs_in needle (String c s).
Proof.
  intros (a & b & ->). exists (String c a), b. by rewrite append_cons.
Qed.

Lemma str_prefix_cons a p b s :
  str_prefix (String a p) (String b s) = bool_decide (a = b) && str_prefix p s.
Proof. reflexivity. Qed.

Lemma str_replace_absent old new s :
  ¬ occurs_in old s → str_replace old new s = s.
Proof.
  unfold str_replace. induction s as [|c s IH]; intros Hnone; [done|].
  cbn [str_replace_from].
  destruct (str_prefix old (String c s)) eqn:Hp.
  - exfalso. apply Hnone. apply str_prefix_spec in Hp as [t Ht].
    exists "", t. by rewrite append_nil.
  - rewrite IH; [done|]. intros Hs. by apply Hnone, occurs_in_cons.
Qed.

Lemma no_early_suffix r :
  str_prefix "annotations.json" (r +:+ "_annotations.json") = true →
  occurs_in ".json" r.
Proof.
  intros Hp.
  do 16 (destruct r as [|? r];
         [by vm_compute in Hp
         |rewrite append_cons, str_prefix_cons in Hp;
          apply andb_true_iff in Hp as [<-%bool_decide_eq_true Hp]]).
  by exists "annotations", r.
Qed.

Lemma str_replace_suffix stem :
  ¬ occurs_in ".json" stem →
  str_replace "_annotations.json" "" (stem +:+ "_annotations.json") = stem.
Proof.
  unfold str_replace. induction stem as [|c stem IH]; intros Hnone; [done|].
  rewrite append_cons. cbn [str_replace_from].
  destruct (str_prefix _ (String c _)) eqn:Hp.
  - exfalso. rewrite str_prefix_cons in Hp.
    apply andb_true_iff in Hp as [_ Hp].
    by apply Hnone, occurs_in_cons, no_early_suffix.
  - rewrite IH; [done|]. intros Hs. by apply Hnone, occurs_in_cons.
Qed.

(** X21.  Restoring a downloaded annotation file: when the name of the video
    does not contain [.json], the video derived from the name of the
    downloaded file is that video, and saving the downloaded document gives
    the video the records it had, with [num_annotations] set to their number,
    without touching the files of other videos. *)
Theorem restore_finds_video st st0 now video :
  ¬ occurs_in ".json" video →
  let st' := restore_annotations st (download_name video)
               (load_annotations st0 now video) in
  restore_stem (download_name video) = video
  ∧ stored_annotations st' video = stored_annotations st0 video
  ∧ count_recorded (load_annotations st' now video)
  ∧ ∀ other, other ≠ video → ann_files st' !! other = ann_files st !! other.
Proof.
  intros Hnone st'.
  assert (Hstem : restore_stem (download_name video) = video).
  { unfold restore_stem, download_name.
    by rewrite str_replace_suffix, str_replace_absent. }
  subst st'. unfold restore_annotations. rewrite Hstem. split_and!.
  - done.
  - by rewrite stored_save, load_annotations_clock.
  - unfold count_recorded, load_annotations, save_annotations.
    cbn [ann_files]. rewrite lookup_insert_eq. cbn [doc_meta annotations_of].
    by rewrite lookup_insert_eq.
  - intros other Hne. unfold save_annotations. cbn [ann_files].
    by rewrite lookup_insert_ne.
Qed.

End restore.

(** ** Match grouping registry: more of its behaviour *)

Section registry_more.
Import Json Registry.

Lemma assign_same name g (m : matches) :
  lookup name m = Some g → assign name g m = m.
Proof.
  induction m as [|[k g'] m IH]; [done|]. simpl.
  case_bool_decide as Hk; [by intros [= ->]|]. intros Hl. by rewrite IH.
Qed.

Lemma sort_by_part_sorted_id l : Sorted part_le l → sort_by_part l = l.
Proof.
  induction 1 as [|v l Hl IH Hhd]; [done|].
  unfold sort_by_part in *. cbn [foldr]. rewrite IH.
  destruct Hhd as [|w l' Hvw]; [done|]. cbn [insert_by_part].
  unfold part_le in Hvw. by rewrite (proj2 (Z.leb_le _ _) Hvw).
Qed.

Lemma last_part_Some cs name stem p :
  last_part cs name stem = Some p →
  ∃ c, c ∈ cs ∧ call_match c = name ∧ call_video c = stem ∧ call_part c = p.
Proof.
  induction cs as [|c cs IH]; simpl; [done|].
  destruct (last_part cs name stem) as [q|].
  - intros [= <-]. destruct IH as (c0 & ? & ?); [done|]. exists c0.
    split; [by right|done].
  - case_bool_decide as Hc; [|done]. intros [= <-]. exists c.
    split; [by left|]. tauto.
Qed.

Lemma last_part_None cs name stem :
  last_part cs name stem = None ↔ ¬ saved_under cs name stem.
Proof.
  unfold saved_under. split.
  - induction cs as [|c cs IH]; simpl.
    + intros _ (c & Hc & _). by apply elem_of_nil in Hc.
    + destruct (last_part cs name stem) as [p|]; [done|].
      case_bool_decide as Hc; [done|].
      intros _ (c0 & [->|Hc0]%elem_of_cons & Hm & Hv); [tauto|].
      apply IH; [done|]. by exists c0.
  - intros Hn. destruct (last_part cs name stem) as [p|] eqn:Hl; [|done].
    exfalso. apply Hn. apply last_part_Some in Hl as (c & ? & ? & ? & _).
    by exists c.
Qed.

(** The loop over the videos of a written group. *)
Lemma set_part_entries stem p vs :
  Forall written_video vs → NoDup (video_stem <$> vs) →
  ∃ vs', set_part stem p vs
         = Ok (bool_decide (Some stem ∈ video_stem <$> vs), vs')
         ∧ ∀ v, v ∈ vs' ↔ (v ∈ vs ∧ video_stem v ≠ Some stem)
                          ∨ (Some stem ∈ video_stem <$> vs
                             ∧ v = Video (Some stem) (Some p)).
Proof.
  induction 1 as [|u vs [[s Hs] Hp] Hvs IH]; intros Hnd.
  - exists []. split; [done|]. intros v. rewrite fmap_nil, !elem_of_nil. tauto.
  - rewrite fmap_cons in Hnd. apply NoDup_cons in Hnd as [Hfresh Hnd].
    cbn [set_part]. rewrite fmap_cons, Hs in *.
    destruct (decide (s = stem)) as [->|Hne].
    + rewrite bool_decide_eq_true_2 by done.
      exists (Video (Some stem) (Some p) :: vs). split.
      * by rewrite bool_decide_eq_true_2 by apply list_elem_of_here.
      * intros v. rewrite !elem_of_cons. split.
        -- intros [->|Hv].
           ++ right. split; [by left|done].
           ++ left. split; [by right|]. intros Hst. apply Hfresh.
              rewrite <-Hst. apply list_elem_of_fmap. by exists v.
        -- intros [[[->|Hv] Hst]|[_ ->]]; [congruence|by right|by left].
    + rewrite bool_decide_eq_false_2 by done.
      destruct (IH Hnd) as (vs' & -> & Hvs'). cbn [bind fst snd].
      exists (u :: vs'). split.
      * do 2 f_equal. apply bool_decide_ext.
        rewrite elem_of_cons. intuition congruence.
      * intros v. rewrite !elem_of_cons, Hvs'. split.
        -- intros [->|[[Hv Hst]|[Hin ->]]].
           ++ left. split; [by left|]. congruence.
           ++ left. split; [by right|done].
           ++ right. split; [by right|done].
        -- intros [[[->|Hv] Hst]|[[Heq|Hin] ->]].
           ++ by left.
           ++ right. left. by split.
           ++ congruence.
           ++ right. right. by split.
Qed.

Lemma set_part_same stem p vs :
  Forall written_video vs → NoDup (video_stem <$> vs) →
  Video (Some stem) (Some p) ∈ vs →
  set_part stem p vs = Ok (true, vs).
Proof.
  induction 1 as [|u vs [[s Hs] Hp] Hvs IH]; intros Hnd Hin.
  - by apply elem_of_nil in Hin.
  - rewrite fmap_cons in Hnd. apply NoDup_cons in Hnd as [Hfresh Hnd].
    cbn [set_part]. rewrite Hs. apply elem_of_cons in Hin as [<-|Hin].
    + simpl in Hs. injection Hs as <-. by rewrite bool_decide_eq_true_2.
    + case_bool_decide as Heq.
      * exfalso. apply Hfresh. rewrite Hs, Heq. apply list_elem_of_fmap.
        by exists (Video (Some stem) (Some p)).
      * by rewrite (IH Hnd Hin).
Qed.


(** A call in closed form, on a group that is there. *)
Lemma upsert_group_found m name stem p red blue g vs found vs' :
  lookup name m = Some g → videos g = Some vs →
  set_part stem p vs = Ok (found, vs') →
  upsert_group m name stem p red blue
  = Ok (assign name
          (Group (if bool_decide (red = "") then red_name g else Some red)
                 (if bool_decide (blue = "") then blue_name g else Some blue)
                 (Some (sort_by_part
                          (if found then vs'
                           else vs' ++ [Video (Some stem) (Some p)]))))
          m).
Proof.
  intros Hg Hvs Hset. unfold upsert_group. rewrite Hg. cbn match.
  rewrite Hg. cbn [default from_option id].
  destruct (bool_decide (red = "")), (bool_decide (blue = ""));
    cbn [videos red_name blue_name]; rewrite Hvs; cbn [bind];
    rewrite Hset; reflexivity.
Qed.

Lemma upsert_group_new m name stem p red blue :
  lookup name m = None →
  upsert_group m name stem p red blue
  = upsert_group (assign name (Group (Some red) (Some blue) (Some [])) m)
                 name stem p red blue.
Proof.
  intros Hnone. unfold upsert_group. rewrite Hnone. cbn match.
  rewrite !lookup_assign_eq. reflexivity.
Qed.

Lemma lookup_is_Some name (m : matches) : is_Some (lookup name m) ↔ name ∈ m.*1.
Proof.
  rewrite <-not_eq_None_Some, lookup_None.
  destruct (decide (name ∈ m.*1)); tauto.
Qed.

Lemma upsert_group_entries_found m name stem p red blue g :
  written m → lookup name m = Some g →
  ∃ m', upsert_group m name stem p red blue = Ok m'
        ∧ written m'
        ∧ m'.*1 = m.*1
        ∧ (∀ n v, entry m' n v
                  ↔ (entry m n v ∧ ¬ (n = name ∧ video_stem v = Some stem))
                    ∨ (n = name ∧ v = Video (Some stem) (Some p)))
        ∧ upsert_group m' name stem p red blue = Ok m'.
Proof.
  intros Hw Hg.
  destruct (upsert_group_written m name stem p red blue Hw)
    as (m' & Hup & Hw' & _).
  destruct Hw as [Hnd Hw].
  pose proof (lookup_Forall written_group name g m Hw Hg)
    as ([r Hr] & [b Hb] & vs & Hvs & Hwv & Hsorted & Hndv).
  destruct (set_part_entries stem p vs Hwv Hndv) as (vs' & Hset & Hvs').
  rewrite (upsert_group_found m name stem p red blue g vs _ vs' Hg Hvs Hset)
    in Hup.
  set (vs2 := if bool_decide _ then vs' else vs' ++ _) in Hup.
  set (g' := Group _ _ _) in Hup. injection Hup as <-.
  assert (Hmem2 : ∀ v, v ∈ vs2 ↔ (v ∈ vs ∧ video_stem v ≠ Some stem)
                                  ∨ v = Video (Some stem) (Some p)).
  { intros v. unfold vs2. case_bool_decide as Hfound.
    - rewrite Hvs'. tauto.
    - rewrite elem_of_app, Hvs', list_elem_of_singleton. tauto. }
  assert (Hg' : lookup name (assign name g' m) = Some g')
    by apply lookup_assign_eq.
  exists (assign name g' m). split_and!; [|done|..].
  - exact (upsert_group_found m name stem p red blue g vs _ vs' Hg Hvs Hset).
  - rewrite assign_keys. rewrite decide_True; [done|].
    apply lookup_is_Some. by eexists.
  - intros n v. unfold entry. destruct (decide (n = name)) as [->|Hne].
    + rewrite Hg', Hg. split.
      * intros (g1 & vs1 & [= <-] & [= <-] & Hv).
        rewrite sort_by_part_perm in Hv. apply Hmem2 in Hv as [[Hv Hst]|Hv].
        -- left. split; [by exists g, vs|]. tauto.
        -- by right.
      * intros Hv. exists g', (sort_by_part vs2). split_and!; [done..|].
        rewrite sort_by_part_perm. apply Hmem2.
        destruct Hv as [[(g1 & vs1 & [= <-] & Hvs1 & Hv) Hn]|[_ ->]];
          [left|by right].
        rewrite Hvs in Hvs1. injection Hvs1 as <-. split; [done|].
        intros Hst. by apply Hn.
    + rewrite lookup_assign_ne by done. split; [|intros [[? _]|[? _]]; done].
      intros He. left. split; [done|]. tauto.
  - pose proof (lookup_Forall written_group name g' _ (proj2 Hw') Hg')
      as (_ & _ & vs3 & Hvs3 & Hwv3 & Hsorted3 & Hndv3).
    injection Hvs3 as <-.
    assert (Hin : Video (Some stem) (Some p) ∈ sort_by_part vs2).
    { rewrite sort_by_part_perm. apply Hmem2. by right. }
    rewrite (upsert_group_found _ name stem p red blue g' (sort_by_part vs2)
               true (sort_by_part vs2) Hg' eq_refl
               (set_part_same stem p _ Hwv3 Hndv3 Hin)).
    rewrite (sort_by_part_sorted_id _ Hsorted3).
    f_equal. rewrite <-(assign_same name g' (assign name g' m) Hg') at 2.
    f_equal. unfold g'. cbn [red_name blue_name].
    by destruct (bool_decide (red = "")), (bool_decide (blue = "")).
Qed.

Lemma upsert_group_entries m name stem p red blue :
  written m →
  ∃ m', upsert_group m name stem p red blue = Ok m'
        ∧ written m'
        ∧ (∀ n, n ∈ m'.*1 ↔ n ∈ m.*1 ∨ n = name)
        ∧ (∀ n v, entry m' n v
                  ↔ (entry m n v ∧ ¬ (n = name ∧ video_stem v = Some stem))
                    ∨ (n = name ∧ v = Video (Some stem) (Some p)))
        ∧ upsert_group m' name stem p red blue = Ok m'.
Proof.
  intros Hw. destruct (lookup name m) as [g|] eqn:Hg.
  - destruct (upsert_group_entries_found m name stem p red blue g Hw Hg)
      as (m' & Hup & Hw' & Hkeys & Hent & Hagain).
    exists m'. split_and!; [done..| |done|done].
    intros n. rewrite Hkeys. split; [by left|]. intros [?| ->]; [done|].
    apply lookup_is_Some. by eexists.
  - set (g0 := Group (Some red) (Some blue) (Some [])).
    assert (Hw0 : written (assign name g0 m)).
    { destruct Hw as [Hnd Hw]. split; [by apply assign_NoDup|].
      apply assign_Forall; [done|]. split_and!; [done..|].
      exists []. split_and!; [done|constructor..]. }
    destruct (upsert_group_entries_found (assign name g0 m) name stem p red blue
                g0 Hw0 (lookup_assign_eq _ _ _))
      as (m' & Hup & Hw' & Hkeys & Hent & Hagain).
    exists m'. split_and!; [by rewrite upsert_group_new|done| | |done].
    + intros n. rewrite Hkeys, assign_keys.
      apply lookup_None in Hg. rewrite decide_False by done.
      rewrite elem_of_app, list_elem_of_singleton. tauto.
    + intros n v. rewrite Hent.
      assert (entry (assign name g0 m) n v ↔ entry m n v) as ->; [|done].
      unfold entry. destruct (decide (n = name)) as [->|Hne].
      * rewrite lookup_assign_eq, Hg. split.
        -- intros (g & vs & [= <-] & [= <-] & Hv). by apply elem_of_nil in Hv.
        -- by intros (g & vs & ? & _).
      * by rewrite lookup_assign_ne.
Qed.


Lemma run_entries cs : ∀ st m,
  load_matches st = Ok m → written m →
  ∃ st' m', run cs st = Ok st' ∧ load_matches st' = Ok m' ∧ written m'
    ∧ (∀ n, n ∈ m'.*1 ↔ n ∈ m.*1 ∨ ∃ c, c ∈ cs ∧ call_match c = n)
    ∧ (∀ n v, entry m' n v
              ↔ (entry m n v
                 ∧ ∀ s, video_stem v = Some s → last_part cs n s = None)
                ∨ (∃ s p, v = Video (Some s) (Some p)
                          ∧ last_part cs n s = Some p))
    ∧ (cs ≠ [] → st' = Some (Json.dumps (encode_matches m'))).
Proof.
  induction cs as [|c cs IH]; intros st m Hload Hw.
  - exists st, m. split_and!; [done..| | |done].
    + intros n. split; [by left|]. intros [?|(c & Hc & _)]; [done|].
      by apply elem_of_nil in Hc.
    + intros n v. split; [by left|]. by intros [[? _]|(s & p & _ & ?)].
  - destruct (upsert_group_entries m (call_match c) (call_video c) (call_part c)
                (call_red c) (call_blue c) Hw)
      as (m1 & Hup & Hw1 & Hkeys1 & Hent1 & _).
    destruct (save_match_group_load st _ _ _ _ _ m m1 Hload Hup (proj1 Hw1))
      as [Hsave Hload1].
    destruct (IH _ m1 Hload1 Hw1)
      as (st' & m' & Hrun & Hload' & Hw' & Hkeys & Hent & Htext).
    exists st', m'. split_and!; [|done..| | |].
    4:{ intros _. destruct cs as [|c' cs]; [|by apply Htext].
        cbn [run] in Hrun. injection Hrun as <-.
        rewrite Hload1 in Hload'. by injection Hload' as <-. }
    + cbn [run]. unfold do_call. rewrite Hsave. exact Hrun.
    + intros n. rewrite Hkeys, Hkeys1. split.
      * intros [[?| ->]|(c' & Hc' & ?)]; [by left|right..].
        -- exists c. split; [by left|done].
        -- exists c'. split; [by right|done].
      * intros [?|(c' & [->|Hc']%elem_of_cons & <-)].
        -- by left; left.
        -- by left; right.
        -- right. by exists c'.
    + intros n v. rewrite Hent, Hent1. cbn [last_part]. split.
      * intros [[[[He Hn]|[-> ->]] Hlast]|(s & p & -> & Hlast)].
        -- left. split; [done|]. intros s Hs. rewrite (Hlast s Hs).
           rewrite bool_decide_eq_false_2; [done|].
           intros [<- <-]. by apply Hn.
        -- right. exists (call_video c), (call_part c). split; [done|].
           rewrite (Hlast (call_video c) eq_refl).
           by rewrite bool_decide_eq_true_2.
        -- right. exists s, p. by rewrite Hlast.
      * intros [[He Hlast]|(s & p & -> & Hlast)].
        -- left. split.
           ++ left. split; [done|]. intros [Hn Hs]. specialize (Hlast _ Hs).
              destruct (last_part cs _ _); [done|].
              rewrite bool_decide_eq_true_2 in Hlast; [done|]. by split.
           ++ intros s Hs. specialize (Hlast _ Hs).
              by destruct (last_part cs n s).
        -- destruct (last_part cs n s) as [q|] eqn:Hq.
           ++ right. exists s, p. split; [done|]. by rewrite Hq.
           ++ case_bool_decide as Hc; [|done]. injection Hlast as <-.
              destruct Hc as [<- <-]. left. split; [by right|].
              intros s [= <-]. done.
Qed.

Lemma run_from_empty cs :
  ∃ st m, run cs empty_store = Ok st ∧ load_matches st = Ok m ∧ written m
    ∧ (∀ n, n ∈ m.*1 ↔ ∃ c, c ∈ cs ∧ call_match c = n)
    ∧ (∀ n v, entry m n v
              ↔ ∃ s p, v = Video (Some s) (Some p) ∧ last_part cs n s = Some p).
Proof.
  destruct (run_entries cs empty_store [] eq_refl written_nil)
    as (st & m & Hrun & Hload & Hw & Hkeys & Hent & _).
  exists st, m. split_and!; [done..| |].
  - intros n. rewrite Hkeys. split; [|by right].
    intros [Hn|?]; [|done]. by apply elem_of_nil in Hn.
  - intros n v. rewrite Hent. split; [|by right].
    intros [[(g & vs & Hg & _) _]|?]; done.
Qed.

(** *** Looking a video up *)

Lemma find_group_Some stem m info :
  NoDup m.*1 → find_group stem m = Some info →
  ∃ g vs v, lookup (info_match_name info) m = Some g ∧ videos g = Some vs
            ∧ v ∈ vs ∧ video_stem v = Some stem
            ∧ info_video_part info = default 1 (part v)
            ∧ info_red_name info = default "" (red_name g)
            ∧ info_blue_name info = default "" (blue_name g)
            ∧ info_videos info = vs.
Proof.
  induction m as [|[k g] m IH]; [done|]. rewrite fmap_cons, NoDup_cons.
  intros [Hfresh Hnd]. cbn [find_group].
  destruct (List.find _ (default [] (videos g))) as [v|] eqn:Hfind.
  - intros [= <-]. apply List.find_some in Hfind as [Hv Hs].
    apply bool_decide_eq_true in Hs. cbn [info_match_name lookup].
    rewrite bool_decide_eq_true_2 by done.
    destruct (videos g) as [vs|] eqn:Hvs; [|done].
    exists g, vs, v. split_and!; [done|done|by apply list_elem_of_In|done..].
  - intros Hinfo. destruct (IH Hnd Hinfo) as (g' & vs & v & Hg' & Hrest).
    exists g', vs, v. split; [|done]. cbn [lookup].
    rewrite bool_decide_eq_false_2; [done|]. intros ->.
    apply Hfresh, lookup_is_Some. by eexists.
Qed.

Lemma find_group_None stem m :
  find_group stem m = None → ∀ name v, entry m name v → video_stem v ≠ Some stem.
Proof.
  induction m as [|[k g] m IH]; intros Hnone name v.
  - by intros (g & vs & ? & _).
  - cbn [find_group] in Hnone.
    destruct (List.find _ (default [] (videos g))) as [u|] eqn:Hfind; [done|].
    intros (g' & vs & Hg' & Hvs & Hv). cbn [lookup] in Hg'.
    case_bool_decide as Hk.
    + injection Hg' as <-. rewrite Hvs in Hfind. cbn [default from_option id] in Hfind.
      apply list_elem_of_In in Hv.
      pose proof (List.find_none _ _ Hfind v Hv) as Hs.
      by apply bool_decide_eq_false in Hs.
    + apply (IH Hnone name v). by exists g', vs.
Qed.

(** X22.  After any sequence of [save_match_group] calls from the empty store,
    [get_match_for_video] never raises; it answers [None] exactly for the
    videos that were never saved, and otherwise with a group the video was
    saved under, the part being the one given by the last save of the video
    under that group, and the videos being exactly those saved under the
    group, each with its last part. *)
Theorem get_match_for_video_after cs stem :
  ∃ st, run cs empty_store = Ok st
    ∧ match get_match_for_video st stem with
      | Ok (Some info) =>
          saved_under cs (info_match_name info) stem
          ∧ last_part cs (info_match_name info) stem
            = Some (info_video_part info)
          ∧ Video (Some stem) (Some (info_video_part info)) ∈ info_videos info
          ∧ ∀ v, v ∈ info_videos info
                 ↔ ∃ s p, v = Video (Some s) (Some p)
                          ∧ last_part cs (info_match_name info) s = Some p
      | Ok None => ∀ name, ¬ saved_under cs name stem
      | Raise _ => False
      end.
Proof.
  destruct (run_from_empty cs) as (st & m & Hrun & Hload & Hw & _ & Hent).
  exists st. split; [done|]. unfold get_match_for_video. rewrite Hload.
  cbn [bind]. destruct (find_group stem m) as [info|] eqn:Hfind.
  - destruct (find_group_Some stem m info (proj1 Hw) Hfind)
      as (g & vs & v & Hg & Hvs & Hv & Hs & Hpart & _ & _ & Hvids).
    assert (He : entry m (info_match_name info) v) by (by exists g, vs).
    apply Hent in He as (s & p & -> & Hlast). simpl in Hs, Hpart.
    injection Hs as ->. rewrite Hpart, Hvids. split_and!.
    + apply last_part_Some in Hlast as (c & ? & ? & ? & _). by exists c.
    + done.
    + done.
    + intros u. rewrite <-Hent. split.
      * intros Hu. by exists g, vs.
      * intros (g' & vs' & Hg' & Hvs' & Hu). congruence.
  - intros name Hsaved. apply last_part_None in Hsaved; [done|].
    destruct (last_part cs name stem) as [p|] eqn:Hlast; [|done]. exfalso.
    apply (find_group_None stem m Hfind name (Video (Some stem) (Some p)));
      [|done].
    apply Hent. by exists stem, p.
Qed.

(** X23.  Saving the same match details twice is saving them once: after any
    sequence of calls, a repeated last call succeeds and leaves the file as
    it is. *)
Theorem save_match_group_twice cs c :
  ∃ st, run (cs ++ [c]) empty_store = Ok st
        ∧ do_call st c = Ok st
        ∧ run (cs ++ [c; c]) empty_store = Ok st.
Proof.
  destruct (run_from_empty cs) as (st0 & m0 & Hrun0 & Hload0 & Hw0 & _).
  destruct (upsert_group_entries m0 (call_match c) (call_video c) (call_part c)
              (call_red c) (call_blue c) Hw0)
    as (m1 & Hup & Hw1 & _ & _ & Hagain).
  destruct (save_match_group_load st0 _ _ _ _ _ m0 m1 Hload0 Hup (proj1 Hw1))
    as [Hsave Hload1].
  destruct (save_match_group_load (save_matches m1 st0) _ _ _ _ _ m1 m1 Hload1
              Hagain (proj1 Hw1)) as [Hsave1 _].
  assert (Hrun_app : ∀ cs1 cs2 st st',
            run cs1 st = Ok st' → run (cs1 ++ cs2) st = run cs2 st').
  { induction cs1 as [|c1 cs1 IH]; intros cs2 st st'; simpl.
    - by intros [= ->].
    - destruct (do_call st c1); [|done]. simpl. apply IH. }
  exists (save_matches m1 st0). split_and!.
  - rewrite (Hrun_app _ _ _ _ Hrun0). simpl. unfold do_call. by rewrite Hsave.
  - exact Hsave1.
  - rewrite (Hrun_app _ _ _ _ Hrun0). simpl. unfold do_call. rewrite Hsave.
    simpl. by rewrite Hsave1.
Qed.

(** X24.  On a collection that this code did not write, [save_match_group]
    raises [KeyError] when the group it is to update has no [videos] entry,
    or has a video without [video_stem] in front of the one it looks for;
    nothing is written then, while [get_match_for_video] reads the same file
    without raising. *)
Theorem save_match_group_key_error st m name stem p red blue g :
  load_matches st = Ok m →
  lookup name m = Some g →
  videos g = None
  ∨ (∃ before v after,
       videos g = Some (before ++ v :: after) ∧ video_stem v = None
       ∧ Forall (λ u, is_Some (video_stem u) ∧ video_stem u ≠ Some stem)
                before) →
  save_match_group st name stem p red blue
  = Raise (KeyError (match videos g with
                     | Some _ => "video_stem"
                     | None => "videos"
                     end))
  ∧ store_after st (save_match_group st name stem p red blue) = st
  ∧ get_match_for_video st stem = Ok (find_group stem m).
Proof.
  intros Hload Hg Hbad.
  assert (Hraise : save_match_group st name stem p red blue
                   = Raise (KeyError (match videos g with
                                      | Some _ => "video_stem"
                                      | None => "videos"
                                      end))).
  { unfold save_match_group, upsert_group. rewrite Hload. cbn [bind].
    rewrite Hg. cbn match. rewrite Hg. cbn [default from_option id].
    assert (Hvid : ∀ g', videos g' = videos g →
              bind (vs ←! match videos g' with
                          | Some vs => Ok vs
                          | None => Raise (KeyError "videos")
                          end;
                    fr ←! set_part stem p vs;
                    Ok (assign name
                          (Group (red_name g') (blue_name g')
                             (Some (sort_by_part
                                (if fr.1 then fr.2
                                 else fr.2 ++ [Video (Some stem) (Some p)]))))
                          m))
                   (λ m', Ok (save_matches m' st))
              = Raise (KeyError (match videos g with
                     | Some _ => "video_stem"
                     | None => "videos"
                     end))).
    { intros g' ->. destruct Hbad as [->|(before & v & after & -> & Hv & Hpre)];
        [done|]. cbn [bind].
      assert (set_part stem p (before ++ v :: after)
              = Raise (KeyError "video_stem")) as ->; [|done].
      induction Hpre as [|u before [[s Hs] Hne] _ IH]; simpl.
      - by rewrite Hv.
      - rewrite Hs. rewrite bool_decide_eq_false_2 by congruence.
        by rewrite IH. }
    destruct (bool_decide (red = "")), (bool_decide (blue = ""));
      by apply Hvid. }
  split_and!; [done|by rewrite Hraise|].
  unfold get_match_for_video. by rewrite Hload.
Qed.


(** *** The names *)

Lemma ascii_compare_eq a b : Ascii.compare a b = Eq → a = b.
Proof.
  unfold Ascii.compare. intros Hc%N.compare_eq_iff.
  by rewrite <-(ascii_N_embedding a), <-(ascii_N_embedding b), Hc.
Qed.

Lemma ascii_compare_lt_trans a b c :
  Ascii.compare a b = Lt → Ascii.compare b c = Lt → Ascii.compare a c = Lt.
Proof.
  unfold Ascii.compare. rewrite !N.compare_lt_iff. apply N.lt_trans.
Qed.

Lemma string_compare_trans a : ∀ b c,
  String.compare a b ≠ Gt → String.compare b c ≠ Gt → String.compare a c ≠ Gt.
Proof.
  induction a as [|x a IH]; intros [|y b] [|z c]; simpl; try done.
  destruct (Ascii.compare x y) eqn:Hxy; [|..|done].
  - apply ascii_compare_eq in Hxy as ->.
    destruct (Ascii.compare y z); [apply IH|done..].
  - destruct (Ascii.compare y z) eqn:Hyz; [| |done].
    + apply ascii_compare_eq in Hyz as <-. by rewrite Hxy.
    + by rewrite (ascii_compare_lt_trans x y z).
Qed.

Lemma name_le_trans a b c : name_le a b → name_le b c → name_le a c.
Proof.
  unfold name_le, String.leb. intros Hab Hbc.
  pose proof (string_compare_trans a b c) as Ht.
  destruct (String.compare a b), (String.compare b c), (String.compare a c);
    try done; exfalso; by apply Ht.
Qed.

Lemma insert_name_perm s l : insert_name s l ≡ₚ s :: l.
Proof.
  induction l as [|t l IH]; [done|]. simpl. destruct (String.leb s t); [done|].
  by rewrite IH, Permutation_swap.
Qed.

Lemma sorted_names_perm l : sorted_names l ≡ₚ l.
Proof.
  induction l as [|s l IH]; [done|]. unfold sorted_names in *. simpl.
  by rewrite insert_name_perm, IH.
Qed.

Lemma insert_name_sorted s l :
  StronglySorted name_le l → StronglySorted name_le (insert_name s l).
Proof.
  induction 1 as [|t l Hl IH Ht]; simpl; [by repeat constructor|].
  destruct (String.leb s t) eqn:Hst.
  - constructor; [by constructor|]. constructor; [done|].
    eapply Forall_impl; [exact Ht|]. intros u Hu. by eapply name_le_trans.
  - constructor; [done|]. rewrite insert_name_perm. constructor; [|done].
    destruct (String.leb_total s t) as [Hle|Hle]; [congruence|done].
Qed.

Lemma sorted_names_sorted l : StronglySorted name_le (sorted_names l).
Proof.
  induction l as [|s l IH]; [constructor|]. by apply insert_name_sorted.
Qed.

(** X25.  On a file that holds a collection of match groups,
    [list_match_names] returns the names of the groups, each once, in
    increasing order; after any sequence of [save_match_group] calls from the
    empty store these are exactly the match names of the calls. *)
Theorem list_match_names_sorted :
  (∀ st m,
     load_matches st = Ok m →
     ∃ names, list_match_names st = Ok names
              ∧ names ≡ₚ m.*1
              ∧ NoDup names
              ∧ StronglySorted name_le names)
  ∧ ∀ cs, ∃ st names,
      run cs empty_store = Ok st ∧ list_match_names st = Ok names
      ∧ ∀ n, n ∈ names ↔ ∃ c, c ∈ cs ∧ call_match c = n.
Proof.
  split.
  - intros st m Hload. unfold list_match_names. rewrite Hload. cbn [bind].
    exists (sorted_names m.*1).
    split_and!; [done|apply sorted_names_perm| |apply sorted_names_sorted].
    rewrite sorted_names_perm. by eapply load_matches_NoDup.
  - intros cs.
    destruct (run_from_empty cs) as (st & m & Hrun & Hload & _ & Hkeys & _).
    exists st, (sorted_names m.*1). split_and!; [done| |].
    + unfold list_match_names. by rewrite Hload.
    + intros n. by rewrite sorted_names_perm, Hkeys.
Qed.

(** *** Download and upload *)

Lemma set_member_fresh k v kvs :
  k ∉ kvs.*1 → set_member k v kvs = kvs ++ [(k, v)].
Proof.
  induction kvs as [|[k' v'] kvs IH]; [done|]. rewrite fmap_cons, not_elem_of_cons.
  intros [Hne Hk]. cbn [set_member fst].
  rewrite bool_decide_eq_false_2 by (by intros ->). by rewrite IH.
Qed.

Lemma as_dict_obj kvs :
  NoDup kvs.*1 → Forall (λ kv, as_dict kv.2 = kv.2) kvs →
  as_dict (JObj kvs) = JObj kvs.
Proof.
  intros Hnd Hfix. cbn [as_dict]. f_equal.
  change kvs with ([] ++ kvs) at 2. change kvs with ([] ++ kvs) in Hnd.
  generalize (@nil (string * json)) as acc, Hnd. clear Hnd.
  induction Hfix as [|[k v] kvs Hv _ IH]; intros acc Hnd.
  - by rewrite app_nil_r.
  - cbn [snd] in Hv. rewrite Hv, set_member_fresh.
    + rewrite IH; [by rewrite <-app_assoc|]. by rewrite <-app_assoc.
    + rewrite fmap_app, fmap_cons in Hnd.
      apply NoDup_app in Hnd as (_ & Hdisj & _). intros Hk.
      apply (Hdisj k Hk). by left.
Qed.

Lemma as_dict_encode_video v : as_dict (encode_video v) = encode_video v.
Proof. by destruct v as [[s|] [p|]]. Qed.

Lemma as_dict_encode_videos vs :
  as_dict (JArr (encode_video <$> vs)) = JArr (encode_video <$> vs).
Proof.
  cbn [as_dict]. f_equal. induction vs as [|v vs IH]; [done|].
  rewrite fmap_cons. cbn [map]. by rewrite as_dict_encode_video, IH.
Qed.

Lemma as_dict_encode_group g : as_dict (encode_group g) = encode_group g.
Proof.
  unfold encode_group. apply as_dict_obj.
  - destruct g as [[r|] [b|] [vs|]]; apply (bool_decide_unpack _); by vm_compute.
  - destruct g as [[r|] [b|] [vs|]]; cbn [field app red_name blue_name videos];
      repeat constructor; cbn [snd]; by rewrite ?as_dict_encode_videos.
Qed.

Lemma as_dict_encode_matches m :
  NoDup m.*1 → as_dict (encode_matches m) = encode_matches m.
Proof.
  intros Hnd. unfold encode_matches. apply as_dict_obj.
  - by rewrite <-list_fmap_compose.
  - apply Forall_fmap, Forall_forall. intros [k g] _.
    apply as_dict_encode_group.
Qed.

(** X26.  Download and upload of the match groups: after any non-empty
    sequence of [save_match_group] calls the text offered for download is
    the content of the file, and uploading it, into whatever store, writes
    that same file; with no group saved there is nothing to download. *)
Theorem export_import cs :
  ∃ st, run cs empty_store = Ok st
    ∧ match download_matches st with
      | Ok (Some t) =>
          cs ≠ [] ∧ st = Some t ∧ ∀ st', upload_matches t st' = st
      | Ok None => cs = [] ∧ st = None
      | Raise _ => False
      end.
Proof.
  destruct (run_entries cs empty_store [] eq_refl written_nil)
    as (st & m & Hrun & Hload & Hw & Hkeys & _ & Htext).
  exists st. split; [done|]. destruct cs as [|c cs].
  - cbn [run] in Hrun. injection Hrun as <-. by cbn.
  - rewrite (Htext ltac:(done)). unfold download_matches.
    rewrite loads_dumps, (as_dict_encode_matches m (proj1 Hw)).
    assert (json_truthy (encode_matches m) = true) as ->.
    { destruct m as [|kg m]; [|done]. exfalso.
      assert (Hin : call_match c ∈ ([] : matches).*1).
      { apply Hkeys. right. exists c. split; [by left|done]. }
      by apply elem_of_nil in Hin. }
    split_and!; [done..|]. intros st'. unfold upload_matches.
    by rewrite loads_dumps, (as_dict_encode_matches m (proj1 Hw)).
Qed.

End registry_more.

(** ** The properties at the example inputs *)

Lemma add_annotation_other_keys_witness :
  Repo.get_annotation_for_event (example_world 2) example_store_red "match01"
    (VInt 10) (VInt 20) (VStr "blue")
  = Repo.get_annotation_for_event (example_world 2) Repo.empty_store "match01"
      (VInt 10) (VInt 20) (VStr "blue").
Proof.
  apply (add_annotation_other_keys (H := example_runtime) (example_world 1)
           (example_world 2) Repo.empty_store "match01" "match01" example_event
           example_red "Luke" (VInt 10) (VInt 20) (VStr "blue")).
  right. by vm_compute.
Defined.

Lemma add_then_delete_restores_witness :
  let d := Repo.delete_annotation (example_world 2) example_store_red "match01"
             (Repo.key_start example_event) (Repo.key_end example_event)
             (Repo.key_color example_event example_red) in
  d.1 = true
  ∧ Repo.stored_annotations d.2 "match01"
    = Repo.stored_annotations Repo.empty_store "match01".
Proof.
  apply (add_then_delete_restores (H := example_runtime) (example_world 1)
           (example_world 2) Repo.empty_store "match01" example_event
           example_red "Luke").
  by vm_compute.
Defined.

Lemma write_keeps_backup_witness :
  let o := Repo.OpAdd (example_world 2) "match01" example_event example_blue
             "Luke" in
  Repo.apply_op (H := example_runtime) example_store_red o = example_store_red
  ∨ Repo.bak_files (Repo.apply_op (H := example_runtime) example_store_red o)
      !! "match01"
    = Some (Repo.load_annotations example_store_red "" "match01").
Proof.
  apply (write_keeps_backup (H := example_runtime) example_store_red
           (Repo.OpAdd (example_world 2) "match01" example_event example_blue
              "Luke")
           (Repo.load_annotations example_store_red "" "match01")).
  by vm_compute.
Defined.

Lemma ops_touch_their_video_witness :
  Repo.ann_files example_store_red !! "match02" = None.
Proof.
  destruct (ops_touch_their_video (H := example_runtime)
              [Repo.OpAdd (example_world 1) "match01" example_event example_red
                 "Luke"]
              Repo.empty_store "match02") as (Hann & _).
  - constructor; [discriminate|constructor].
  - exact Hann.
Defined.

Lemma find_next_unannotated_first_witness :
  ∃ i, App._find_next_unannotated (example_world 3) example_store_red "match01"
         [example_event; example_event_2]
       = Registry.Ok i.
Proof.
  destruct (find_next_unannotated_first (example_world 3) example_store_red
              "match01" [example_event; example_event_2]) as (i & Hi & _).
  - apply (bool_decide_unpack _). by vm_compute.
  - by exists i.
Defined.

Lemma find_next_unannotated_key_error_witness :
  App._find_next_unannotated (example_world 3) example_store_red "match01"
    ([example_event] ++ example_event_bad :: [example_event_2])
  = Registry.Raise
      (Registry.KeyError
         (if bool_decide (is_Some (example_event_bad !! "start_frame"))
          then "end_frame" else "start_frame")).
Proof.
  apply (find_next_unannotated_key_error (example_world 3) example_store_red
           "match01" [example_event] example_event_bad [example_event_2]).
  - apply (bool_decide_unpack _). by vm_compute.
  - apply (bool_decide_unpack _). by vm_compute.
Defined.


Lemma dismiss_marks_done_witness :
  App._is_annotated
    (App.page_keys
       (App.dismiss (H := example_runtime) (example_world 1) Repo.empty_store
          "match01" example_event "Luke")
       "match01")
    example_event
  = true.
Proof.
  destruct (dismiss_marks_done (H := example_runtime) (example_world 1)
              (example_world 2) Repo.empty_store "match01" example_event "Luke"
              [example_event]) as (Hdone & _).
  - apply (bool_decide_unpack _). by vm_compute.
  - exact Hdone.
Defined.

Lemma confirm_marks_done_witness :
  App._is_annotated
    (App.page_keys
       (App.confirm_both (H := example_runtime) (example_world 1)
          (example_world 2) Repo.empty_store "match01" example_event
          example_red_data example_blue_data example_session)
       "match01")
    example_event
  = true.
Proof.
  destruct (confirm_marks_done (H := example_runtime) (example_world 1)
              (example_world 2) Repo.empty_store "match01" example_event
              example_red_data example_blue_data example_session)
    as (Hred & _).
  - apply (bool_decide_unpack _). by vm_compute.
  - reflexivity.
  - reflexivity.
  - apply Hred; by vm_compute.
Defined.

Lemma restore_finds_video_witness :
  App.restore_stem (App.download_name "match01") = "match01".
Proof.
  destruct (restore_finds_video Repo.empty_store example_store_red "" "match01")
    as (Hstem & _).
  - apply str_contains_false. reflexivity.
  - exact Hstem.
Defined.

Lemma save_match_group_key_error_witness :
  Registry.save_match_group
    (Registry.save_matches example_matches Registry.empty_store)
    "Semi" "semi_p1" 1 "" ""
  = Registry.Raise (Registry.KeyError "videos").
Proof.
  destruct (save_match_group_key_error
              (Registry.save_matches example_matches Registry.empty_store)
              example_matches "Semi" "semi_p1" 1 "" ""
              (Registry.Group None (Some "Park") None))
    as (Hraise & _).
  - by vm_compute.
  - reflexivity.
  - by left.
  - exact Hraise.
Defined.

Lemma save_match_group_names_witness :
  ∃ m' g',
    Registry.load_matches
      (Registry.store_after
         (Registry.save_matches example_matches Registry.empty_store)
         (Registry.save_match_group
            (Registry.save_matches example_matches Registry.empty_store)
            "Final" "final_p3" 3 "" "Choi"))
    = Registry.Ok m'
    ∧ Registry.lookup "Final" m' = Some g'
    ∧ Registry.red_name g' = Some "Kim".
Proof.
  destruct (save_match_group_names
              (Registry.save_matches example_matches Registry.empty_store)
              example_matches "Final" "final_p3" 3 "" "Choi")
    as (m' & Hload & _ & Hname).
  - by vm_compute.
  - cbn [Registry.lookup example_matches] in Hname.
    rewrite bool_decide_eq_true_2 in Hname by reflexivity.
    destruct Hname as (g' & Hg' & _ & _ & Hred & _).
    exists m', g'. split; [exact Hload|]. split; [exact Hg'|].
    exact (Hred eq_refl).
Defined.

Lemma list_match_names_sorted_witness :
  ∃ names,
    Registry.list_match_names
      (Registry.save_matches example_matches Registry.empty_store)
    = Registry.Ok names
    ∧ StronglySorted Registry.name_le names.
Proof.
  destruct (proj1 list_match_names_sorted
              (Registry.save_matches example_matches Registry.empty_store)
              example_matches)
    as (names & Hnames & _ & _ & Hsorted).
  - by vm_compute.
  - by exists names.
Defined.
